(** * HeartKit, Icentia11k dataset: label resolution and sample generators

    A shallow embedding of [heartkit/datasets/icentia11k.py] (with the label
    enumerations of [heartkit/defines.py]) and the properties of its label
    resolvers and task sample generators.

    Conventions of the embedding.
    - Python integers and the integer entries of numpy arrays are [Z].
    - A Python exception is a value [Raise e] of the [result] type.
    - The random sources ([random], [np.random]) are a state: a list of
      oracle words consumed one per draw.  Every outcome the library can
      produce is produced by some oracle, so a property proved for every
      oracle holds for every run.
    - A floating-point value is the rational it stands for, or one of the
      special values [nan], [+inf], [-inf].  The arithmetic of the heart-rate
      label is float64 with its rounding; the samples of a signal are only
      moved and cleaned ([nan_to_num]), never computed with. *)

From Stdlib Require Import ZArith QArith Lia List Bool.
From stdpp Require Import base list strings.

Local Open Scope Z_scope.

(** ** Exceptions *)

Inductive exn := ValueError | IndexError | KeyError | TypeError.

Inductive result (A : Type) :=
| Ok (a : A)
| Raise (e : exn).
Arguments Ok {A} a.
Arguments Raise {A} e.

#[global] Instance result_ret : MRet result := fun _ a => Ok a.
#[global] Instance result_bind : MBind result := fun _ _ k r =>
  match r with
  | Ok a => k a
  | Raise e => Raise e
  end.

(** ** Label enumerations *)

Module IcentiaRhythm.
Inductive t := noise | normal | afib | aflut | end_ | unknown.

Definition value (r : t) : Z :=
  match r with
  | noise => 0 | normal => 1 | afib => 2 | aflut => 3 | end_ => 4 | unknown => 5
  end.

(** Iteration order of the enumeration, [for rhythm in IcentiaRhythm]. *)
Definition members : list t := [noise; normal; afib; aflut; end_; unknown].

Definition hi_priority : list t := [afib; aflut].
Definition lo_priority : list t := [noise; normal; end_; unknown].
End IcentiaRhythm.

Module IcentiaBeat.
Inductive t := undefined | normal | pac | pvc.

(** [aberrated = 3] is commented out in the source: no member has value 3. *)
Definition value (b : t) : Z :=
  match b with
  | undefined => 0 | normal => 1 | pac => 2 | pvc => 4
  end.

Definition members : list t := [undefined; normal; pac; pvc].

Definition hi_priority : list t := [pac; pvc].
Definition lo_priority : list t := [undefined; normal].
End IcentiaBeat.

Module HeartRhythm.
Inductive t := normal | afib | aflut | noise.
Definition value (r : t) : Z :=
  match r with normal => 0 | afib => 1 | aflut => 2 | noise => 3 end.
End HeartRhythm.

Module HeartBeat.
Inductive t := normal | pac | pvc | noise.
Definition value (b : t) : Z :=
  match b with normal => 0 | pac => 1 | pvc => 2 | noise => 3 end.
End HeartBeat.

Module HeartRate.
Inductive t := normal | tachycardia | bradycardia | noise.
Definition value (r : t) : Z :=
  match r with normal => 0 | tachycardia => 1 | bradycardia => 2 | noise => 3 end.
End HeartRate.

(** The two dictionaries from Icentia codes to common labels.  A key that the
    dictionary lacks gives [None]; subscripting it raises [KeyError]. *)

Definition HeartRhythmMap (r : IcentiaRhythm.t) : option HeartRhythm.t :=
  match r with
  | IcentiaRhythm.noise => Some HeartRhythm.noise
  | IcentiaRhythm.normal => Some HeartRhythm.normal
  | IcentiaRhythm.afib => Some HeartRhythm.afib
  | IcentiaRhythm.aflut => Some HeartRhythm.afib
  | IcentiaRhythm.end_ => None
  | IcentiaRhythm.unknown => None
  end.

Definition HeartBeatMap (b : IcentiaBeat.t) : option HeartBeat.t :=
  match b with
  | IcentiaBeat.undefined => Some HeartBeat.noise
  | IcentiaBeat.normal => Some HeartBeat.normal
  | IcentiaBeat.pac => Some HeartBeat.pac
  | IcentiaBeat.pvc => Some HeartBeat.pvc
  end.

Definition subscript {K V} (d : K -> option V) (k : K) : result V :=
  match d k with
  | Some v => Ok v
  | None => Raise KeyError
  end.

(** ** numpy helpers *)

(** [a[i]] for a non-negative position; [IndexError] out of range. *)
Definition getitem {A} (a : list A) (i : nat) : result A :=
  match a !! i with
  | Some x => Ok x
  | None => Raise IndexError
  end.

(** [a[[i1, i2, ...]]]: indexing by a list of non-negative positions. *)
Fixpoint take_indices {A} (a : list A) (idxs : list Z) : result (list A) :=
  match idxs with
  | [] => Ok []
  | i :: idxs' =>
       x ← getitem a (Z.to_nat i);
       xs ← take_indices a idxs';
       Ok (x :: xs)
  end.

(** [np.argmax]: the position of the first maximal entry. *)
Fixpoint argmax_from (best_i : nat) (best : Z) (i : nat) (l : list Z) : nat :=
  match l with
  | [] => best_i
  | x :: l' =>
      if best <? x then argmax_from i x (S i) l'
      else argmax_from best_i best (S i) l'
  end.

Definition argmax (l : list Z) : nat :=
  match l with
  | [] => 0%nat
  | x :: l' => argmax_from 0 x 1 l'
  end.

Definition sumZ (l : list Z) : Z := fold_right Z.add 0 l.

(** [np.bincount(labels, minlength=m)]: entry [v] counts the occurrences of
    [v]; the length is [max m (max labels + 1)]; a negative label raises. *)
Definition count_of (v : Z) (labels : list Z) : Z :=
  Z.of_nat (length (List.filter (Z.eqb v) labels)).

Definition bincount (labels : list Z) (minlength : nat) : result (list Z) :=
  if existsb (fun v => v <? 0) labels then Raise ValueError
  else
    let n := Nat.max minlength (Z.to_nat (fold_right Z.max (-1) labels + 1)) in
    Ok ((fun v => count_of (Z.of_nat v) labels) <$> seq 0 n).

(** ** Label resolvers *)

(** [durations[labels == v].sum()]: a boolean mask needs equal lengths. *)
Definition masked_sum (durations labels : list Z) (v : Z) : result Z :=
  if (length durations =? length labels)%nat then
    Ok (sumZ (fst <$> (List.filter (fun p => snd p =? v) (combine durations labels))))
  else Raise IndexError.

Fixpoint summed_durations_of (durations labels : list Z)
    (rs : list IcentiaRhythm.t) : result (list Z) :=
  match rs with
  | [] => Ok []
  | r :: rs' =>
       s ← masked_sum durations labels (IcentiaRhythm.value r);
       ss ← summed_durations_of durations labels rs';
       Ok (s :: ss)
  end.

Definition _get_rhythm_label (durations labels : list Z) : result HeartRhythm.t :=
   summed_durations ← summed_durations_of durations labels IcentiaRhythm.members;
   hp ← take_indices summed_durations (IcentiaRhythm.value <$> IcentiaRhythm.hi_priority);
   let longest_hp_rhythm := argmax hp in
   d ← getitem hp longest_hp_rhythm;
   if 0 <? d then
     r ← getitem IcentiaRhythm.hi_priority longest_hp_rhythm;
     subscript HeartRhythmMap r
   else
     lp ← take_indices summed_durations (IcentiaRhythm.value <$> IcentiaRhythm.lo_priority);
     let longest_lp_rhythm := argmax lp in
     d' ← getitem lp longest_lp_rhythm;
     if 0 <? d' then
       r ← getitem IcentiaRhythm.lo_priority longest_lp_rhythm;
       subscript HeartRhythmMap r
     else subscript HeartRhythmMap IcentiaRhythm.noise.

Definition _get_beat_label (labels : list Z) : result HeartBeat.t :=
   beat_counts ← bincount labels (length IcentiaBeat.members);
   hp ← take_indices beat_counts (IcentiaBeat.value <$> IcentiaBeat.hi_priority);
   let max_hp_idx := argmax hp in
   c ← getitem hp max_hp_idx;
   if 0 <? c then
     b ← getitem IcentiaBeat.hi_priority max_hp_idx;
     subscript HeartBeatMap b
   else
     lp ← take_indices beat_counts (IcentiaBeat.value <$> IcentiaBeat.lo_priority);
     let max_lp_idx := argmax lp in
     c' ← getitem lp max_lp_idx;
     if 0 <? c' then
       b ← getitem IcentiaBeat.lo_priority max_lp_idx;
       subscript HeartBeatMap b
     else subscript HeartBeatMap IcentiaBeat.undefined.

(** *** Heart rate *)

(** Floating-point values: the rational a finite value stands for, and the
    special values. *)
Inductive float :=
| Fin (q : Q)
| PInf
| NInf
| NaN.

Definition Qltb (a b : Q) : bool := negb (Qle_bool b a).

(** [x < c] and [x <= c] for a finite constant [c]; every comparison with
    [nan] is false. *)
Definition float_ltb (x : float) (c : Q) : bool :=
  match x with
  | Fin q => Qltb q c
  | NInf => true
  | PInf | NaN => false
  end.

Definition float_leb (x : float) (c : Q) : bool :=
  match x with
  | Fin q => Qle_bool q c
  | NInf => true
  | PInf | NaN => false
  end.

(** *** Arithmetic in binary64

    The heart-rate label is computed in float64, and a BPM at a bucket
    boundary is decided by the rounding of each operation.  A finite value
    of the computation is the rational it stands for, and every operation
    rounds its exact result to the nearest number of 53 significant bits,
    ties to the even one.  The exponent range is not modelled: the inputs are
    differences of sample indices, integers of 64 bits, for which no operation
    below overflows or underflows.  No operation below gives [-0.0]. *)

(** [a / b] rounded to the nearest integer, ties to the even one, for
    [0 <= a] and [0 < b]. *)
Definition round_half_even (a b : Z) : Z :=
  let q := a / b in
  let r := a mod b in
  if 2 * r <? b then q
  else if b <? 2 * r then q + 1
  else if Z.even q then q else q + 1.

(** [n / d / 2 ^ e] as a fraction. *)
Definition scaled (n d : positive) (e : Z) : Z * Z :=
  if 0 <=? e then (Z.pos n, Z.pos d * 2 ^ e) else (Z.pos n * 2 ^ (- e), Z.pos d).

(** The number [m * 2 ^ e] nearest to [n / d] with [2 ^ 52 <= m <= 2 ^ 53].
    With [k = log2 n - log2 d] the quotient lies between [2 ^ (k - 1)] and
    [2 ^ (k + 1)], so the exponent is [k - 53] or [k - 52]. *)
Definition round_pos (n d : positive) : Q :=
  let k := Z.log2 (Z.pos n) - Z.log2 (Z.pos d) in
  let e0 := k - 53 in
  let e := if 2 ^ 53 * snd (scaled n d e0) <=? fst (scaled n d e0) then e0 + 1 else e0 in
  let m := round_half_even (fst (scaled n d e)) (snd (scaled n d e)) in
  if 0 <=? e then inject_Z (m * 2 ^ e) else Qmake m (Z.to_pos (2 ^ (- e))).

Definition round64 (q : Q) : Q :=
  match Qnum q with
  | Z0 => 0%Q
  | Zpos n => round_pos n (Qden q)
  | Zneg n => (- round_pos n (Qden q))%Q
  end.

(** The conversion of an integer to float64. *)
Definition of_int (z : Z) : float := Fin (round64 (inject_Z z)).

(** [x + y]. *)
Definition fadd (x y : float) : float :=
  match x, y with
  | NaN, _ | _, NaN => NaN
  | PInf, NInf | NInf, PInf => NaN
  | PInf, _ | _, PInf => PInf
  | NInf, _ | _, NInf => NInf
  | Fin a, Fin b => Fin (round64 (a + b))
  end.

(** [x / y] for numpy scalars and arrays: dividing by zero gives [inf] or
    [nan] (with a warning), not an exception. *)
Definition fdiv (x y : float) : float :=
  match x, y with
  | NaN, _ | _, NaN => NaN
  | (PInf | NInf), (PInf | NInf) => NaN
  | PInf, Fin b => if Qltb b 0 then NInf else PInf
  | NInf, Fin b => if Qltb b 0 then PInf else NInf
  | Fin _, (PInf | NInf) => Fin 0
  | Fin a, Fin b =>
      if Qeq_bool b 0 then
        if Qeq_bool a 0 then NaN else if Qltb a 0 then NInf else PInf
      else Fin (round64 (a / b))
  end.

(** [60 / x] for a numpy scalar [x]. *)
Definition sixty_over (x : float) : float := fdiv (of_int 60) x.

(** The sum of a float64 array as [np.add.reduce] computes it (numpy's
    [pairwise_sum]): fewer than 8 entries are added from left to right; up
    to 128 entries are added into 8 accumulators, [r[k] += a[i + k]], which
    are then added in pairs, and the entries left over are added one by one;
    a longer array is split at a multiple of 8 near its middle and the sums
    of the two parts are added. *)
Fixpoint add_blocks (r a : list float) (blocks : nat) : list float * list float :=
  match blocks with
  | O => (r, a)
  | S blocks' => add_blocks (zip_with fadd r (take 8 a)) (drop 8 a) blocks'
  end.

Definition sum_block (a : list float) : float :=
  let '(r, rest) := add_blocks (take 8 a) (drop 8 a) (length a / 8 - 1) in
  match r with
  | [r0; r1; r2; r3; r4; r5; r6; r7] =>
      fold_left fadd rest
        (fadd (fadd (fadd r0 r1) (fadd r2 r3)) (fadd (fadd r4 r5) (fadd r6 r7)))
  | _ => fold_left fadd a (Fin 0)
  end.

(** [fuel] bounds the depth of the splitting; the length of the array is
    enough. *)
Fixpoint pairwise_sum_from (fuel : nat) (a : list float) : float :=
  let n := length a in
  if (n <? 8)%nat then fold_left fadd a (Fin 0)
  else if (n <=? 128)%nat then sum_block a
  else
    match fuel with
    | O => fold_left fadd a (Fin 0)
    | S fuel' =>
        let n2 := (n / 2)%nat in
        let n2 := (n2 - n2 mod 8)%nat in
        fadd (pairwise_sum_from fuel' (take n2 a)) (pairwise_sum_from fuel' (drop n2 a))
    end.

Definition pairwise_sum (a : list float) : float := pairwise_sum_from (length a) a.

(** [a.mean()]: the sum divided by the number of entries; the mean of an
    empty array is [0.0 / 0], which is [nan]. *)
Definition mean (a : list float) : float :=
  fdiv (pairwise_sum a) (of_int (Z.of_nat (length a))).

(** [np.diff]: consecutive differences. *)
Fixpoint diff (a : list Z) : list Z :=
  match a with
  | x :: (y :: _) as a' => (y - x) :: diff a'
  | _ => []
  end.

(** [(rr_intervals / fs).mean()], or [rr_intervals.mean()] when [fs] is
    [None] (the integers are then converted one by one).  [fs] is a sampling
    frequency, a positive integer. *)
Definition mean_interval (rr_intervals : list Z) (fs : option positive) : float :=
  let a : list float :=
    match fs with
    | Some f => (fun d : Z => fdiv (of_int d) (of_int (Z.pos f))) <$> rr_intervals
    | None => of_int <$> rr_intervals
    end in
  mean a.

(** The argument [qrs_indices] is documented as a list; the heart-rate
    generator passes a numpy array.  [not qrs_indices] depends on which:
    an empty list is false; an array is false when empty (with a deprecation
    warning), has the truth value of its entry when it has one, and raises
    otherwise. *)
Inductive pyseq :=
| PyList (l : list Z)
| NdArray (l : list Z).

Definition items (s : pyseq) : list Z :=
  match s with PyList l | NdArray l => l end.

Definition truth (s : pyseq) : result bool :=
  match s with
  | PyList l => Ok (negb (length l =? 0)%nat)
  | NdArray [] => Ok false
  | NdArray [x] => Ok (negb (x =? 0))
  | NdArray _ => Raise ValueError
  end.

Definition _get_heart_rate_label (qrs_indices : pyseq) (fs : option positive) : result Z :=
  t ← truth qrs_indices;
  if negb t then Ok (HeartRate.value HeartRate.noise)
  else
    let rr_intervals := diff (items qrs_indices) in
    let bpm := sixty_over (mean_interval rr_intervals fs) in
    if float_ltb bpm 60 then Ok (HeartRate.value HeartRate.bradycardia)
    else if float_leb bpm 100 then Ok (HeartRate.value HeartRate.normal)
    else Ok (HeartRate.value HeartRate.tachycardia).

(** *** Complete beats *)

(** [np.searchsorted(a, v, side)] for an array [a] sorted in ascending order:
    the position [i] with [a[i-1] < v <= a[i]] (left) or [a[i-1] <= v < a[i]]
    (right). *)
Fixpoint searchsorted_left (a : list Z) (v : Z) : nat :=
  match a with
  | [] => 0%nat
  | x :: a' => if x <? v then S (searchsorted_left a' v) else 0%nat
  end.

Fixpoint searchsorted_right (a : list Z) (v : Z) : nat :=
  match a with
  | [] => 0%nat
  | x :: a' => if x <=? v then S (searchsorted_right a' v) else 0%nat
  end.

(** [a[i:j]] for integer bounds: a negative bound counts from the end, and
    bounds are clipped to the array. *)
Definition slice_bound (len : nat) (i : Z) : nat :=
  if i <? 0 then Z.to_nat (Z.max 0 (i + Z.of_nat len))
  else Nat.min (Z.to_nat i) len.

Definition slice {A} (a : list A) (i j : Z) : list A :=
  let lo := slice_bound (length a) i in
  let hi := slice_bound (length a) j in
  take (hi - lo) (drop lo a).

(** [a[-1]]. *)
Definition last_item {A} (a : list A) : result A :=
  match last a with
  | Some x => Ok x
  | None => Raise IndexError
  end.

(** The result is [indices_slice] when [labels] is [None] and the pair
    [(indices_slice, label_slice)] otherwise. *)
Definition get_complete_beats (indices : list Z) (labels : option (list Z))
    (start : Z) (end_ : option Z) : result (list Z * option (list Z)) :=
  end_ ← match end_ with
         | None => last_item indices
         | Some e => Ok e
         end;
  if start >=? end_ then Raise ValueError
  else
    let start_index := Z.of_nat (searchsorted_left indices start) + 1 in
    let end_index := Z.of_nat (searchsorted_right indices end_) in
    let indices_slice := slice indices start_index end_index in
    match labels with
    | None => Ok (indices_slice, None)
    | Some labels =>
        let label_slice := slice labels start_index end_index in
        Ok (indices_slice, Some label_slice)
    end.

(** Ascending order, the order [np.searchsorted] asks for. *)
Fixpoint ascending (a : list Z) : bool :=
  match a with
  | x :: (y :: _) as a' => (x <=? y) && ascending a'
  | _ => true
  end.

(** The closed window of the code and the open window of the specification. *)
Definition in_window (start end_ x : Z) : bool := (start <=? x) && (x <=? end_).
Definition strictly_inside (start end_ x : Z) : bool := (start <? x) && (x <? end_).

(** The beats strictly inside the open window, in the words of the
    specification. *)
Definition beats_strictly_inside (indices : list Z) (start end_ : Z) : list Z :=
  List.filter (strictly_inside start end_) indices.

(** ** Per-class sample counts *)

(** [samples_per_patient: int | list[int]]. *)
Inductive samples_per_patient :=
| Total (n : Z)
| PerClass (l : list Z).

(** The same four lines open the rhythm and the beat generator:
[[
    if isinstance(samples_per_patient, Iterable):
        samples_per_tgt = samples_per_patient
    else:
        num_per_tgt = int(max(1, samples_per_patient / len(tgt_labels)))
        samples_per_tgt = num_per_tgt * [len(tgt_labels)]
]]
    [n * [x]] repeats the one-element list [n] times. *)
Definition samples_per_tgt {A} (tgt_labels : list A) (spp : samples_per_patient) : list Z :=
  match spp with
  | PerClass l => l
  | Total n =>
      let len := Z.of_nat (length tgt_labels) in
      let num_per_tgt := Z.max 1 (n / len) in
      repeat len (Z.to_nat num_per_tgt)
  end.

Definition tgt_labels : list IcentiaRhythm.t :=
  [IcentiaRhythm.normal; IcentiaRhythm.afib; IcentiaRhythm.aflut].

Definition tgt_beat_labels : list IcentiaBeat.t :=
  [IcentiaBeat.normal; IcentiaBeat.pac; IcentiaBeat.pvc].

(** ** Generators

    A generator is a computation that draws from the random state, may raise,
    and yields values on the way: it maps the oracle to the values yielded,
    in order, and to how the run ended.  Values yielded before an exception
    stay yielded.  The patient generator a sample generator consumes is the
    list of the patients it has produced so far, each the list of its
    segments; a consumer that stops early sees a prefix of the values. *)

Definition oracle := list nat.

Definition Gen (Y A : Type) : Type := oracle -> list Y * result (A * oracle).

#[global] Instance gen_ret {Y} : MRet (Gen Y) := fun _ a o => ([], Ok (a, o)).
#[global] Instance gen_bind {Y} : MBind (Gen Y) := fun _ _ k m o =>
  match m o with
  | (ys, Ok (a, o')) => let '(zs, r) := k a o' in (ys ++ zs, r)
  | (ys, Raise e) => (ys, Raise e)
  end.

Definition yield {Y} (y : Y) : Gen Y unit := fun o => ([y], Ok (tt, o)).

Definition lift {Y A} (r : result A) : Gen Y A := fun o =>
  match r with
  | Ok a => ([], Ok (a, o))
  | Raise e => ([], Raise e)
  end.

(** One word of the random state; an exhausted oracle keeps giving 0. *)
Definition draw {Y} : Gen Y nat := fun o =>
  match o with
  | [] => ([], Ok (0%nat, []))
  | r :: o' => ([], Ok (r, o'))
  end.

(** [for x in xs: body]. *)
Fixpoint for_each {Y X} (xs : list X) (body : X -> Gen Y unit) : Gen Y unit :=
  match xs with
  | [] => mret tt
  | x :: xs' => _ ← body x; for_each xs' body
  end.

(** What a run yields, and what makes a property [P] of the values yielded
    and a property [Q] of the value returned hold on every run. *)
Definition yields {Y A} (g : Gen Y A) (o : oracle) : list Y := (g o).1.

Definition gen_spec {Y A} (P : Y -> Prop) (Q : A -> Prop) (g : Gen Y A) : Prop :=
  forall o, Forall P (g o).1 /\ forall a o', (g o).2 = Ok (a, o') -> Q a.

(** *** The random library *)

(** [randbelow(n)] for [n > 0]: an integer of [range(n)]. *)
Definition randbelow {Y} (n : nat) : Gen Y nat :=
  r ← draw; mret (r mod n)%nat.

(** [np.random.randint(low, high)]: an integer of [[low, high)]; raises when
    the range is empty.  [np.random.randint(high)] is [randint 0 high]. *)
Definition randint {Y} (low high : Z) : Gen Y Z :=
  if low <? high then
    r ← draw; mret (low + Z.of_nat r mod (high - low))
  else lift (Raise ValueError).

(** [np.random.choice(a)] for a list [a]: one of its entries. *)
Definition choice {Y A} (a : list A) : Gen Y A :=
  if (length a =? 0)%nat then lift (Raise ValueError)
  else i ← randbelow (length a); lift (getitem a i).

(** [random.choices(np.arange(n), weights=..., k=k)] for [n > 0]: [k]
    positions below [n], drawn with replacement.  The weights only change the
    probabilities, so they are left out. *)
Definition choices {Y} (n : nat) (k : Z) : Gen Y (list nat) :=
  mapM (fun _ => randbelow n) (seq 0 (Z.to_nat k)).

(** [x[i], x[j] = x[j], x[i]]. *)
Definition swap {A} (x : list A) (i j : nat) : list A :=
  match x !! i, x !! j with
  | Some a, Some b => <[j:=a]> (<[i:=b]> x)
  | _, _ => x
  end.

(** [random.shuffle(x)]:
[[
    for i in reversed(range(1, len(x))):
        j = randbelow(i + 1)
        x[i], x[j] = x[j], x[i]
]] *)
Fixpoint shuffle_from {Y A} (i : nat) (x : list A) : Gen Y (list A) :=
  match i with
  | O => mret x
  | S i' => j ← randbelow (S i); shuffle_from i' (swap x i j)
  end.

Definition shuffle {Y A} (x : list A) : Gen Y (list A) :=
  shuffle_from (length x - 1) x.

(** [np.random.choice(np.arange(n), size=size, replace=False)]: the first
    [size] entries of a random permutation of [range(n)]. *)
Definition choice_without_replacement {Y} (n : nat) (size : Z) : Gen Y (list nat) :=
  if Z.of_nat n <? size then lift (Raise ValueError)
  else if size <? 0 then lift (Raise ValueError)
  else idx ← shuffle (seq 0 n); mret (take (Z.to_nat size) idx).

(** [int(random.uniform(0.4, 0.6) * frame_size)]: an integer between
    [int(0.4 * frame_size)] and [int(0.6 * frame_size)]. *)
Definition uniform_offset {Y} (frame_size : Z) : Gen Y Z :=
  let a := Z.quot (4 * frame_size) 10 in
  let b := Z.quot (6 * frame_size) 10 in
  r ← draw; mret (Z.min a b + Z.of_nat r mod (Z.abs (b - a) + 1)).

(** *** Segments *)

(** A two-dimensional array is the list of its rows. *)
Definition array2 := list (list float).

Definition shape (a : array2) : nat * nat :=
  (length a, match a with [] => 0%nat | row :: _ => length row end).

(** A segment of the patient store: the signal [data] (time × channel) and
    the label tables, rows [(sample_index, code)].  A patient is the list of
    its segments, in the order of [seg_map = list(segments.keys())]. *)
Record segment := {
  data : array2;
  blabels : list (Z * Z);
  rlabels : list (Z * Z);
}.

(** [segment["data"].shape[0]]. *)
Definition data_len (seg : segment) : Z := Z.of_nat (length (data seg)).

(** What a generator yields is logged with the place it was cut from: the
    segment and the [(start, stop)] bounds of each slice of its [data].  The
    consumer sees [x] and [y] only. *)
Record sample (L : Type) := {
  src : segment;
  slices : list (Z * Z);
  x_of : array2;
  y_of : L;
}.
Arguments src {L} s.
Arguments slices {L} s.
Arguments x_of {L} s.
Arguments y_of {L} s.

(** *** Rhythm generator *)

(** [a[0::2]] and [a[1::2]]. *)
Fixpoint evens {A} (l : list A) : list A :=
  match l with
  | x :: _ :: l' => x :: evens l'
  | _ => l
  end.

Fixpoint odds {A} (l : list A) : list A :=
  match l with
  | _ :: y :: l' => y :: odds l'
  | _ => []
  end.

(** One entry of [(xe - xs >= frame_size) & (xl == tgt_class)]. *)
Definition qualifies (frame_size : Z) (tgt_class : IcentiaRhythm.t) (s e l : Z) : bool :=
  (frame_size <=? e - s) && (l =? IcentiaRhythm.value tgt_class).

Fixpoint qualifying (frame_size : Z) (tgt_class : IcentiaRhythm.t)
    (xs xe xl : list Z) : list (Z * Z) :=
  match xs, xe, xl with
  | s :: xs', e :: xe', l :: xl' =>
      (if qualifies frame_size tgt_class s e l then [(s, e)] else [])
        ++ qualifying frame_size tgt_class xs' xe' xl'
  | _, _, _ => []
  end.

(** The rows [(xs[idxs], xe[idxs])] for one target class.  With an even
    number of rows in [rlabels] the three columns have one length.  With an
    odd number, [xs] and [xl] are one longer than [xe] and numpy broadcasts
    [xe - xs] only when [xe] has at most one entry; [xe[idxs]] then raises
    for a position past its end. *)
Definition tgt_rows (frame_size : Z) (tgt_class : IcentiaRhythm.t)
    (rlabels : list (Z * Z)) : result (list (Z * Z)) :=
  let xs := evens (fst <$> rlabels) in
  let xe := odds (fst <$> rlabels) in
  let xl := evens (snd <$> rlabels) in
  if (length xs =? length xe)%nat then Ok (qualifying frame_size tgt_class xs xe xl)
  else
    match xs, xe, xl with
    | [_], [], _ => Ok []
    | [s0; s1], [e0], [l0; l1] =>
        if qualifies frame_size tgt_class s1 e0 l1 then Raise IndexError
        else Ok (if qualifies frame_size tgt_class s0 e0 l0 then [(s0, e0)] else [])
    | _, _, _ => Raise ValueError
    end.

(** [np.vstack((seg_idx * np.ones_like(idxs), xs[idxs], xe[idxs])).T]. *)
Definition seg_vals (seg_idx : nat) (rows : list (Z * Z)) : list (nat * Z * Z) :=
  (fun r : Z * Z => (seg_idx, fst r, snd r)) <$> rows.

(** The rows one segment adds to each entry of [pt_tgt_seg_map]. *)
Definition seg_tgt_rows (frame_size : Z) (seg_idx : nat) (seg : segment)
    : result (list (list (nat * Z * Z))) :=
  if (length (rlabels seg) =? 0)%nat then Ok ((fun _ : IcentiaRhythm.t => []) <$> tgt_labels)
  else
    let rlabels :=
      List.filter (fun r => negb (snd r =? IcentiaRhythm.value IcentiaRhythm.noise))
                  (rlabels seg) in
    mapM (fun tgt_class =>
            rows ← tgt_rows frame_size tgt_class rlabels;
            mret (seg_vals seg_idx rows))
         tgt_labels.

Fixpoint pt_tgt_seg_map_from (frame_size : Z) (seg_idx : nat) (segments : list segment)
    : result (list (list (nat * Z * Z))) :=
  match segments with
  | [] => Ok ((fun _ : IcentiaRhythm.t => []) <$> tgt_labels)
  | seg :: segments' =>
      rows ← seg_tgt_rows frame_size seg_idx seg;
      rest ← pt_tgt_seg_map_from frame_size (S seg_idx) segments';
      mret (zip_with app rows rest)
  end.

Definition pt_tgt_seg_map (frame_size : Z) (segments : list segment) :=
  pt_tgt_seg_map_from frame_size 0 segments.

(** The frames drawn for one target class: [(seg_idx, frame_start,
    frame_end, label)]. *)
Definition tgt_seg_samples {Y} (frame_size : Z) (samples_per_tgt : list Z)
    (tgt_idx : nat) (tgt_class : IcentiaRhythm.t) (tgt_segments : list (nat * Z * Z))
    : Gen Y (list (nat * Z * Z * HeartRhythm.t)) :=
  if (length tgt_segments =? 0)%nat then mret []
  else
    k ← lift (getitem samples_per_tgt tgt_idx);
    tgt_seg_indices ← choices (length tgt_segments) k;
    mapM (fun tgt_seg_idx =>
            '(seg_idx, rhy_start, rhy_end) ← lift (getitem tgt_segments tgt_seg_idx);
            frame_start ← randint rhy_start (rhy_end - frame_size + 1);
            let frame_end := frame_start + frame_size in
            label ← lift (subscript HeartRhythmMap tgt_class);
            mret (seg_idx, frame_start, frame_end, label))
         tgt_seg_indices.

Fixpoint seg_samples_from {Y} (frame_size : Z) (samples_per_tgt : list Z)
    (tgt_idx : nat) (classes : list IcentiaRhythm.t)
    (pt_map : list (list (nat * Z * Z))) : Gen Y (list (nat * Z * Z * HeartRhythm.t)) :=
  match classes with
  | [] => mret []
  | tgt_class :: classes' =>
      tgt_segments ← lift (getitem pt_map tgt_idx);
      here ← tgt_seg_samples frame_size samples_per_tgt tgt_idx tgt_class tgt_segments;
      rest ← seg_samples_from frame_size samples_per_tgt (S tgt_idx) classes' pt_map;
      mret (here ++ rest)
  end.

(** The body of [for _, segments in patient_generator] of
    [rhythm_data_generator]. *)
Definition rhythm_patient (frame_size : Z) (samples_per_tgt : list Z)
    (segments : list segment) : Gen (sample HeartRhythm.t) unit :=
  pt_map ← lift (pt_tgt_seg_map frame_size segments);
  seg_samples ← seg_samples_from frame_size samples_per_tgt 0 tgt_labels pt_map;
  seg_samples ← shuffle seg_samples;
  for_each seg_samples (fun '(seg_idx, frame_start, frame_end, label) =>
    seg ← lift (getitem segments seg_idx);
    let x := slice (data seg) frame_start frame_end in
    yield {| src := seg; slices := [(frame_start, frame_end)];
             x_of := x; y_of := label |}).

Definition rhythm_data_generator (frame_size : Z) (spp : samples_per_patient)
    (patient_generator : list (list segment)) : Gen (sample HeartRhythm.t) unit :=
  let samples_per_tgt := samples_per_tgt tgt_labels spp in
  for_each patient_generator (rhythm_patient frame_size samples_per_tgt).

(** *** Beat generator *)

Definition blabel_padding : nat := 20.

(** [self.sampling_rate] is the constant 250, so [rr_win_len = int(15 * 250)],
    [rr_min_len = int(0.6 * 250)] and [rr_max_len = int(2.0 * 250)]. *)
Definition sampling_rate : Z := 250.
Definition rr_win_len : Z := 15 * sampling_rate.
Definition rr_min_len : Z := 6 * sampling_rate / 10.
Definition rr_max_len : Z := 2 * sampling_rate.

(** [blabels[i, 1] == v]. *)
Definition code_eqb (blabels : list (Z * Z)) (i : nat) (v : Z) : bool :=
  match blabels !! i with
  | Some (_, c) => c =? v
  | None => false
  end.

(** [np.where(blabels[blabel_padding:-blabel_padding, 1] == beat.value)[0]
    + blabel_padding]. *)
Definition beat_idxs (blabels : list (Z * Z)) (beat : IcentiaBeat.t) : list nat :=
  List.filter (fun i => code_eqb blabels i (IcentiaBeat.value beat))
              (seq blabel_padding (length blabels - 2 * blabel_padding)).

(** The condition of the list comprehension, for each kind of target. *)
Definition neighbors_ok (blabels : list (Z * Z)) (beat : IcentiaBeat.t) (i : nat) : bool :=
  match beat with
  | IcentiaBeat.normal =>
      code_eqb blabels (i - 1) (IcentiaBeat.value IcentiaBeat.normal)
      && code_eqb blabels (i + 1) (IcentiaBeat.value IcentiaBeat.normal)
  | _ =>
      negb (code_eqb blabels (i - 1) (IcentiaBeat.value IcentiaBeat.undefined))
      && negb (code_eqb blabels (i + 1) (IcentiaBeat.value IcentiaBeat.undefined))
  end.

(** The marker positions of one segment kept for a target class. *)
Definition tgt_beat_positions (blabels : list (Z * Z)) (beat : IcentiaBeat.t) : list nat :=
  List.filter (neighbors_ok blabels beat) (beat_idxs blabels beat).

(** [[(seg_idx, blabels[i, 0]) for i in beat_idxs if ...]]. *)
Definition tgt_beat_rows (seg_idx : nat) (blabels : list (Z * Z)) (beat : IcentiaBeat.t)
    : list (nat * Z) :=
  omap (fun i => r ← blabels !! i; Some (seg_idx, fst r)) (tgt_beat_positions blabels beat).

(** [num_nlabels / num_blabels < nlabel_threshold] with the threshold 0.25. *)
Definition too_few_normal (blabels : list (Z * Z)) : bool :=
  let num_blabels := Z.of_nat (length blabels) in
  let num_nlabels := count_of (IcentiaBeat.value IcentiaBeat.normal) (snd <$> blabels) in
  4 * num_nlabels <? num_blabels.

Definition seg_beat_rows (seg_idx : nat) (seg : segment) : list (list (nat * Z)) :=
  let blabels := blabels seg in
  if (length blabels <=? 0)%nat then (fun _ : IcentiaBeat.t => []) <$> tgt_beat_labels
  else if too_few_normal blabels then (fun _ : IcentiaBeat.t => []) <$> tgt_beat_labels
  else tgt_beat_rows seg_idx blabels <$> tgt_beat_labels.

Fixpoint pt_beat_map_from (seg_idx : nat) (segments : list segment) : list (list (nat * Z)) :=
  match segments with
  | [] => (fun _ : IcentiaBeat.t => []) <$> tgt_beat_labels
  | seg :: segments' =>
      zip_with app (seg_beat_rows seg_idx seg) (pt_beat_map_from (S seg_idx) segments')
  end.

Definition pt_beat_map (segments : list segment) := pt_beat_map_from 0 segments.

(** Randomly select N samples of each target beat:
    [(seg_idx, beat_idx, label)]. *)
Fixpoint pt_segs_beat_idxs_from {Y} (samples_per_tgt : list Z) (tgt_beat_idx : nat)
    (classes : list IcentiaBeat.t) (pt_map : list (list (nat * Z)))
    : Gen Y (list (nat * Z * HeartBeat.t)) :=
  match classes with
  | [] => mret []
  | beat :: classes' =>
      tgt_beats ← lift (getitem pt_map tgt_beat_idx);
      k ← lift (getitem samples_per_tgt tgt_beat_idx);
      let tgt_count := Z.min k (Z.of_nat (length tgt_beats)) in
      tgt_idxs ← choice_without_replacement (length tgt_beats) tgt_count;
      here ← mapM (fun i =>
                     '(seg_idx, beat_idx) ← lift (getitem tgt_beats i);
                     label ← lift (subscript HeartBeatMap beat);
                     mret (seg_idx, beat_idx, label))
                  tgt_idxs;
      rest ← pt_segs_beat_idxs_from samples_per_tgt (S tgt_beat_idx) classes' pt_map;
      mret (here ++ rest)
  end.

(** [int(np.mean(a))] for a non-empty integer array. *)
Definition int_mean (a : list Z) : Z := Z.quot (sumZ a) (Z.of_nat (length a)).

(** The RR intervals with a typical length. *)
Definition typical_rr (blabel_diffs : list Z) : list Z :=
  List.filter (fun d => (rr_min_len <? d) && (d <? rr_max_len)) blabel_diffs.

(** The differences of the beat markers around the frame, or [None] where the
    source has [continue]. *)
Definition rr_diffs (seg : segment) (frame_start frame_end : Z) : option (list Z) :=
  let idx := fst <$> blabels seg in
  let rr_xs := searchsorted_left idx (Z.max 0 (frame_start - rr_win_len)) in
  let rr_xe := searchsorted_left idx (frame_end + rr_win_len) in
  if (rr_xe <=? rr_xs)%nat then None
  else
    let blabels := slice (blabels seg) (Z.of_nat rr_xs) (Z.of_nat rr_xe + 1) in
    let blabel_diffs := diff (fst <$> blabels) in
    if (length (typical_rr blabel_diffs) <=? 0)%nat then None
    else Some blabel_diffs.

(** [(frame_start, frame_end, avg_rr)] for a selected beat and the offset
    drawn for it, or [None] where the source has [continue]. *)
Definition beat_frame (frame_size : Z) (seg : segment) (beat_idx off : Z)
    : option (Z * Z * Z) :=
  let frame_start := Z.max 0 (beat_idx - off) in
  let frame_end := frame_start + frame_size in
  blabel_diffs ← rr_diffs seg frame_start frame_end;
  let avg_rr := int_mean blabel_diffs in
  if (frame_start - avg_rr <? 0) || (frame_end + avg_rr >=? data_len seg) then None
  else Some (frame_start, frame_end, avg_rr).

(** [np.hstack] of three two-dimensional arrays: the rows are joined, so the
    arrays sit side by side along the second axis; the numbers of rows must
    agree. *)
Definition hstack (a b c : array2) : result array2 :=
  if (length a =? length b)%nat && (length b =? length c)%nat
  then Ok (zip_with app (zip_with app a b) c)
  else Raise ValueError.

(** [np.nan_to_num] on [float16] data. *)
Definition nan_to_num1 (v : float) : float :=
  match v with
  | Fin q => Fin q
  | PInf => Fin 65504
  | NInf => Fin (-65504)
  | NaN => Fin 0
  end.

Definition nan_to_num (x : list (list float)) : array2 :=
  (fun row : list float => nan_to_num1 <$> row) <$> x.

(** The body of [for _, segments in patient_generator] of
    [beat_data_generator]. *)
Definition beat_patient (frame_size : Z) (samples_per_tgt : list Z)
    (segments : list segment) : Gen (sample HeartBeat.t) unit :=
  let pt_beat_map := pt_beat_map segments in
  pt_segs_beat_idxs ← pt_segs_beat_idxs_from samples_per_tgt 0 tgt_beat_labels pt_beat_map;
  pt_segs_beat_idxs ← shuffle pt_segs_beat_idxs;
  for_each pt_segs_beat_idxs (fun '(seg_idx, beat_idx, beat) =>
    off ← uniform_offset frame_size;
    seg ← lift (getitem segments seg_idx);
    match beat_frame frame_size seg beat_idx off with
    | None => mret tt
    | Some (frame_start, frame_end, avg_rr) =>
        x ← lift (hstack (slice (data seg) (frame_start - avg_rr) (frame_end - avg_rr))
                         (slice (data seg) frame_start frame_end)
                         (slice (data seg) (frame_start + avg_rr) (frame_end + avg_rr)));
        let x := nan_to_num x in
        let y := beat in
        yield {| src := seg;
                 slices := [(frame_start - avg_rr, frame_end - avg_rr);
                            (frame_start, frame_end);
                            (frame_start + avg_rr, frame_end + avg_rr)];
                 x_of := x; y_of := y |}
    end).

Definition beat_data_generator (frame_size : Z) (spp : samples_per_patient)
    (patient_generator : list (list segment)) : Gen (sample HeartBeat.t) unit :=
  let samples_per_tgt := samples_per_tgt tgt_beat_labels spp in
  for_each patient_generator (beat_patient frame_size samples_per_tgt).

(** *** Heart-rate and signal generators *)

(** [segment["blabels"][:, 0]].  A table without rows was stored from
    [np.array([], dtype=np.int32)], which has one dimension only. *)
Definition column0 (table : list (Z * Z)) : result (list Z) :=
  if (length table =? 0)%nat then Raise TypeError else Ok (fst <$> table).

Definition heart_rate_patient (frame_size : Z) (samples_per_patient : Z)
    (segments : list segment) : Gen (sample Z) unit :=
  let label_frame_size := frame_size in
  let max_frame_size := Z.max frame_size label_frame_size in
  for_each (seq 0 (Z.to_nat samples_per_patient)) (fun _ =>
    segment ← choice segments;
    let segment_size := data_len segment in
    r ← randint 0 (segment_size - max_frame_size);
    let frame_center := r + max_frame_size / 2 in
    let signal_frame_start := frame_center - frame_size / 2 in
    let signal_frame_end := frame_center + frame_size / 2 in
    let x := slice (data segment) signal_frame_start signal_frame_end in
    let label_frame_start := frame_center - label_frame_size / 2 in
    let label_frame_end := frame_center + label_frame_size / 2 in
    beat_indices ← lift (column0 (blabels segment));
    frame_beat_indices ← lift (get_complete_beats beat_indices None
                                  label_frame_start (Some label_frame_end));
    y ← lift (_get_heart_rate_label (NdArray (fst frame_beat_indices))
                                    (Some (Z.to_pos sampling_rate)));
    yield {| src := segment; slices := [(signal_frame_start, signal_frame_end)];
             x_of := x; y_of := y |}).

Definition heart_rate_data_generator (frame_size : Z) (samples_per_patient : Z)
    (patient_generator : list (list segment)) : Gen (sample Z) unit :=
  for_each patient_generator (heart_rate_patient frame_size samples_per_patient).

Definition signal_patient (frame_size : Z) (samples_per_patient : Z)
    (segments : list segment) : Gen (sample unit) unit :=
  for_each (seq 0 (Z.to_nat samples_per_patient)) (fun _ =>
    segment ← choice segments;
    let segment_size := data_len segment in
    frame_start ← randint 0 (segment_size - frame_size);
    let frame_end := frame_start + frame_size in
    let x := slice (data segment) frame_start frame_end in
    yield {| src := segment; slices := [(frame_start, frame_end)];
             x_of := x; y_of := tt |}).

Definition signal_generator (frame_size : Z) (samples_per_patient : Z)
    (patient_generator : list (list segment)) : Gen (sample unit) unit :=
  for_each patient_generator (signal_patient frame_size samples_per_patient).

(** ** Well-formed segments and windows *)

(** The beat markers of a segment ascend, and its rhythm markers are
    positions of its signal. *)
Definition wf_segment (seg : segment) : bool :=
  ascending (blabels seg).*1
  && forallb (fun r => (0 <=? r.1) && (r.1 <=? data_len seg)) (rlabels seg).



(** ** Predicates and examples of the statements *)




(** [beat_idx] is the sample index of a marker of [seg] kept for the class
    [beat]. *)
Definition beat_target (seg : segment) (beat : IcentiaBeat.t) (beat_idx : Z) : Prop :=
  exists i c, i ∈ tgt_beat_positions (blabels seg) beat
              /\ blabels seg !! i = Some (beat_idx, c).

Definition target_row_ok (segments : list segment) (beat : IcentiaBeat.t)
    (row : nat * Z) : Prop :=
  exists seg, segments !! row.1 = Some seg /\ beat_target seg beat row.2.

(** A selected target: a kept marker of the segment it names, under the label
    of its class. *)
Definition selected_ok (segments : list segment) (t : nat * Z * HeartBeat.t) : Prop :=
  exists seg beat, segments !! t.1.1 = Some seg
                   /\ HeartBeatMap beat = Some t.2
                   /\ beat_target seg beat t.1.2.


(** A short segment under normal rhythm, without beat markers. *)
Definition short_segment : segment :=
  {| data := replicate 20 [Fin 0]; blabels := []; rlabels := [(0, 1); (20, 1)] |}.


(** The array [x_of s] is three windows of the signal side by side: row [i]
    is sample [frame_start - avg_rr + i], then sample [frame_start + i], then
    sample [frame_start + avg_rr + i], cleaned by [nan_to_num], where
    [avg_rr] is the shift the source computes for the frame at
    [frame_start], [int(np.mean(blabel_diffs[:, 0]))]. *)
Definition three_windows (frame_size : Z) (s : sample HeartBeat.t) : Prop :=
  exists frame_start avg_rr blabel_diffs,
    rr_diffs (src s) frame_start (frame_start + frame_size) = Some blabel_diffs
    /\ avg_rr = int_mean blabel_diffs
    /\ 0 <= avg_rr <= frame_start
    /\ frame_start + frame_size + avg_rr < data_len (src s)
    /\ forall i : nat, Z.of_nat i < frame_size ->
         exists earlier centered later,
           data (src s) !! Z.to_nat (frame_start - avg_rr + Z.of_nat i) = Some earlier
           /\ data (src s) !! Z.to_nat (frame_start + Z.of_nat i) = Some centered
           /\ data (src s) !! Z.to_nat (frame_start + avg_rr + Z.of_nat i) = Some later
           /\ x_of s !! i = Some (nan_to_num1 <$> (earlier ++ centered ++ later)).

(** The shape and the content of what the beat generator yields, for a
    signal with [channels] columns. *)
Definition side_by_side (frame_size : Z) (channels : nat) (s : sample HeartBeat.t) : Prop :=
  ascending (blabels (src s)).*1 = true ->
  Forall (fun row => length row = channels) (data (src s)) ->
  0 <= frame_size ->
  Z.of_nat (length (x_of s)) = frame_size
  /\ Forall (fun row => length row = (3 * channels)%nat) (x_of s)
  /\ three_windows frame_size s.

(** A segment of 45 normal beats, 200 samples apart but for one pause of 800
    samples after the 22nd, with a signal of one channel. *)
Definition example_segment : segment :=
  {| data := replicate (Z.to_nat 10000) [Fin 0];
     blabels := (fun i : nat =>
                   (if (i <? 22)%nat then 200 * Z.of_nat i else 200 * Z.of_nat i + 600,
                    IcentiaBeat.value IcentiaBeat.normal)) <$> seq 0 45;
     rlabels := [(0, 1); (9400, 1)] |}.

(** The run of the beat generator on this segment, one sample per class,
    with every random word 0. *)
Definition example_beat_run : list (sample HeartBeat.t) :=
  yields (beat_data_generator 10 (PerClass [1; 1; 1]) [[example_segment]]) [].

(** The value yielded on that run. *)
Definition example_beat_sample : sample HeartBeat.t :=
  {| src := example_segment;
     slices := [(3979, 3989); (4196, 4206); (4413, 4423)];
     x_of := replicate 10 [Fin 0; Fin 0; Fin 0];
     y_of := HeartBeat.normal |}.

(** The summed duration of one rhythm code, [durations[labels == v].sum()]. *)
Definition duration_of (durations labels : list Z) (r : IcentiaRhythm.t) : Z :=
  sumZ (fst <$> List.filter (fun p => snd p =? IcentiaRhythm.value r)
                            (combine durations labels)).

(** ** Runs that end well, and runs that raise

    [returns_silently Q g]: on every run [g] yields nothing and returns a
    value with [Q].  [raises_silently e g]: on every run [g] raises [e]
    before it yields anything.  [runs_with n g]: on every run [g] yields [n]
    values and returns. *)
Definition returns_silently {Y A} (Q : A -> Prop) (g : Gen Y A) : Prop :=
  forall o, exists a o', g o = ([], Ok (a, o')) /\ Q a.

Definition raises_silently {Y A} (e : exn) (g : Gen Y A) : Prop :=
  forall o, g o = ([], Raise e).


(** ** Rhythm intervals *)

(** The rhythm table of a segment without its noise rows, as the rhythm
    generator and the statistics read it. *)
Definition non_noise (seg : segment) : list (Z * Z) :=
  List.filter (fun r => negb (snd r =? IcentiaRhythm.value IcentiaRhythm.noise))
              (rlabels seg).

(** [(s, e)] is an interval of class [tgt] of at least [frame_size] samples:
    rows [2k] and [2k + 1] of the table without noise are at [s] and [e], and
    row [2k] carries the code of [tgt]. *)
Definition class_interval (frame_size : Z) (seg : segment) (tgt : IcentiaRhythm.t)
    (s e : Z) : Prop :=
  exists k c,
    non_noise seg !! (2 * k)%nat = Some (s, IcentiaRhythm.value tgt)
    /\ non_noise seg !! (2 * k + 1)%nat = Some (e, c)
    /\ frame_size <= e - s.

Definition class_row_ok (frame_size : Z) (segments : list segment)
    (tgt : IcentiaRhythm.t) (row : nat * Z * Z) : Prop :=
  tgt ∈ tgt_labels
  /\ exists seg, segments !! row.1.1 = Some seg
                 /\ class_interval frame_size seg tgt row.1.2 row.2.

(** A window of [frame_size] samples inside an interval of a target class,
    under the label of that class. *)
Definition window_in_class_interval (frame_size : Z) (seg : segment)
    (sl : list (Z * Z)) (label : HeartRhythm.t) : Prop :=
  exists tgt a b e,
    tgt ∈ tgt_labels
    /\ HeartRhythmMap tgt = Some label
    /\ sl = [(a, a + frame_size)]
    /\ class_interval frame_size seg tgt b e
    /\ b <= a /\ a + frame_size <= e.

Definition class_frame_ok (frame_size : Z) (segments : list segment)
    (f : nat * Z * Z * HeartRhythm.t) : Prop :=
  exists seg, segments !! f.1.1.1 = Some seg
              /\ window_in_class_interval frame_size seg [(f.1.1.2, f.1.2)] f.2.

Definition rhythm_sample_ok (frame_size : Z) (segments : list segment)
    (s : sample HeartRhythm.t) : Prop :=
  src s ∈ segments
  /\ window_in_class_interval frame_size (src s) (slices s) (y_of s).

(** [_pt_has_rhythm_arrhythmia], on the segments of the patient's file. *)
Fixpoint _pt_has_rhythm_arrhythmia (segments : list segment) : bool :=
  match segments with
  | [] => false
  | segment :: rest =>
      if (length (rlabels segment) =? 0)%nat then _pt_has_rhythm_arrhythmia rest
      else
        let rlabels := (rlabels segment).*2 in
        let hits :=
          List.filter (fun l => (l =? IcentiaRhythm.value IcentiaRhythm.afib)
                                || (l =? IcentiaRhythm.value IcentiaRhythm.aflut))
                      rlabels in
        if negb (length hits =? 0)%nat then true
        else _pt_has_rhythm_arrhythmia rest
  end.


(** ** Targets of the beat generator *)

(** [beat_idx] is the sample index of a marker kept for the target class
    [beat], in a segment that passed the threshold on its normal beats. *)
Definition kept_target (seg : segment) (beat : IcentiaBeat.t) (beat_idx : Z) : Prop :=
  beat ∈ tgt_beat_labels
  /\ too_few_normal (blabels seg) = false
  /\ beat_target seg beat beat_idx.

(** The values [int(random.uniform(0.4, 0.6) * frame_size)] can take. *)
Definition offset_of (frame_size off : Z) : Prop :=
  Z.min (Z.quot (4 * frame_size) 10) (Z.quot (6 * frame_size) 10) <= off
  /\ off <= Z.max (Z.quot (4 * frame_size) 10) (Z.quot (6 * frame_size) 10).

(** The middle window of [s] is the frame of [beat_idx] for some offset the
    generator can draw. *)
Definition centered_on (frame_size : Z) (s : sample HeartBeat.t) (beat_idx : Z) : Prop :=
  exists off,
    offset_of frame_size off
    /\ slices s !! 1%nat = Some (Z.max 0 (beat_idx - off),
                                 Z.max 0 (beat_idx - off) + frame_size).

(** What the beat generator yields for a patient: a frame of a kept target
    of one of the patient's segments, under the label of the target's
    class. *)
Definition beat_sample_ok (frame_size : Z) (segments : list segment)
    (s : sample HeartBeat.t) : Prop :=
  src s ∈ segments
  /\ exists beat beat_idx,
       HeartBeatMap beat = Some (y_of s)
       /\ kept_target (src s) beat beat_idx
       /\ centered_on frame_size s beat_idx.

(** Row [i] of a beat table and the rows next to it on either side are
    coded normal. *)
Definition normal_neighbors (blabels : list (Z * Z)) (i : nat) : Prop :=
  (0 < i)%nat
  /\ exists l b r,
       blabels !! (i - 1)%nat = Some (l, IcentiaBeat.value IcentiaBeat.normal)
       /\ blabels !! i = Some (b, IcentiaBeat.value IcentiaBeat.normal)
       /\ blabels !! (i + 1)%nat = Some (r, IcentiaBeat.value IcentiaBeat.normal).

(** No run of [g] yields more than [n] values. *)
Definition yields_at_most {Y A} (n : nat) (g : Gen Y A) : Prop :=
  forall o, (length (yields g o) <= n)%nat.

(** ** [HeartRate.from_bpm] (defines.py) *)

(** [x > c] for a finite constant [c]. *)
Definition float_gtb (x : float) (c : Q) : bool :=
  match x with
  | Fin q => Qltb c q
  | PInf => true
  | NInf | NaN => false
  end.

Definition from_bpm (bpm : float) : HeartRate.t :=
  if float_ltb bpm 60 then HeartRate.bradycardia
  else if float_gtb bpm 100 then HeartRate.tachycardia
  else HeartRate.normal.

(** ** Dataset helpers (datasets/utils.py) *)

(** [numpy_dataset_generator(x, y)], for arrays given as the lists of their
    entries along the first axis. *)
Definition numpy_dataset_generator {A B} (x : list A) (y : list B) : Gen (A * B) unit :=
  for_each (seq 0 (length x)) (fun i =>
    xi ← lift (getitem x i);
    yi ← lift (getitem y i);
    yield (xi, yi)).

(** [buffered_generator(generator, buffer_size)], for a generator object
    that yields the elements of [generator] and stops.  The first loop fills
    the buffer and leaves the generator where it is; the second loop reads on
    from there.  The value is the list of the buffers yielded. *)
Fixpoint fill_buffer {A} (buffer generator : list A) (buffer_size : Z) : list A * list A :=
  match generator with
  | [] => (buffer, [])
  | e :: generator' =>
      let buffer := buffer ++ [e] in
      if Z.of_nat (length buffer) =? buffer_size then (buffer, generator')
      else fill_buffer buffer generator' buffer_size
  end.

Fixpoint slide_buffer {A} (buffer generator : list A) : list (list A) :=
  match generator with
  | [] => []
  | e :: generator' =>
      let buffer := drop 1 buffer ++ [e] in
      buffer :: slide_buffer buffer generator'
  end.

Definition buffered_generator {A} (generator : list A) (buffer_size : Z) : list (list A) :=
  let '(buffer, generator) := fill_buffer [] generator buffer_size in
  buffer :: slide_buffer buffer generator.

(** ** Rhythm statistics *)

(** One row of the statistics: the dictionary
    [dict(pt=.., rc=.., rhythm=.., start=.., stop=.., dur=..)].  The segment
    key [rc] is given by the position of the segment. *)
Module RhythmStat.
Record t := { pt : Z; rc : nat; rhythm : Z; start : Z; stop : Z; dur : Z }.
End RhythmStat.

(** [for i, l in enumerate(rlabels[::2, 1])], from position [i] on. *)
Fixpoint seg_rhythm_stats (pt : Z) (seg_key : nat) (rlabels : list (Z * Z))
    (i : nat) (ls : list Z) : result (list RhythmStat.t) :=
  match ls with
  | [] => Ok []
  | l :: ls' =>
      here ← (if existsb (fun r => l =? IcentiaRhythm.value r)
                         [IcentiaRhythm.normal; IcentiaRhythm.afib; IcentiaRhythm.aflut]
              then
                first ← getitem rlabels (i * 2 + 0)%nat;
                second ← getitem rlabels (i * 2 + 1)%nat;
                let rhy_start := fst first in
                let rhy_stop := fst second in
                mret [ {| RhythmStat.pt := pt; RhythmStat.rc := seg_key;
                          RhythmStat.rhythm := l;
                          RhythmStat.start := rhy_start; RhythmStat.stop := rhy_stop;
                          RhythmStat.dur := rhy_stop - rhy_start |} ]
              else mret []);
      rest ← seg_rhythm_stats pt seg_key rlabels (S i) ls';
      mret (here ++ rest)
  end.

(** [for seg_key, segment in segments.items()]. *)
Fixpoint pt_rhythm_stats_from (pt : Z) (seg_key : nat) (segments : list segment)
    : result (list RhythmStat.t) :=
  match segments with
  | [] => Ok []
  | segment :: segments' =>
      here ← (if (length (rlabels segment) =? 0)%nat then Ok []
              else
                let rlabels := non_noise segment in
                seg_rhythm_stats pt seg_key rlabels 0 (evens rlabels.*2));
      rest ← pt_rhythm_stats_from pt (S seg_key) segments';
      mret (here ++ rest)
  end.

(** [get_rhythm_statistics], on the patients in the order the patient
    generator gives them; the value is the list of the rows of the data
    frame. *)
Fixpoint get_rhythm_statistics (pt_gen : list (Z * list segment))
    : result (list RhythmStat.t) :=
  match pt_gen with
  | [] => Ok []
  | (pt, segments) :: pt_gen' =>
      here ← pt_rhythm_stats_from pt 0 segments;
      rest ← get_rhythm_statistics pt_gen';
      mret (here ++ rest)
  end.

(** [(s, e)] is an interval of class [tgt]: rows [2k] and [2k + 1] of the
    rhythm table without noise are at [s] and [e], and row [2k] carries the
    code of [tgt]. *)
Definition rhythm_interval (seg : segment) (tgt : IcentiaRhythm.t) (s e : Z) : Prop :=
  exists k c,
    non_noise seg !! (2 * k)%nat = Some (s, IcentiaRhythm.value tgt)
    /\ non_noise seg !! (2 * k + 1)%nat = Some (e, c).

(** The row of the statistics for an interval [(s, e)] of class [tgt]. *)
Definition stat_row (pt : Z) (seg_key : nat) (tgt : IcentiaRhythm.t) (s e : Z)
    : RhythmStat.t :=
  {| RhythmStat.pt := pt; RhythmStat.rc := seg_key;
     RhythmStat.rhythm := IcentiaRhythm.value tgt;
     RhythmStat.start := s; RhythmStat.stop := e; RhythmStat.dur := e - s |}.

(** ** Patient generators *)

(** One pass of [while True] in [uniform_patient_generator]: the array of
    patient ids is shuffled in place and every patient is yielded with the
    data of the patient's file.  [db] gives the segments stored for a
    patient id; every file is taken to be present.  The pass returns the
    array as it leaves it. *)
Definition patient_pass (db : Z -> list segment) (shuffle_ids : bool)
    (patient_ids : list Z) : Gen (Z * list segment) (list Z) :=
  patient_ids ← (if shuffle_ids then shuffle patient_ids else mret patient_ids);
  _ ← for_each patient_ids (fun patient_id => yield (patient_id, db patient_id));
  mret patient_ids.

Fixpoint patient_passes (db : Z -> list segment) (shuffle_ids : bool) (passes : nat)
    (patient_ids : list Z) : Gen (Z * list segment) unit :=
  match passes with
  | O => mret tt
  | S passes' =>
      patient_ids ← patient_pass db shuffle_ids patient_ids;
      patient_passes db shuffle_ids passes' patient_ids
  end.

(** [uniform_patient_generator(patient_ids, repeat, shuffle)].  Without
    [repeat] the loop is left after one pass; with [repeat] it never ends,
    and [passes] is the number of passes that are run. *)
Definition uniform_patient_generator (db : Z -> list segment) (patient_ids : list Z)
    (repeat shuffle_ids : bool) (passes : nat) : Gen (Z * list segment) unit :=
  patient_passes db shuffle_ids (if repeat then passes else 1%nat) patient_ids.

(** ** Conversion of a wfdb record *)

(** One annotation of the record read by [wfdb.rdann]: [atr.sample[i]],
    [atr.symbol[i]] and [atr.aux_note[i]]. *)
Record annotation := {
  ann_sample : Z;
  ann_symbol : string;
  ann_aux_note : string;
}.

(** These map Wfdb labels to icentia labels. *)
Definition WfdbRhythmMap (key : string) : option Z :=
  if String.eqb key "" then Some 0
  else if String.eqb key "(N" then Some 1
  else if String.eqb key "(AFIB" then Some 2
  else if String.eqb key "(AFL" then Some 3
  else if String.eqb key ")" then Some 4
  else None.

Definition WfdbBeatMap (key : string) : option Z :=
  if String.eqb key "Q" then Some 0
  else if String.eqb key "N" then Some 1
  else if String.eqb key "S" then Some 2
  else if String.eqb key "a" then Some 3
  else if String.eqb key "V" then Some 4
  else None.

(** [[[atr.sample[i], WfdbBeatMap.get(s)] for i, s in enumerate(atr.symbol)
    if s in WfdbBeatMap]]: the annotations whose symbol is a key, each with
    the value of its key. *)
Definition wfdb_blabels (atr : list annotation) : list (Z * Z) :=
  omap (fun a => code ← WfdbBeatMap (ann_symbol a); Some (ann_sample a, code)) atr.

(** [[[atr.sample[i], WfdbRhythmMap.get(atr.aux_note[i], 0)]
    for i, s in enumerate(atr.symbol) if s == "+"]]. *)
Definition wfdb_rlabels (atr : list annotation) : list (Z * Z) :=
  (fun a => (ann_sample a, default 0 (WfdbRhythmMap (ann_aux_note a))))
    <$> List.filter (fun a => String.eqb (ann_symbol a) "+") atr.

(** The segment [_convert_dataset_pt_zip_to_hdf5] stores for a record with
    the signal [p_signal] and the annotations [atr]. *)
Definition converted_segment (p_signal : array2) (atr : list annotation) : segment :=
  {| data := p_signal; blabels := wfdb_blabels atr; rlabels := wfdb_rlabels atr |}.

(** A float that is a number, not [nan] or an infinity. *)
Definition finite (x : float) : Prop := exists q, x = Fin q.

(** * Properties *)

(** ** Helper lemmas *)

Lemma bind_Ok {A B} (a : A) (k : A -> result B) : (Ok a ≫= k) = k a.
Proof. reflexivity. Qed.

Lemma getitem_Some {A} (a : list A) i x : a !! i = Some x -> getitem a i = Ok x.
Proof. unfold getitem. intros ->. reflexivity. Qed.

Lemma fold_max_ge v labels : In v labels -> v <= fold_right Z.max (-1) labels.
Proof.
  induction labels as [|w labels IH]; simpl; [tauto|].
  intros [->|H]; [lia|]. specialize (IH H). lia.
Qed.

Lemma count_of_pos_In v labels : 0 < count_of v labels -> In v labels.
Proof.
  unfold count_of. intros H.
  destruct (List.filter (Z.eqb v) labels) as [|w l] eqn:E; [simpl in H; lia|].
  assert (Hw : In w (List.filter (Z.eqb v) labels)) by (rewrite E; left; reflexivity).
  apply filter_In in Hw as [Hin Heq]. apply Z.eqb_eq in Heq. subst. exact Hin.
Qed.

Lemma no_negative labels :
  Forall (fun v => 0 <= v) labels -> existsb (fun v => v <? 0) labels = false.
Proof.
  induction 1 as [|v labels Hv _ IH]; simpl; [reflexivity|].
  rewrite IH. destruct (Z.ltb_spec v 0); [lia|reflexivity].
Qed.

Lemma bincount_lookup labels m counts v :
  bincount labels m = Ok counts ->
  (v < length counts)%nat -> counts !! v = Some (count_of (Z.of_nat v) labels).
Proof.
  unfold bincount. destruct (existsb _ labels); [discriminate|].
  intros [= <-]. rewrite length_fmap, length_seq. intros Hv.
  rewrite list_lookup_fmap, lookup_seq_lt by exact Hv. reflexivity.
Qed.

Lemma bincount_length labels m counts :
  bincount labels m = Ok counts ->
  length counts = Nat.max m (Z.to_nat (fold_right Z.max (-1) labels + 1)).
Proof.
  unfold bincount. destruct (existsb _ labels); [discriminate|].
  intros [= <-]. rewrite length_fmap, length_seq. reflexivity.
Qed.

(** ** Beat label *)

(** C10.  Whenever the labels hold as many [pac] as [pvc] codes, and at least
    one of each, [_get_beat_label] returns the label [pac] is mapped to:
    [np.argmax] breaks the tie towards the first entry of [hi_priority]. *)
Theorem beat_label_tie_is_pac (labels : list Z) :
  Forall (fun v => 0 <= v) labels ->
  count_of (IcentiaBeat.value IcentiaBeat.pac) labels
    = count_of (IcentiaBeat.value IcentiaBeat.pvc) labels ->
  1 <= count_of (IcentiaBeat.value IcentiaBeat.pac) labels ->
  _get_beat_label labels = Ok HeartBeat.pac
  /\ HeartBeatMap IcentiaBeat.pac = Some HeartBeat.pac.
Proof.
  intros Hnn Htie Hpos. split; [|reflexivity].
  simpl in Htie, Hpos.
  assert (H4 : In 4 labels) by (apply count_of_pos_In; lia).
  apply fold_max_ge in H4.
  destruct (bincount labels (length IcentiaBeat.members)) as [counts|e] eqn:Hb.
  2:{ unfold bincount in Hb. rewrite no_negative in Hb by exact Hnn. discriminate. }
  pose proof (bincount_length _ _ _ Hb) as Hlen.
  assert (H2 : counts !! 2%nat = Some (count_of 2 labels)).
  { apply (bincount_lookup _ _ _ 2%nat Hb). lia. }
  assert (H4' : counts !! 4%nat = Some (count_of 4 labels)).
  { apply (bincount_lookup _ _ _ 4%nat Hb). lia. }
  unfold _get_beat_label. rewrite Hb, bind_Ok. simpl.
  change (Z.to_nat 2) with 2%nat. change (Z.to_nat 4) with 4%nat.
  rewrite (getitem_Some _ _ _ H2), (getitem_Some _ _ _ H4'). simpl.
  rewrite <- Htie, Z.ltb_irrefl. simpl.
  destruct (Z.ltb_spec 0 (count_of 2 labels)); [reflexivity|lia].
Qed.

Lemma beat_label_tie_is_pac_witness :
  _get_beat_label [1; 4; 2; 1] = Ok HeartBeat.pac
  /\ HeartBeatMap IcentiaBeat.pac = Some HeartBeat.pac.
Proof.
  apply (beat_label_tie_is_pac [1; 4; 2; 1]).
  - repeat constructor; lia.
  - reflexivity.
  - vm_compute. discriminate.
Defined.

Lemma fold_max_lt labels m :
  -1 < m -> Forall (fun v => v < m) labels -> fold_right Z.max (-1) labels < m.
Proof. intros Hm. induction 1 as [|v labels Hv _ IH]; simpl; lia. Qed.

(** X4.  Without a label of value 4 or more the counts have four entries
    and [beat_counts[[pac, pvc]]] raises, whatever the labels are. *)
Lemma beat_label_needs_pvc labels :
  Forall (fun v => 0 <= v) labels -> Forall (fun v => v < 4) labels ->
  _get_beat_label labels = Raise IndexError.
Proof.
  intros Hnn Hlt. apply (fold_max_lt labels 4) in Hlt; [|lia].
  destruct (bincount labels (length IcentiaBeat.members)) as [counts|e] eqn:Hb.
  2:{ unfold bincount in Hb. rewrite no_negative in Hb by exact Hnn. discriminate. }
  pose proof (bincount_length _ _ _ Hb) as Hlen. simpl length in Hlen.
  assert (Hlen4 : length counts = 4%nat) by lia.
  unfold _get_beat_label. rewrite Hb, bind_Ok.
  destruct counts as [|c0 [|c1 [|c2 [|c3 [|c4 counts]]]]]; try discriminate.
  reflexivity.
Qed.

(** C6.  With a normal majority and one [pac] beat the counts have four
    entries, and [beat_counts[[pac, pvc]]] asks for entry 4. *)
Theorem beat_label_without_pvc :
  _get_beat_label (repeat 1 100 ++ [2]) = Raise IndexError
  /\ _get_beat_label [] = Raise IndexError.
Proof. split; vm_compute; reflexivity. Qed.

(** ** Rhythm label *)

Example rhythm_label_afib :
  _get_rhythm_label [0; 0; 50; 0; 0; 0] [0; 1; 2; 3; 4; 5] = Ok HeartRhythm.afib.
Proof. vm_compute. reflexivity. Qed.

Example rhythm_label_all_zero :
  _get_rhythm_label [0; 0; 0; 0; 0; 0] [0; 1; 2; 3; 4; 5] = Ok HeartRhythm.noise.
Proof. vm_compute. reflexivity. Qed.

Lemma summed_durations_members durations labels :
  length durations = length labels ->
  summed_durations_of durations labels IcentiaRhythm.members
  = Ok (duration_of durations labels <$> IcentiaRhythm.members).
Proof.
  intros Hlen. unfold IcentiaRhythm.members. simpl.
  unfold masked_sum. rewrite Hlen, Nat.eqb_refl. reflexivity.
Qed.

(** X2.  The decision of [_get_rhythm_label] on the summed durations: a positive
    atrial sum gives the label of afib (aflut is mapped to it too); else no
    positive sum gives noise; else the first largest of noise, normal, end,
    unknown decides, and [HeartRhythmMap] has a label for noise and normal
    only. *)
Lemma rhythm_label_cases durations labels :
  length durations = length labels ->
  let s := duration_of durations labels in
  _get_rhythm_label durations labels =
    if 0 <? Z.max (s IcentiaRhythm.afib) (s IcentiaRhythm.aflut)
    then Ok HeartRhythm.afib
    else if Z.max (Z.max (s IcentiaRhythm.noise) (s IcentiaRhythm.normal))
                  (Z.max (s IcentiaRhythm.end_) (s IcentiaRhythm.unknown)) <=? 0
    then Ok HeartRhythm.noise
    else if (s IcentiaRhythm.normal <=? s IcentiaRhythm.noise)
            && (s IcentiaRhythm.end_ <=? s IcentiaRhythm.noise)
            && (s IcentiaRhythm.unknown <=? s IcentiaRhythm.noise)
    then Ok HeartRhythm.noise
    else if (s IcentiaRhythm.end_ <=? s IcentiaRhythm.normal)
            && (s IcentiaRhythm.unknown <=? s IcentiaRhythm.normal)
    then Ok HeartRhythm.normal
    else Raise KeyError.
Proof.
  intros Hlen s. unfold _get_rhythm_label.
  rewrite (summed_durations_members _ _ Hlen), bind_Ok. fold s.
  unfold IcentiaRhythm.members. simpl.
  generalize (s IcentiaRhythm.noise) (s IcentiaRhythm.normal) (s IcentiaRhythm.afib)
             (s IcentiaRhythm.aflut) (s IcentiaRhythm.end_) (s IcentiaRhythm.unknown).
  intros n m a f e u.
  repeat match goal with
         | |- context [Z.ltb ?x ?y] => destruct (Z.ltb_spec x y); simpl
         | |- context [Z.leb ?x ?y] => destruct (Z.leb_spec x y); simpl
         end; try reflexivity; lia.
Qed.

(** C5.  When [end] (or [unknown]) has the largest positive duration among
    the low-priority codes, [HeartRhythmMap] has no entry for it. *)
Theorem rhythm_label_end_unmapped :
  _get_rhythm_label [50] [IcentiaRhythm.value IcentiaRhythm.end_] = Raise KeyError
  /\ _get_rhythm_label [50] [IcentiaRhythm.value IcentiaRhythm.unknown] = Raise KeyError.
Proof. split; vm_compute; reflexivity. Qed.

(** ** Heart-rate label *)

Example heart_rate_label_60_bpm :
  _get_heart_rate_label (PyList [0; 250; 500]) (Some 250%positive)
  = Ok (HeartRate.value HeartRate.normal).
Proof. vm_compute. reflexivity. Qed.

Example heart_rate_label_40_bpm :
  _get_heart_rate_label (PyList [0; 375]) (Some 250%positive)
  = Ok (HeartRate.value HeartRate.bradycardia).
Proof. vm_compute. reflexivity. Qed.

(** At a bucket boundary the rounding decides.  Four intervals of 600
    samples in all at 250 Hz are 100 BPM exactly; the quotients 0.568, 0.576,
    0.568 and 0.688 are not float64 numbers, their sum is rounded below 2.4,
    and the BPM is 100.00000000000003. *)
Example heart_rate_label_100_bpm_rounded :
  _get_heart_rate_label (PyList [0; 142; 286; 428; 600]) (Some 250%positive)
  = Ok (HeartRate.value HeartRate.tachycardia).
Proof. vm_compute. reflexivity. Qed.

(** Five intervals of 1250 samples in all are 60 BPM exactly, and
    59.999999999999986 in float64. *)
Example heart_rate_label_60_bpm_rounded :
  _get_heart_rate_label (PyList [0; 259; 514; 763; 1019; 1250]) (Some 250%positive)
  = Ok (HeartRate.value HeartRate.bradycardia).
Proof. vm_compute. reflexivity. Qed.

Example heart_rate_label_empty fs :
  _get_heart_rate_label (PyList []) fs = Ok (HeartRate.value HeartRate.noise).
Proof. reflexivity. Qed.

Lemma sumZ_diff x a : sumZ (diff (x :: a)) = default x (last a) - x.
Proof.
  revert x. induction a as [|y a IH]; intros x; [simpl; lia|].
  change (sumZ (diff (x :: y :: a))) with ((y - x) + sumZ (diff (y :: a))).
  rewrite IH, last_cons. destruct (last a); simpl; lia.
Qed.

(** C4.  A single beat index passes the emptiness test; the mean of no
    interval is [nan], both comparisons fail and the label is tachycardia. *)
Theorem heart_rate_label_single_beat :
  _get_heart_rate_label (PyList [100]) (Some 250%positive)
  = Ok (HeartRate.value HeartRate.tachycardia).
Proof. vm_compute. reflexivity. Qed.

(** ** Per-class sample counts *)

(** C2.  For [samples_per_patient = 1] the allocation is the one-entry list
    [[3]], not three entries of 1. *)
Theorem samples_per_tgt_of_one :
  samples_per_tgt tgt_labels (Total 1) = [3]
  /\ samples_per_tgt tgt_beat_labels (Total 1) = [3].
Proof. split; reflexivity. Qed.

(** For an integer argument the list has [num_per_tgt] entries, each the
    number of classes. *)
Lemma samples_per_tgt_total {A} (classes : list A) n :
  samples_per_tgt classes (Total n)
  = repeat (Z.of_nat (length classes))
           (Z.to_nat (Z.max 1 (n / Z.of_nat (length classes)))).
Proof. reflexivity. Qed.

(** ** Complete beats *)

Lemma ascending_cons x a :
  ascending (x :: a) = true -> ascending a = true /\ Forall (fun y => x <= y) a.
Proof.
  revert x. induction a as [|y a IH]; intros x H; [split; [reflexivity|constructor]|].
  change (((x <=? y) && ascending (y :: a)) = true) in H.
  apply andb_true_iff in H as [Hxy Ha]. apply Z.leb_le in Hxy.
  split; [exact Ha|]. constructor; [exact Hxy|].
  destruct (IH y Ha) as [_ Hall].
  eapply Forall_impl; [exact Hall|]. simpl. intros; lia.
Qed.

Section Window.
Context {B : Type}.
Variables start end_ : Z.
Implicit Types p : list (Z * B).

Lemma window_none p :
  Forall (fun r => end_ < r.1) p ->
  List.filter (fun r : Z * B => in_window start end_ r.1) p = [].
Proof.
  induction 1 as [|r p Hr _ IH]; [reflexivity|]. simpl. rewrite IH.
  unfold in_window. destruct (Z.leb_spec r.1 end_); [lia|].
  rewrite andb_false_r. reflexivity.
Qed.

Lemma window_prefix p :
  ascending p.*1 = true -> Forall (fun r => start <= r.1) p ->
  List.filter (fun r : Z * B => in_window start end_ r.1) p
  = take (searchsorted_right p.*1 end_) p.
Proof.
  induction p as [|r p IH]; [reflexivity|].
  rewrite fmap_cons. intros Hasc Hall.
  apply ascending_cons in Hasc as [Hasc Hge]. inversion_clear Hall as [|? ? Hr Hall'].
  simpl. unfold in_window.
  destruct (Z.leb_spec start r.1); [|lia].
  destruct (Z.leb_spec r.1 end_); simpl.
  - f_equal. apply IH; assumption.
  - apply window_none. rewrite Forall_fmap in Hge.
    eapply Forall_impl; [exact Hge|]. simpl. intros; lia.
Qed.

Lemma window_slice p :
  ascending p.*1 = true -> start < end_ ->
  List.filter (fun r : Z * B => in_window start end_ r.1) p
  = take (searchsorted_right p.*1 end_ - searchsorted_left p.*1 start)
         (drop (searchsorted_left p.*1 start) p).
Proof.
  intros Hasc Hlt. induction p as [|r p IH]; [reflexivity|].
  rewrite fmap_cons in Hasc |- *.
  pose proof (ascending_cons _ _ Hasc) as [Hasc' Hge].
  simpl searchsorted_left. destruct (Z.ltb_spec r.1 start) as [Hr|Hr].
  - simpl searchsorted_right. destruct (Z.leb_spec r.1 end_); [|lia].
    simpl. unfold in_window.
    destruct (Z.leb_spec start r.1); [lia|]. simpl. apply IH, Hasc'.
  - rewrite Nat.sub_0_r. change (drop 0 (r :: p)) with (r :: p).
    rewrite <- fmap_cons. apply window_prefix; [exact Hasc|].
    constructor; [lia|]. rewrite Forall_fmap in Hge.
    eapply Forall_impl; [exact Hge|]. simpl. intros; lia.
Qed.
End Window.

Lemma searchsorted_left_le a v : (searchsorted_left a v <= length a)%nat.
Proof. induction a as [|x a IH]; simpl; [lia|]. destruct (x <? v); simpl; lia. Qed.

Lemma searchsorted_right_le a v : (searchsorted_right a v <= length a)%nat.
Proof. induction a as [|x a IH]; simpl; [lia|]. destruct (x <=? v); simpl; lia. Qed.

Lemma tail_take_drop {A} (l : list A) n k :
  tail (take n (drop k l)) = take (n - 1) (drop (S k) l).
Proof.
  revert l. induction k as [|k IH]; intros l.
  - destruct l, n; simpl; rewrite ?Nat.sub_0_r, ?take_nil; reflexivity.
  - destruct l; [|apply IH]. simpl. rewrite !take_nil. reflexivity.
Qed.

(** A slice between two positions of the array. *)
Lemma slice_positions {A} (l : list A) (i j : nat) :
  (j <= length l)%nat ->
  slice l (Z.of_nat i + 1) (Z.of_nat j) = take (j - i - 1) (drop (S i) l).
Proof.
  intros Hj. unfold slice, slice_bound.
  destruct (Z.ltb_spec (Z.of_nat i + 1) 0); [lia|].
  destruct (Z.ltb_spec (Z.of_nat j) 0); [lia|].
  rewrite Nat2Z.id. replace (Z.to_nat (Z.of_nat i + 1)) with (S i) by lia.
  rewrite (Nat.min_l j) by exact Hj.
  destruct (Nat.le_gt_cases (S i) (length l)) as [Hi|Hi].
  - rewrite Nat.min_l by exact Hi. f_equal. lia.
  - rewrite Nat.min_r by lia.
    rewrite !drop_ge by lia. rewrite !take_nil. reflexivity.
Qed.

Lemma filter_fst {B} (P : Z -> bool) (p : list (Z * B)) :
  (List.filter (fun r => P r.1) p).*1 = List.filter P p.*1.
Proof.
  induction p as [|r p IH]; [reflexivity|].
  rewrite fmap_cons. cbn [List.filter].
  destruct (P r.1); [rewrite fmap_cons|]; rewrite IH; reflexivity.
Qed.

Lemma ascending_window_slice indices start end_ :
  ascending indices = true -> start < end_ ->
  slice indices (Z.of_nat (searchsorted_left indices start) + 1)
                (Z.of_nat (searchsorted_right indices end_))
  = tail (List.filter (in_window start end_) indices).
Proof.
  intros Hasc Hlt.
  rewrite slice_positions by apply searchsorted_right_le.
  set (p := (fun x : Z => (x, tt)) <$> indices).
  assert (Hp : p.*1 = indices).
  { unfold p. rewrite <- list_fmap_compose. apply list_fmap_id. }
  clearbody p. subst indices.
  rewrite <- (filter_fst (in_window start end_)).
  rewrite (window_slice start end_ p Hasc Hlt).
  rewrite <- fmap_tail, tail_take_drop, fmap_take, fmap_drop.
  reflexivity.
Qed.

(** C3, as the code has it.  A window with [start >= end] raises.  Otherwise,
    for ascending indices, the beats returned are those of the closed window
    [start <= index <= end] without the first of them: an index marks the end
    of a heartbeat, and the first one in the window ends a beat that began
    before it.  A beat at [end] is returned.  The labels returned are those
    of the same rows. *)
Theorem complete_beats_closed_window indices labels start end_ :
  ascending indices = true ->
  (forall ls, labels = Some ls -> length ls = length indices) ->
  get_complete_beats indices labels start (Some end_)
  = if start >=? end_ then Raise ValueError
    else Ok (tail (List.filter (in_window start end_) indices),
             (fun ls : list Z =>
                (tail (List.filter (fun r => in_window start end_ r.1)
                                   (zip indices ls))).*2) <$> labels).
Proof.
  intros Hasc Hlen. unfold get_complete_beats. rewrite bind_Ok.
  destruct (Z.geb_spec start end_) as [Hge|Hlt]; [reflexivity|].
  rewrite (ascending_window_slice indices start end_ Hasc Hlt).
  destruct labels as [ls|]; [|reflexivity].
  specialize (Hlen ls eq_refl). cbn [fmap option_fmap option_map].
  do 3 f_equal.
  assert (Hfst : (zip indices ls).*1 = indices) by (apply fst_zip; lia).
  rewrite (window_slice start end_ (zip indices ls)) by (rewrite ?Hfst; assumption).
  rewrite Hfst, tail_take_drop, fmap_take, fmap_drop, snd_zip by lia.
  rewrite slice_positions; [reflexivity|].
  rewrite Hlen. apply searchsorted_right_le.
Qed.

Lemma complete_beats_closed_window_witness :
  get_complete_beats [10; 20; 30] (Some [1; 1; 2]) 5 (Some 30)
  = Ok ([20; 30], Some [1; 2]).
Proof.
  apply (complete_beats_closed_window [10; 20; 30] (Some [1; 1; 2]) 5 30).
  - reflexivity.
  - intros ls [= <-]. reflexivity.
Defined.

(** C3, counterexample.  With beats at 10, 20 and 30 and the window from 5 to
    30 the beat at 10, strictly inside, is left out and the beat at 30, on the
    boundary, is returned. *)
Lemma complete_beats_not_open_window :
  get_complete_beats [10; 20; 30] None 5 (Some 30) = Ok ([20; 30], None)
  /\ beats_strictly_inside [10; 20; 30] 5 30 = [10; 20]
  /\ get_complete_beats [10; 20; 30] None 5 (Some 30)
     <> Ok (beats_strictly_inside [10; 20; 30] 5 30, None).
Proof. repeat split; vm_compute; congruence. Qed.

(** ** Reasoning about generators *)

Section GenRules.
Context {Y : Type} (P : Y -> Prop).

Lemma spec_ret {A} (Q : A -> Prop) a : Q a -> gen_spec P Q (mret a).
Proof. intros Ha o. split; [constructor|]. intros ? ? [= <- <-]. exact Ha. Qed.

Lemma spec_bind {A B} (Q : A -> Prop) (R : B -> Prop) (m : Gen Y A) (k : A -> Gen Y B) :
  gen_spec P Q m -> (forall a, Q a -> gen_spec P R (k a)) -> gen_spec P R (m ≫= k).
Proof.
  intros Hm Hk o. unfold mbind, gen_bind.
  destruct (Hm o) as [Hy Hr]. destruct (m o) as [ys [[a o1]|e]]; simpl in *.
  - destruct (Hk a (Hr a o1 eq_refl) o1) as [Hy' Hr'].
    destruct (k a o1) as [zs r]. simpl in *. split; [|exact Hr'].
    apply Forall_app. split; assumption.
  - split; [exact Hy|]. intros; discriminate.
Qed.

Lemma spec_conseq {A} (Q Q' : A -> Prop) (g : Gen Y A) :
  gen_spec P Q g -> (forall a, Q a -> Q' a) -> gen_spec P Q' g.
Proof. intros Hg HQ o. destruct (Hg o) as [Hy Hr]. split; eauto. Qed.

Lemma spec_yield (y : Y) : P y -> gen_spec P (fun _ => True) (yield y).
Proof. intros Hy o. split; [repeat constructor; exact Hy|]. trivial. Qed.

Lemma spec_lift {A} (Q : A -> Prop) (r : result A) :
  (forall a, r = Ok a -> Q a) -> gen_spec P Q (lift r).
Proof.
  intros Hr o. unfold lift. destruct r as [a|e]; simpl.
  - split; [constructor|]. intros ? ? [= <- <-]. apply Hr. reflexivity.
  - split; [constructor|]. intros; discriminate.
Qed.

Lemma spec_draw : gen_spec P (fun _ => True) draw.
Proof. intros [|r o]; simpl; split; trivial; constructor. Qed.

Lemma spec_for_each {X} (xs : list X) (body : X -> Gen Y unit) :
  (forall x, x ∈ xs -> gen_spec P (fun _ => True) (body x)) ->
  gen_spec P (fun _ => True) (for_each xs body).
Proof.
  induction xs as [|x xs IH]; intros Hbody; simpl.
  - apply spec_ret. trivial.
  - eapply spec_bind; [apply Hbody; left|].
    intros _ _. apply IH. intros x' Hx'. apply Hbody. right. exact Hx'.
Qed.

Lemma spec_mapM {X A} (Q : A -> Prop) (f : X -> Gen Y A) (xs : list X) :
  (forall x, x ∈ xs -> gen_spec P Q (f x)) ->
  gen_spec P (Forall Q) (mapM f xs).
Proof.
  induction xs as [|x xs IH]; intros Hf; simpl.
  - apply spec_ret. constructor.
  - eapply spec_bind; [apply Hf; left|]. intros a Ha.
    eapply spec_bind; [apply IH; intros x' Hx'; apply Hf; right; exact Hx'|].
    intros l Hl. apply spec_ret. constructor; assumption.
Qed.

(** *** The random library *)

Lemma spec_randbelow n : (0 < n)%nat -> gen_spec P (fun r => (r < n)%nat) (randbelow n).
Proof.
  intros Hn. eapply spec_bind; [apply spec_draw|]. intros r _.
  apply spec_ret. apply Nat.mod_upper_bound. lia.
Qed.

Lemma spec_randint low high :
  gen_spec P (fun r => low <= r < high) (randint low high).
Proof.
  unfold randint. destruct (Z.ltb_spec low high).
  - eapply spec_bind; [apply spec_draw|]. intros r _. apply spec_ret.
    pose proof (Z.mod_pos_bound (Z.of_nat r) (high - low)). lia.
  - apply spec_lift. intros; discriminate.
Qed.

Lemma getitem_elem_of {A} (a : list A) i x : getitem a i = Ok x -> x ∈ a.
Proof.
  unfold getitem. destruct (a !! i) eqn:E; [|discriminate].
  intros [= <-]. eapply list_elem_of_lookup_2, E.
Qed.

Lemma spec_choice {A} (a : list A) : gen_spec P (fun x => x ∈ a) (choice a).
Proof.
  unfold choice. destruct (length a =? 0)%nat.
  - apply spec_lift. intros; discriminate.
  - eapply spec_bind with (Q := fun _ => True).
    + eapply spec_bind; [apply spec_draw|]. intros. apply spec_ret. trivial.
    + intros i _. apply spec_lift. intros x. apply getitem_elem_of.
Qed.

Lemma swap_Forall {A} (R : A -> Prop) (x : list A) i j :
  Forall R x -> Forall R (swap x i j).
Proof.
  intros Hx. unfold swap.
  destruct (x !! i) as [a|] eqn:Ei; [|exact Hx].
  destruct (x !! j) as [b|] eqn:Ej; [|exact Hx].
  apply Forall_insert; [apply Forall_insert; [exact Hx|]|].
  - eapply Forall_lookup_1; [exact Hx|exact Ej].
  - eapply Forall_lookup_1; [exact Hx|exact Ei].
Qed.

(** A shuffled list holds entries of the list only. *)
Lemma spec_shuffle {A} (R : A -> Prop) (x : list A) :
  Forall R x -> gen_spec P (Forall R) (shuffle x).
Proof.
  unfold shuffle. generalize (length x - 1)%nat as i. intros i. revert x.
  induction i as [|i IH]; intros x Hx; simpl.
  - apply spec_ret. exact Hx.
  - eapply spec_bind with (Q := fun _ => True).
    + eapply spec_bind; [apply spec_draw|]. intros. apply spec_ret. trivial.
    + intros j _. apply IH. apply swap_Forall. exact Hx.
Qed.
End GenRules.

(** ** Windows of the signal and heart-rate generators *)



(** ** Windows of the rhythm generator *)











Section Rhythm.
Context {Y : Type} (P : Y -> Prop).
Variables (frame_size : Z) (samples_per_tgt : list Z) (segments : list segment).

Lemma spec_choices n k : gen_spec P (fun _ => True) (choices n k).
Proof.
  eapply spec_conseq; [|trivial]. apply spec_mapM with (Q := fun _ => True).
  intros _ _. eapply spec_bind; [apply spec_draw|]. intros. apply spec_ret. trivial.
Qed.


End Rhythm.

Lemma getitem_lookup {A} (a : list A) i x : getitem a i = Ok x -> a !! i = Some x.
Proof. unfold getitem. destruct (a !! i); [|discriminate]. intros [= <-]. reflexivity. Qed.


(** ** Targets of the beat generator *)

Lemma tgt_beat_rows_ok seg_idx seg beat :
  Forall (fun row => row.1 = seg_idx /\ beat_target seg beat row.2)
         (tgt_beat_rows seg_idx (blabels seg) beat).
Proof.
  apply Forall_forall. intros row Hrow. unfold tgt_beat_rows in Hrow.
  apply list_elem_of_omap in Hrow as (i & Hi & Hrow).
  destruct (blabels seg !! i) as [[b c]|] eqn:Ei; [|discriminate].
  simpl in Hrow. injection Hrow as <-. simpl. split; [reflexivity|].
  exists i, c. split; assumption.
Qed.

Lemma seg_beat_rows_ok seg_idx seg :
  Forall2 (fun beat rows =>
             Forall (fun row => row.1 = seg_idx /\ beat_target seg beat row.2) rows)
          tgt_beat_labels (seg_beat_rows seg_idx seg).
Proof.
  unfold seg_beat_rows. destruct (_ <=? _)%nat; [repeat constructor|].
  destruct (too_few_normal _); [repeat constructor|].
  unfold tgt_beat_labels. simpl. repeat constructor; apply tgt_beat_rows_ok.
Qed.

Lemma Forall2_zip_with_app {C A} (R : C -> A -> Prop) (cs : list C) (a b : list (list A)) :
  Forall2 (fun c rows => Forall (R c) rows) cs a ->
  Forall2 (fun c rows => Forall (R c) rows) cs b ->
  Forall2 (fun c rows => Forall (R c) rows) cs (zip_with app a b).
Proof.
  intros Ha. revert b. induction Ha as [|c x cs a Hx Ha IH]; intros b Hb.
  - inversion_clear Hb. constructor.
  - inversion_clear Hb as [|? y ? b' Hy Hb']. simpl. constructor.
    + apply Forall_app. split; assumption.
    + apply IH, Hb'.
Qed.

Lemma pt_beat_map_from_ok pre segments :
  Forall2 (fun beat rows => Forall (target_row_ok (pre ++ segments) beat) rows)
          tgt_beat_labels (pt_beat_map_from (length pre) segments).
Proof.
  revert pre. induction segments as [|seg segments IH]; intros pre; simpl.
  - repeat constructor.
  - apply Forall2_zip_with_app.
    + eapply Forall2_impl; [apply seg_beat_rows_ok|]. intros beat rows Hrows.
      eapply Forall_impl; [exact Hrows|]. intros row [Hidx Hrow].
      exists seg. split; [|exact Hrow]. rewrite Hidx. apply list_lookup_middle. reflexivity.
    + specialize (IH (pre ++ [seg])).
      rewrite length_app, Nat.add_1_r, <- app_assoc in IH. exact IH.
Qed.

Section Beat.
Context {Y : Type} (P : Y -> Prop).
Variables (samples_per_tgt : list Z) (segments : list segment).

Lemma spec_choice_without_replacement n size :
  gen_spec P (fun _ => True) (choice_without_replacement n size).
Proof.
  unfold choice_without_replacement.
  destruct (_ <? _); [apply spec_lift; intros; discriminate|].
  destruct (_ <? _); [apply spec_lift; intros; discriminate|].
  eapply spec_bind; [apply spec_shuffle with (R := fun _ => True)|].
  - apply Forall_forall. trivial.
  - intros. apply spec_ret. trivial.
Qed.

Lemma pt_segs_beat_idxs_from_ok tgt_beat_idx classes pt_map :
  (forall j beat rows, classes !! j = Some beat ->
                       pt_map !! (tgt_beat_idx + j)%nat = Some rows ->
                       Forall (target_row_ok segments beat) rows) ->
  gen_spec P (Forall (selected_ok segments))
           (pt_segs_beat_idxs_from samples_per_tgt tgt_beat_idx classes pt_map).
Proof.
  revert tgt_beat_idx. induction classes as [|beat classes IH]; intros tgt_beat_idx Hmap; simpl.
  { apply spec_ret. constructor. }
  eapply spec_bind.
  { apply spec_lift with (Q := fun rows => pt_map !! tgt_beat_idx = Some rows).
    intros rows. apply getitem_lookup. }
  intros tgt_beats Hrows.
  assert (Hok : Forall (target_row_ok segments beat) tgt_beats).
  { apply (Hmap 0%nat beat tgt_beats); [reflexivity|]. rewrite Nat.add_0_r. exact Hrows. }
  eapply spec_bind; [apply spec_lift with (Q := fun _ => True); trivial|]. intros k _.
  eapply spec_bind; [apply spec_choice_without_replacement|]. intros tgt_idxs _.
  eapply spec_bind.
  { apply spec_mapM with (Q := selected_ok segments). intros i _.
    eapply spec_bind.
    { apply spec_lift with (Q := fun row => row ∈ tgt_beats).
      intros row. apply getitem_elem_of. }
    intros [seg_idx beat_idx] Hrow.
    eapply spec_bind.
    { apply spec_lift with (Q := fun label => HeartBeatMap beat = Some label).
      intros label. unfold subscript. destruct (HeartBeatMap beat); [|discriminate].
      intros [= <-]. reflexivity. }
    intros label Hlabel. apply spec_ret.
    rewrite Forall_forall in Hok. destruct (Hok _ Hrow) as (seg & Hseg & Htarget).
    exists seg, beat. auto. }
  intros here Hhere.
  eapply spec_bind.
  { apply IH. intros j beat' rows Hj Hr. apply (Hmap (S j) beat' rows Hj).
    rewrite Nat.add_succ_r. exact Hr. }
  intros rest Hrest. apply spec_ret. apply Forall_app. split; assumption.
Qed.
End Beat.

(** Every value the beat generator yields comes from a selected target of
    one of its segments, a frame computed for it and the three slices of the
    signal joined by [hstack]. *)
Lemma beat_yields (P : sample HeartBeat.t -> Prop) frame_size spp patient_generator :
  (forall seg beat label beat_idx off frame_start frame_end avg_rr x,
     HeartBeatMap beat = Some label ->
     beat_target seg beat beat_idx ->
     beat_frame frame_size seg beat_idx off = Some (frame_start, frame_end, avg_rr) ->
     hstack (slice (data seg) (frame_start - avg_rr) (frame_end - avg_rr))
            (slice (data seg) frame_start frame_end)
            (slice (data seg) (frame_start + avg_rr) (frame_end + avg_rr)) = Ok x ->
     P {| src := seg;
          slices := [(frame_start - avg_rr, frame_end - avg_rr);
                     (frame_start, frame_end);
                     (frame_start + avg_rr, frame_end + avg_rr)];
          x_of := nan_to_num x; y_of := label |}) ->
  gen_spec P (fun _ => True) (beat_data_generator frame_size spp patient_generator).
Proof.
  intros HP. apply spec_for_each. intros segments _. unfold beat_patient.
  eapply spec_bind.
  { apply pt_segs_beat_idxs_from_ok with (segments := segments).
    intros j beat rows Hj Hrows.
    eapply (Forall2_lookup_lr _ _ _ j beat rows (pt_beat_map_from_ok [] segments));
      [exact Hj|exact Hrows]. }
  intros selected Hsel.
  eapply spec_bind; [apply spec_shuffle, Hsel|]. intros shuffled Hshuffled.
  apply spec_for_each. intros [[seg_idx beat_idx] label] Hin.
  rewrite Forall_forall in Hshuffled.
  destruct (Hshuffled _ Hin) as (seg & beat & Hseg & Hlabel & Htarget). simpl in *.
  eapply spec_bind.
  { unfold uniform_offset. eapply spec_bind; [apply spec_draw|].
    intros r _. apply spec_ret with (Q := fun _ => True). trivial. }
  intros off _.
  eapply spec_bind.
  { apply spec_lift with (Q := fun seg' => seg' = seg).
    intros seg' Hget. apply getitem_lookup in Hget. congruence. }
  intros seg' ->.
  destruct (beat_frame frame_size seg beat_idx off) as [[[frame_start frame_end] avg_rr]|] eqn:Eframe.
  2:{ apply spec_ret. trivial. }
  eapply spec_bind.
  { apply spec_lift with (Q := fun x =>
      hstack (slice (data seg) (frame_start - avg_rr) (frame_end - avg_rr))
             (slice (data seg) frame_start frame_end)
             (slice (data seg) (frame_start + avg_rr) (frame_end + avg_rr)) = Ok x).
    trivial. }
  intros x Hx. apply spec_yield. eapply HP; eassumption.
Qed.

(** ** Frames of the beat generator *)

Lemma ascending_drop a n : ascending a = true -> ascending (drop n a) = true.
Proof.
  revert a. induction n as [|n IH]; intros a Ha; [exact Ha|].
  destruct a as [|x a]; [reflexivity|]. apply IH. apply (ascending_cons x a Ha).
Qed.

Lemma ascending_take a n : ascending a = true -> ascending (take n a) = true.
Proof.
  revert a. induction n as [|n IH]; intros a Ha; [reflexivity|].
  destruct a as [|x a]; [reflexivity|].
  destruct n as [|n]; [reflexivity|]. destruct a as [|y a]; [reflexivity|].
  change ((x <=? y) && ascending (y :: a) = true) in Ha.
  apply andb_true_iff in Ha as [Hxy Ha].
  change ((x <=? y) && ascending (take (S n) (y :: a)) = true).
  rewrite Hxy. simpl. apply (IH (y :: a) Ha).
Qed.

Lemma ascending_slice {B} (l : list (Z * B)) i j :
  ascending l.*1 = true -> ascending (slice l i j).*1 = true.
Proof.
  intros Hl. unfold slice. rewrite fmap_take, fmap_drop.
  apply ascending_take, ascending_drop, Hl.
Qed.

Lemma diff_nonneg a : ascending a = true -> Forall (fun d => 0 <= d) (diff a).
Proof.
  induction a as [|x a IH]; intros Ha; [constructor|].
  destruct a as [|y a]; [constructor|].
  change ((x <=? y) && ascending (y :: a) = true) in Ha.
  apply andb_true_iff in Ha as [Hxy Ha]. apply Z.leb_le in Hxy.
  change (Forall (fun d => 0 <= d) ((y - x) :: diff (y :: a))).
  constructor; [lia|]. apply IH, Ha.
Qed.

Lemma sumZ_nonneg l : Forall (fun d => 0 <= d) l -> 0 <= sumZ l.
Proof. induction 1 as [|d l Hd _ IH]; unfold sumZ in *; simpl; lia. Qed.

Lemma int_mean_nonneg l : Forall (fun d => 0 <= d) l -> 0 <= int_mean l.
Proof.
  intros Hl. apply sumZ_nonneg in Hl.
  destruct l as [|d l]; [vm_compute; discriminate|].
  unfold int_mean. apply Z.quot_pos; [exact Hl|]. simpl length. lia.
Qed.

Lemma rr_diffs_nonneg seg frame_start frame_end blabel_diffs :
  ascending (blabels seg).*1 = true ->
  rr_diffs seg frame_start frame_end = Some blabel_diffs ->
  Forall (fun d => 0 <= d) blabel_diffs.
Proof.
  intros Hasc. unfold rr_diffs. destruct (_ <=? _)%nat; [discriminate|].
  destruct (_ <=? _)%nat; [discriminate|]. intros [= <-].
  apply diff_nonneg, ascending_slice, Hasc.
Qed.

(** What a frame that is not skipped satisfies. *)
Lemma beat_frame_inv frame_size seg beat_idx off frame_start frame_end avg_rr :
  beat_frame frame_size seg beat_idx off = Some (frame_start, frame_end, avg_rr) ->
  frame_start = Z.max 0 (beat_idx - off)
  /\ frame_end = frame_start + frame_size
  /\ 0 <= frame_start - avg_rr
  /\ frame_end + avg_rr < data_len seg
  /\ exists blabel_diffs,
       rr_diffs seg frame_start frame_end = Some blabel_diffs
       /\ typical_rr blabel_diffs <> []
       /\ avg_rr = int_mean blabel_diffs.
Proof.
  unfold beat_frame.
  destruct (rr_diffs seg _ _) as [blabel_diffs|] eqn:Ed; [|discriminate].
  cbn [mbind option_bind].
  destruct (Z.ltb_spec (Z.max 0 (beat_idx - off) - int_mean blabel_diffs) 0);
    [discriminate|].
  destruct (Z.geb_spec (Z.max 0 (beat_idx - off) + frame_size + int_mean blabel_diffs)
                       (data_len seg)); [discriminate|].
  simpl. intros [= <- <- <-]. repeat split; try lia.
  exists blabel_diffs. split; [exact Ed|]. split; [|reflexivity].
  unfold rr_diffs in Ed. destruct (_ <=? _)%nat; [discriminate|].
  destruct (length (typical_rr _) <=? 0)%nat eqn:El; [discriminate|].
  injection Ed as <-. intros E. rewrite E in El. discriminate.
Qed.

Lemma beat_frame_avg_rr_nonneg frame_size seg beat_idx off frame_start frame_end avg_rr :
  ascending (blabels seg).*1 = true ->
  beat_frame frame_size seg beat_idx off = Some (frame_start, frame_end, avg_rr) ->
  0 <= avg_rr.
Proof.
  intros Hasc Hframe.
  apply beat_frame_inv in Hframe as (_ & _ & _ & _ & d & Hd & _ & ->).
  eapply int_mean_nonneg, rr_diffs_nonneg; eassumption.
Qed.


(** ** Windows of every task generator *)

Lemma spec_yields {Y A} (P : Y -> Prop) (Q : A -> Prop) (g : Gen Y A) o y :
  gen_spec P Q g -> y ∈ yields g o -> P y.
Proof.
  intros Hg Hy. destruct (Hg o) as [Hall _].
  rewrite Forall_forall in Hall. apply Hall, Hy.
Qed.




(** ** Shape of the beat frames *)

Lemma slice_length {A} (l : list A) i j :
  0 <= i -> i <= j -> j <= Z.of_nat (length l) ->
  Z.of_nat (length (slice l i j)) = j - i.
Proof.
  intros Hi Hij Hj. unfold slice, slice_bound.
  destruct (Z.ltb_spec i 0); [lia|]. destruct (Z.ltb_spec j 0); [lia|].
  rewrite length_take, length_drop. lia.
Qed.

Lemma Forall_slice {A} (R : A -> Prop) (l : list A) i j :
  Forall R l -> Forall R (slice l i j).
Proof. intros Hl. unfold slice. apply Forall_take, Forall_drop, Hl. Qed.

Lemma zip_with_app_rows {A} (a b : list (list A)) c1 c2 :
  Forall (fun row => length row = c1) a ->
  Forall (fun row => length row = c2) b ->
  Forall (fun row => length row = (c1 + c2)%nat) (zip_with app a b).
Proof.
  intros Ha. revert b. induction Ha as [|x a Hx Ha IH]; intros b Hb; [constructor|].
  destruct Hb as [|y b Hy Hb]; [constructor|]. simpl. constructor.
  - rewrite length_app. lia.
  - apply IH, Hb.
Qed.

Lemma hstack_shape a b c x n c1 c2 c3 :
  hstack a b c = Ok x ->
  length a = n -> length b = n -> length c = n ->
  Forall (fun row => length row = c1) a ->
  Forall (fun row => length row = c2) b ->
  Forall (fun row => length row = c3) c ->
  length x = n /\ Forall (fun row => length row = (c1 + c2 + c3)%nat) x.
Proof.
  unfold hstack. destruct (_ && _); [|discriminate]. intros [= <-] Ha Hb Hc Ra Rb Rc.
  split.
  - rewrite !length_zip_with. lia.
  - apply zip_with_app_rows; [apply zip_with_app_rows|]; assumption.
Qed.

Lemma nan_to_num_shape x n c :
  length x = n /\ Forall (fun row => length row = c) x ->
  length (nan_to_num x) = n /\ Forall (fun row => length row = c) (nan_to_num x).
Proof.
  intros [Hn Hc]. unfold nan_to_num. split; [rewrite length_fmap; exact Hn|].
  apply Forall_fmap. eapply Forall_impl; [exact Hc|].
  intros row Hrow. simpl. rewrite length_fmap. exact Hrow.
Qed.

Lemma slice_lookup {A} (l : list A) i j (k : nat) :
  0 <= i -> i <= j -> j <= Z.of_nat (length l) -> Z.of_nat k < j - i ->
  slice l i j !! k = l !! Z.to_nat (i + Z.of_nat k)
  /\ is_Some (l !! Z.to_nat (i + Z.of_nat k)).
Proof.
  intros Hi Hij Hj Hk. unfold slice, slice_bound.
  destruct (Z.ltb_spec i 0); [lia|]. destruct (Z.ltb_spec j 0); [lia|].
  rewrite lookup_take, lookup_drop. split.
  - destruct (decide _) as [_|Hge]; [f_equal; lia|lia].
  - apply lookup_lt_is_Some_2. lia.
Qed.

Lemma hstack_lookup a b c x i ra rb rc :
  hstack a b c = Ok x ->
  a !! i = Some ra -> b !! i = Some rb -> c !! i = Some rc ->
  nan_to_num x !! i = Some (nan_to_num1 <$> (ra ++ rb ++ rc)).
Proof.
  unfold hstack. destruct (_ && _); [|discriminate]. intros [= <-] Ha Hb Hc.
  unfold nan_to_num, array2 in *.
  rewrite (list_lookup_fmap (fun row : list float => nan_to_num1 <$> row)).
  rewrite !lookup_zip_with, Ha, Hb, Hc.
  simpl. rewrite <- app_assoc. reflexivity.
Qed.

Lemma beat_shapes frame_size channels spp patient_generator :
  gen_spec (side_by_side frame_size channels) (fun _ => True)
           (beat_data_generator frame_size spp patient_generator).
Proof.
  apply beat_yields.
  intros seg beat label beat_idx off frame_start frame_end avg_rr x _ _ Hframe Hx.
  intros Hasc Hrows Hsize. simpl in *.
  pose proof (beat_frame_avg_rr_nonneg _ _ _ _ _ _ _ Hasc Hframe) as Havg.
  apply beat_frame_inv in Hframe as (_ & -> & Hlo & Hhi & d & Hd & _ & Hmean).
  unfold data_len in Hhi.
  assert (Hshape : length (nan_to_num x) = Z.to_nat frame_size
                   /\ Forall (fun row => length row = (channels + channels + channels)%nat)
                             (nan_to_num x)).
  { apply nan_to_num_shape.
    eapply (hstack_shape _ _ _ _ (Z.to_nat frame_size) channels channels channels);
      [exact Hx|..]; try (apply Forall_slice, Hrows);
      apply Nat2Z.inj; rewrite slice_length; lia. }
  destruct Hshape as [Hn Hc]. split; [lia|]. split.
  { eapply Forall_impl; [exact Hc|]. intros row Hrow. simpl in Hrow. lia. }
  exists frame_start, avg_rr, d. unfold data_len. cbn [src x_of].
  split; [exact Hd|]. split; [exact Hmean|]. split; [lia|]. split; [lia|].
  intros i Hi.
  destruct (slice_lookup (data seg) (frame_start - avg_rr) (frame_start + frame_size - avg_rr) i)
    as [Ea [ra Ha]]; try lia.
  destruct (slice_lookup (data seg) frame_start (frame_start + frame_size) i)
    as [Eb [rb Hb]]; try lia.
  destruct (slice_lookup (data seg) (frame_start + avg_rr) (frame_start + frame_size + avg_rr) i)
    as [Ec [rc Hc']]; try lia.
  exists ra, rb, rc. repeat split; try assumption.
  apply (hstack_lookup _ _ _ _ _ _ _ _ Hx);
    [exact (eq_trans Ea Ha)|exact (eq_trans Eb Hb)|exact (eq_trans Ec Hc')].
Qed.

Example example_beat_slices :
  slices <$> example_beat_run = [[(3979, 3989); (4196, 4206); (4413, 4423)]].
Proof. vm_compute. reflexivity. Qed.

Lemma example_beat_sample_yielded : example_beat_sample ∈ example_beat_run.
Proof. vm_compute. left. Qed.

(** C7, as the code has it.  For a signal of [channels] columns, with
    ascending beat markers, every array yielded by the beat generator has
    [frame_size] rows and [3 * channels] columns, and it is three windows of
    [frame_size] samples side by side along the second axis: row [i] holds
    the sample [avg_rr] before sample [frame_start + i], that sample, and the
    sample [avg_rr] after it, in this order, cleaned by [np.nan_to_num]. *)
Theorem beat_window_shape frame_size channels spp patients o s :
  s ∈ yields (beat_data_generator frame_size spp patients) o ->
  ascending (blabels (src s)).*1 = true ->
  Forall (fun row => length row = channels) (data (src s)) ->
  0 <= frame_size ->
  Z.of_nat (length (x_of s)) = frame_size
  /\ Forall (fun row => length row = (3 * channels)%nat) (x_of s)
  /\ three_windows frame_size s.
Proof.
  intros Hin. exact (spec_yields _ _ _ _ _ (beat_shapes frame_size channels spp patients) Hin).
Qed.

Lemma beat_window_shape_witness :
  Z.of_nat (length (x_of example_beat_sample)) = 10
  /\ Forall (fun row => length row = (3 * 1)%nat) (x_of example_beat_sample)
  /\ three_windows 10 example_beat_sample.
Proof.
  apply (beat_window_shape 10 1 (PerClass [1; 1; 1]) [[example_segment]] []
                           example_beat_sample).
  - vm_compute. left.
  - reflexivity.
  - apply Forall_replicate. reflexivity.
  - lia.
Defined.

(** C7, counterexample.  On the example run the signal has the shape
    (10000, 1) and the array yielded the shape (10, 3), not (3 × 10, 1). *)
Lemma beat_window_not_three_frames_long :
  example_beat_sample ∈ yields (beat_data_generator 10 (PerClass [1; 1; 1])
                                                    [[example_segment]]) []
  /\ shape (data (src example_beat_sample)) = (Z.to_nat 10000, 1%nat)
  /\ shape (x_of example_beat_sample) = (10%nat, 3%nat)
  /\ shape (x_of example_beat_sample) <> (Z.to_nat (3 * 10), 1%nat).
Proof.
  split; [apply example_beat_sample_yielded|].
  repeat split; vm_compute; congruence.
Qed.

(** ** Normal targets of the beat generator *)

Lemma code_eqb_lookup blabels i v :
  code_eqb blabels i v = true -> exists b, blabels !! i = Some (b, v).
Proof.
  unfold code_eqb. destruct (blabels !! i) as [[b c]|]; [|discriminate].
  intros Hc. apply Z.eqb_eq in Hc. subst. exists b. reflexivity.
Qed.

(** A normal marker with a neighbor that is not coded normal is not kept as
    a normal target. *)
Lemma other_neighbor_not_kept blabels i :
  code_eqb blabels (i - 1) (IcentiaBeat.value IcentiaBeat.normal) = false
  \/ code_eqb blabels (i + 1) (IcentiaBeat.value IcentiaBeat.normal) = false ->
  i ∉ tgt_beat_positions blabels IcentiaBeat.normal.
Proof.
  intros Hnb Hi. unfold tgt_beat_positions in Hi.
  apply list_elem_of_In, filter_In in Hi as [_ Hok].
  unfold neighbors_ok in Hok. apply andb_true_iff in Hok as [Hl Hr].
  destruct Hnb; congruence.
Qed.

(** ** The shift of the context windows *)

(** C8.  On the example segment the frame on the beat at 4200 sees 34
    intervals, one of them the pause of 800 samples.  The intervals of
    typical length average 200, but [avg_rr] is the mean of all of them,
    217, and the windows yielded are shifted by 217. *)
Theorem avg_rr_counts_every_interval :
  exists blabel_diffs,
    rr_diffs example_segment 4196 4206 = Some blabel_diffs
    /\ In 800 blabel_diffs
    /\ int_mean (typical_rr blabel_diffs) = 200
    /\ beat_frame 10 example_segment 4200 4 = Some (4196, 4206, 217)
    /\ slices <$> example_beat_run = [[(4196 - 217, 4206 - 217); (4196, 4206);
                                       (4196 + 217, 4206 + 217)]].
Proof.
  eexists. split; [vm_compute; reflexivity|].
  split; [do 18 right; left; reflexivity|].
  repeat split; vm_compute; reflexivity.
Qed.

(** ** Sample runs of the other generators *)

Example signal_run :
  (fun s => (slices s, shape (x_of s)))
    <$> yields (signal_generator 5 2 [[short_segment]]) [0; 3; 0; 14]%nat
  = [([(3, 8)], (5%nat, 1%nat)); ([(14, 19)], (5%nat, 1%nat))].
Proof. vm_compute. reflexivity. Qed.

Example heart_rate_run :
  (fun s => (slices s, y_of s))
    <$> yields (heart_rate_data_generator 100 1 [[example_segment]]) [0; 250]%nat
  = [([(250, 350)], HeartRate.value HeartRate.noise)].
Proof. vm_compute. reflexivity. Qed.

(** Two beats in the label window: the array of their indices has no truth
    value, and nothing is yielded. *)
Example heart_rate_run_two_beats :
  heart_rate_data_generator 1250 1 [[example_segment]] [0; 100]%nat
  = ([], Raise ValueError).
Proof. vm_compute. reflexivity. Qed.

Example rhythm_run :
  (fun s => (slices s, shape (x_of s), y_of s))
    <$> yields (rhythm_data_generator 10 (PerClass [2; 2; 2]) [[example_segment]])
               [5; 7; 100; 200]%nat
  = [([(200, 210)], (10%nat, 1%nat), HeartRhythm.normal);
     ([(100, 110)], (10%nat, 1%nat), HeartRhythm.normal)].
Proof. vm_compute. reflexivity. Qed.

(** With [samples_per_patient = 1] the allocation has one entry, and the beat
    generator raises at the second class. *)
Example beat_run_total_1 :
  beat_data_generator 10 (Total 1) [[example_segment]] [] = ([], Raise IndexError).
Proof. vm_compute. reflexivity. Qed.

(** * Further properties of the label resolvers *)

Lemma rhythm_label_cases_witness :
  _get_rhythm_label [10; 20; 5] [1; 2; 1] = Ok HeartRhythm.afib.
Proof.
  apply (rhythm_label_cases [10; 20; 5] [1; 2; 1]).
  reflexivity.
Defined.

(** X3.  [durations] and [labels] of different lengths: the boolean mask
    [labels == rhythm.value] does not fit [durations], and the first masked
    sum raises. *)
Lemma rhythm_label_length_mismatch durations labels :
  length durations <> length labels ->
  _get_rhythm_label durations labels = Raise IndexError.
Proof.
  intros Hne. unfold _get_rhythm_label, IcentiaRhythm.members. simpl.
  unfold masked_sum. apply Nat.eqb_neq in Hne. rewrite Hne. reflexivity.
Qed.

Lemma rhythm_label_length_mismatch_witness :
  _get_rhythm_label [10; 20] [1] = Raise IndexError.
Proof.
  apply (rhythm_label_length_mismatch [10; 20] [1]). simpl. lia.
Defined.

Lemma beat_label_needs_pvc_witness :
  _get_beat_label [1; 1; 2; 0] = Raise IndexError.
Proof.
  apply (beat_label_needs_pvc [1; 1; 2; 0]); repeat constructor; lia.
Defined.

(** X5.  When the labels hold a [pvc] beat (and no negative entry), the
    counts are long enough and a high-priority code always wins: [pac] when
    it occurs at least as often as [pvc], else [pvc].  The low-priority codes
    are never looked at, whatever their counts. *)
Lemma beat_label_with_pvc (labels : list Z) :
  Forall (fun v => 0 <= v) labels ->
  1 <= count_of (IcentiaBeat.value IcentiaBeat.pvc) labels ->
  _get_beat_label labels
  = Ok (if count_of (IcentiaBeat.value IcentiaBeat.pvc) labels
           <=? count_of (IcentiaBeat.value IcentiaBeat.pac) labels
        then HeartBeat.pac else HeartBeat.pvc).
Proof.
  intros Hnn Hpos. simpl in Hpos |- *.
  assert (H4 : In 4 labels) by (apply count_of_pos_In; lia).
  apply fold_max_ge in H4.
  destruct (bincount labels (length IcentiaBeat.members)) as [counts|e] eqn:Hb.
  2:{ unfold bincount in Hb. rewrite no_negative in Hb by exact Hnn. discriminate. }
  pose proof (bincount_length _ _ _ Hb) as Hlen.
  assert (H2 : counts !! 2%nat = Some (count_of 2 labels)).
  { apply (bincount_lookup _ _ _ 2%nat Hb). lia. }
  assert (H4' : counts !! 4%nat = Some (count_of 4 labels)).
  { apply (bincount_lookup _ _ _ 4%nat Hb). lia. }
  assert (Hc2 : 0 <= count_of 2 labels) by (unfold count_of; lia).
  unfold _get_beat_label. rewrite Hb, bind_Ok. simpl.
  change (Z.to_nat 2) with 2%nat. change (Z.to_nat 4) with 4%nat.
  rewrite (getitem_Some _ _ _ H2), (getitem_Some _ _ _ H4'). simpl.
  destruct (Z.ltb_spec (count_of 2 labels) (count_of 4 labels)) as [Hlt|Hge]; simpl.
  - destruct (Z.ltb_spec 0 (count_of 4 labels)); [|lia].
    destruct (Z.leb_spec (count_of 4 labels) (count_of 2 labels)); [lia|]. reflexivity.
  - destruct (Z.ltb_spec 0 (count_of 2 labels)); [|lia].
    destruct (Z.leb_spec (count_of 4 labels) (count_of 2 labels)); [|lia]. reflexivity.
Qed.

Lemma beat_label_with_pvc_witness :
  _get_beat_label [1; 1; 1; 4; 2; 4] = Ok HeartBeat.pvc.
Proof.
  apply (beat_label_with_pvc [1; 1; 1; 4; 2; 4]).
  - repeat constructor; lia.
  - vm_compute. discriminate.
Defined.

(** * Further properties of [get_complete_beats] *)

Lemma searchsorted_right_last a e :
  ascending a = true -> last a = Some e -> searchsorted_right a e = length a.
Proof.
  induction a as [|x a IH]; [discriminate|]. intros Hasc Hlast.
  apply ascending_cons in Hasc as [Hasc Hge]. simpl.
  destruct a as [|y a].
  - simpl in Hlast. injection Hlast as ->. rewrite Z.leb_refl. reflexivity.
  - rewrite last_cons_cons in Hlast.
    assert (He : x <= e).
    { rewrite Forall_forall in Hge. apply Hge.
      apply last_Some in Hlast as [l' ->]. apply elem_of_app. right. left. }
    destruct (Z.leb_spec x e); [|lia]. f_equal. apply IH; assumption.
Qed.

(** X6.  With the default window ([start = 0], [end = None]) the window ends
    at the last beat, and for ascending non-negative indices with a positive
    last index every beat but the first is returned. *)
Lemma complete_beats_default_window indices e :
  ascending indices = true ->
  Forall (fun x => 0 <= x) indices ->
  last indices = Some e ->
  0 < e ->
  get_complete_beats indices None 0 None = Ok (tail indices, None).
Proof.
  intros Hasc Hnn Hlast He. unfold get_complete_beats, last_item.
  rewrite Hlast, bind_Ok. destruct (Z.geb_spec 0 e); [lia|].
  rewrite (searchsorted_right_last _ _ Hasc Hlast).
  assert (H0 : searchsorted_left indices 0 = 0%nat).
  { destruct Hnn as [|x l Hx _]; [reflexivity|]. simpl.
    destruct (Z.ltb_spec x 0); [lia|reflexivity]. }
  rewrite H0, slice_positions by lia.
  rewrite Nat.sub_0_r. destruct indices as [|x l]; [reflexivity|].
  simpl. rewrite Nat.sub_0_r. rewrite firstn_all. reflexivity.
Qed.

Lemma complete_beats_default_window_witness :
  get_complete_beats [10; 20; 30] None 0 None = Ok ([20; 30], None).
Proof.
  apply (complete_beats_default_window [10; 20; 30] 30).
  - reflexivity.
  - repeat constructor; lia.
  - reflexivity.
  - lia.
Defined.

(** * Further properties of the generators *)

Lemma spec_yields_all {Y A} (P : Y -> Prop) (Q : A -> Prop) (g : Gen Y A) o :
  gen_spec P Q g -> Forall P (yields g o).
Proof. intros Hg. apply (Hg o). Qed.

(** ** Heart-rate generator *)

(** On an array of beat indices the label is noise or tachycardia: no beat
    or a single beat at index 0 is noise, one other beat gives the mean of
    no interval, and two beats or more have no truth value. *)
Lemma heart_rate_label_of_array l fs y :
  _get_heart_rate_label (NdArray l) fs = Ok y ->
  y = HeartRate.value HeartRate.noise \/ y = HeartRate.value HeartRate.tachycardia.
Proof.
  unfold _get_heart_rate_label. destruct l as [|x [|x' l]]; cbn [truth].
  - intros [= <-]. left. reflexivity.
  - rewrite bind_Ok. destruct (x =? 0); cbn [negb]; [intros [= <-]; left; reflexivity|].
    cbn [items diff].
    assert (E : sixty_over (mean_interval [] fs) = NaN) by (destruct fs; reflexivity).
    rewrite E. intros [= <-]. right. reflexivity.
  - discriminate.
Qed.

(** X7.  The heart-rate generator never yields the labels normal or
    bradycardia: every label it yields is noise or tachycardia, because it
    hands [_get_heart_rate_label] a numpy array, whose truth value exists
    only with fewer than two beats. *)
Theorem heart_rate_labels_noise_or_tachycardia frame_size samples_per_patient patients o :
  Forall (fun s => y_of s = HeartRate.value HeartRate.noise
                   \/ y_of s = HeartRate.value HeartRate.tachycardia)
         (yields (heart_rate_data_generator frame_size samples_per_patient patients) o).
Proof.
  apply (spec_yields_all _ (fun _ => True)).
  apply spec_for_each. intros segments _.
  apply spec_for_each. intros _ _.
  eapply spec_bind; [apply spec_choice|]. intros segment _.
  eapply spec_bind; [apply spec_randint|]. intros r _.
  eapply spec_bind; [apply spec_lift with (Q := fun _ => True); trivial|]. intros beat_indices _.
  eapply spec_bind; [apply spec_lift with (Q := fun _ => True); trivial|]. intros beats _.
  eapply spec_bind.
  { apply spec_lift with
      (Q := fun y => y = HeartRate.value HeartRate.noise
                     \/ y = HeartRate.value HeartRate.tachycardia).
    intros y. apply heart_rate_label_of_array. }
  intros y Hy. apply spec_yield. exact Hy.
Qed.

(** X8.  Every array the heart-rate generator yields has [2 * (frame_size //
    2)] rows: the frame is cut [frame_size // 2] samples to either side of
    its center, so an odd [frame_size] loses one sample. *)
Theorem heart_rate_window_rows frame_size samples_per_patient patients o :
  0 <= frame_size ->
  Forall (fun s => Z.of_nat (length (x_of s)) = 2 * (frame_size / 2))
         (yields (heart_rate_data_generator frame_size samples_per_patient patients) o).
Proof.
  intros Hsize. apply (spec_yields_all _ (fun _ => True)).
  apply spec_for_each. intros segments _.
  apply spec_for_each. intros _ _.
  eapply spec_bind; [apply spec_choice|]. intros segment _.
  rewrite Z.max_id.
  eapply spec_bind; [apply spec_randint|]. intros r Hr.
  eapply spec_bind; [apply spec_lift with (Q := fun _ => True); trivial|]. intros beat_indices _.
  eapply spec_bind; [apply spec_lift with (Q := fun _ => True); trivial|]. intros beats _.
  eapply spec_bind; [apply spec_lift with (Q := fun _ => True); trivial|]. intros y _.
  apply spec_yield. simpl in *.
  pose proof (Z.div_pos frame_size 2 Hsize ltac:(lia)) as Hhalf.
  pose proof (Z.mul_div_le frame_size 2 ltac:(lia)) as Hle.
  unfold data_len in Hr. rewrite slice_length; lia.
Qed.

Lemma heart_rate_window_rows_witness :
  Forall (fun s => Z.of_nat (length (x_of s)) = 2 * (101 / 2))
         (yields (heart_rate_data_generator 101 1 [[example_segment]]) [0; 250]%nat).
Proof.
  apply (heart_rate_window_rows 101 1 [[example_segment]] [0; 250]%nat). lia.
Defined.

Example heart_rate_run_odd :
  (fun s => (slices s, length (x_of s)))
    <$> yields (heart_rate_data_generator 101 1 [[example_segment]]) [0; 250]%nat
  = [([(250, 350)], 100%nat)].
Proof. vm_compute. reflexivity. Qed.

(** ** Signal generator *)

(** X9.  Every array the signal generator yields has [frame_size] rows, and
    its window stops before the last sample of the segment: the start is
    drawn below [segment_size - frame_size]. *)
Theorem signal_window_rows frame_size samples_per_patient patients o :
  0 <= frame_size ->
  Forall (fun s => Z.of_nat (length (x_of s)) = frame_size
                   /\ Forall (fun w => w.2 = w.1 + frame_size
                                       /\ w.2 < data_len (src s)) (slices s))
         (yields (signal_generator frame_size samples_per_patient patients) o).
Proof.
  intros Hsize. apply (spec_yields_all _ (fun _ => True)).
  apply spec_for_each. intros segments _.
  apply spec_for_each. intros _ _.
  eapply spec_bind; [apply spec_choice|]. intros segment _.
  eapply spec_bind; [apply spec_randint|]. intros frame_start Hr.
  apply spec_yield. simpl in *. unfold data_len in *. split.
  - rewrite slice_length; lia.
  - constructor; [|constructor]. simpl. lia.
Qed.

Lemma signal_window_rows_witness :
  Forall (fun s => Z.of_nat (length (x_of s)) = 5
                   /\ Forall (fun w => w.2 = w.1 + 5
                                       /\ w.2 < data_len (src s)) (slices s))
         (yields (signal_generator 5 2 [[short_segment]]) [0; 3; 0; 14]%nat).
Proof.
  apply (signal_window_rows 5 2 [[short_segment]] [0; 3; 0; 14]%nat). lia.
Defined.

(** * Runs that end well, and runs that raise *)

Section Silent.
Context {Y : Type}.

Lemma silent_ret {A} (Q : A -> Prop) a : Q a -> returns_silently (Y:=Y) Q (mret a).
Proof. intros Ha o. exists a, o. split; [reflexivity|exact Ha]. Qed.

Lemma silent_bind {A B} (Q : A -> Prop) (R : B -> Prop) (m : Gen Y A) (k : A -> Gen Y B) :
  returns_silently Q m -> (forall a, Q a -> returns_silently R (k a)) ->
  returns_silently R (m ≫= k).
Proof.
  intros Hm Hk o. destruct (Hm o) as (a & o1 & Em & Ha).
  destruct (Hk a Ha o1) as (b & o2 & Ek & Hb).
  exists b, o2. split; [|exact Hb].
  unfold mbind, gen_bind. rewrite Em, Ek. reflexivity.
Qed.

Lemma silent_conseq {A} (Q Q' : A -> Prop) (g : Gen Y A) :
  returns_silently Q g -> (forall a, Q a -> Q' a) -> returns_silently Q' g.
Proof. intros Hg HQ o. destruct (Hg o) as (a & o' & E & Ha). eauto. Qed.

Lemma silent_lift {A} (Q : A -> Prop) (r : result A) a :
  r = Ok a -> Q a -> returns_silently (Y:=Y) Q (lift r).
Proof. intros -> Ha o. exists a, o. split; [reflexivity|exact Ha]. Qed.

Lemma silent_draw : returns_silently (Y:=Y) (fun _ => True) draw.
Proof. intros [|r o]; eexists _, _; split; try reflexivity; trivial. Qed.

Lemma silent_randbelow n :
  (0 < n)%nat -> returns_silently (Y:=Y) (fun r => (r < n)%nat) (randbelow n).
Proof.
  intros Hn. eapply silent_bind; [apply silent_draw|]. intros r _.
  apply silent_ret. apply Nat.mod_upper_bound. lia.
Qed.


Lemma silent_mapM {X A} (Q : A -> Prop) (f : X -> Gen Y A) (xs : list X) :
  (forall x, x ∈ xs -> returns_silently Q (f x)) ->
  returns_silently (fun l => length l = length xs /\ Forall Q l) (mapM f xs).
Proof.
  induction xs as [|x xs IH]; intros Hf; simpl.
  - apply silent_ret. split; [reflexivity|constructor].
  - eapply silent_bind; [apply Hf; left|]. intros a Ha.
    eapply silent_bind; [apply IH; intros x' Hx'; apply Hf; right; exact Hx'|].
    intros l [Hlen Hl]. apply silent_ret. split; [simpl; lia|].
    constructor; assumption.
Qed.

Lemma swap_length {A} (x : list A) i j : length (swap x i j) = length x.
Proof.
  unfold swap. destruct (x !! i); [|reflexivity]. destruct (x !! j); [|reflexivity].
  rewrite !length_insert. reflexivity.
Qed.

Lemma silent_shuffle {A} (R : A -> Prop) (x : list A) :
  Forall R x ->
  returns_silently (Y:=Y) (fun l => length l = length x /\ Forall R l) (shuffle x).
Proof.
  unfold shuffle. generalize (length x - 1)%nat as i. intros i. revert x.
  induction i as [|i IH]; intros x Hx; simpl.
  - apply silent_ret. split; [reflexivity|exact Hx].
  - eapply silent_bind; [apply silent_randbelow; lia|]. intros j _.
    eapply silent_conseq; [apply IH, swap_Forall, Hx|].
    intros l [Hlen Hl]. rewrite swap_length in Hlen. split; assumption.
Qed.

Lemma silent_choice {A} (a : list A) :
  a <> [] -> returns_silently (Y:=Y) (fun x => x ∈ a) (choice a).
Proof.
  intros Hne. unfold choice. destruct a as [|x a]; [congruence|]. cbn [length Nat.eqb].
  eapply silent_bind; [apply silent_randbelow; simpl; lia|]. intros i Hi.
  destruct ((x :: a) !! i) as [y|] eqn:Ey.
  - eapply silent_lift; [apply getitem_Some, Ey|]. eapply list_elem_of_lookup_2, Ey.
  - apply lookup_ge_None in Ey. simpl in Hi, Ey. lia.
Qed.


Lemma silent_choice_without_replacement n size :
  0 <= size <= Z.of_nat n ->
  returns_silently (Y:=Y) (fun l => length l = Z.to_nat size
                                    /\ Forall (fun i => (i < n)%nat) l)
                   (choice_without_replacement n size).
Proof.
  intros Hsize. unfold choice_without_replacement.
  destruct (Z.ltb_spec (Z.of_nat n) size); [lia|].
  destruct (Z.ltb_spec size 0); [lia|].
  eapply silent_bind.
  - apply silent_shuffle with (R := fun i => (i < n)%nat).
    apply Forall_forall. intros i Hi. apply elem_of_seq in Hi. lia.
  - intros idx [Hlen Hidx]. apply silent_ret. rewrite length_seq in Hlen. split.
    + rewrite length_take. lia.
    + apply Forall_take, Hidx.
Qed.

Lemma raises_bind_l {A B} e (m : Gen Y A) (k : A -> Gen Y B) :
  raises_silently e m -> raises_silently e (m ≫= k).
Proof. intros Hm o. unfold mbind, gen_bind. rewrite (Hm o). reflexivity. Qed.

Lemma raises_bind_r {A B} (Q : A -> Prop) e (m : Gen Y A) (k : A -> Gen Y B) :
  returns_silently Q m -> (forall a, Q a -> raises_silently e (k a)) ->
  raises_silently e (m ≫= k).
Proof.
  intros Hm Hk o. destruct (Hm o) as (a & o1 & Em & Ha).
  unfold mbind, gen_bind. rewrite Em, (Hk a Ha o1). reflexivity.
Qed.

Lemma raises_lift {A} e : raises_silently (Y:=Y) (A:=A) e (lift (Raise e)).
Proof. intros o. reflexivity. Qed.

Lemma raises_for_each {X} e (x : X) (xs : list X) (body : X -> Gen Y unit) :
  raises_silently e (body x) -> raises_silently e (for_each (x :: xs) body).
Proof. intros Hx. simpl. apply raises_bind_l, Hx. Qed.



End Silent.

(** ** Segments too short for a frame *)

Lemma randint_empty {Y} low high :
  high <= low -> raises_silently (Y:=Y) ValueError (randint low high).
Proof.
  intros Hle. unfold randint. destruct (Z.ltb_spec low high); [lia|]. apply raises_lift.
Qed.

Lemma choice_then_raises {Y B} (segments : list segment) (k : segment -> Gen Y B) :
  (forall seg, seg ∈ segments -> raises_silently ValueError (k seg)) ->
  raises_silently ValueError (choice segments ≫= k).
Proof.
  intros Hk. destruct segments as [|seg segments].
  - apply raises_bind_l. unfold choice. simpl. apply raises_lift.
  - eapply raises_bind_r; [apply silent_choice; discriminate|]. exact Hk.
Qed.

(** X10.  A patient whose segments are all at most [frame_size] samples long
    (or that has no segment) stops the signal generator and the heart-rate
    generator: the first draw of a frame start has an empty range, and the
    generator raises [ValueError] without yielding anything.  A segment of
    exactly [frame_size] samples cannot be sampled. *)
Theorem short_segments_raise frame_size samples_per_patient segments rest o :
  1 <= samples_per_patient ->
  Forall (fun seg => data_len seg <= frame_size) segments ->
  signal_generator frame_size samples_per_patient (segments :: rest) o
  = ([], Raise ValueError)
  /\ heart_rate_data_generator frame_size samples_per_patient (segments :: rest) o
     = ([], Raise ValueError).
Proof.
  intros Hn Hshort. rewrite Forall_forall in Hshort.
  destruct (Z.to_nat samples_per_patient) as [|m] eqn:Em; [lia|].
  split.
  - revert o. apply raises_for_each. unfold signal_patient. rewrite Em.
    apply raises_for_each. apply choice_then_raises. intros seg Hseg.
    apply raises_bind_l, randint_empty. specialize (Hshort seg Hseg). lia.
  - revert o. apply raises_for_each. unfold heart_rate_patient. rewrite Em.
    apply raises_for_each. apply choice_then_raises. intros seg Hseg.
    apply raises_bind_l, randint_empty. specialize (Hshort seg Hseg). lia.
Qed.

Lemma short_segments_raise_witness :
  signal_generator 20 1 [[short_segment]] [] = ([], Raise ValueError)
  /\ heart_rate_data_generator 20 1 [[short_segment]] [] = ([], Raise ValueError).
Proof.
  apply (short_segments_raise 20 1 [short_segment] [] []).
  - lia.
  - repeat constructor. vm_compute. discriminate.
Defined.

(** ** The beat generator with an integer [samples_per_patient] *)

Lemma seg_beat_rows_length seg_idx seg :
  length (seg_beat_rows seg_idx seg) = length tgt_beat_labels.
Proof.
  unfold seg_beat_rows. destruct (_ <=? _)%nat; [reflexivity|].
  destruct (too_few_normal _); reflexivity.
Qed.

Lemma pt_beat_map_from_length seg_idx segments :
  length (pt_beat_map_from seg_idx segments) = length tgt_beat_labels.
Proof.
  revert seg_idx. induction segments as [|seg segments IH]; intros seg_idx; [reflexivity|].
  simpl pt_beat_map_from. rewrite length_zip_with, seg_beat_rows_length, IH. lia.
Qed.

Lemma beat_rows_return {Y} (tgt_beats : list (nat * Z)) (beat : IcentiaBeat.t) tgt_idxs :
  Forall (fun i => (i < length tgt_beats)%nat) tgt_idxs ->
  returns_silently (Y:=Y) (fun l => length l = length tgt_idxs)
    (mapM (fun i =>
             '(seg_idx, beat_idx) ← lift (getitem tgt_beats i);
             label ← lift (subscript HeartBeatMap beat);
             mret (seg_idx, beat_idx, label))
          tgt_idxs).
Proof.
  intros Hidx.
  apply silent_conseq with (Q := fun l => length l = length tgt_idxs
                                         /\ Forall (fun _ => True) l);
    [|intros l [Hlen _]; exact Hlen].
  apply silent_mapM with (Q := fun _ => True). intros i Hi.
  rewrite Forall_forall in Hidx. specialize (Hidx i Hi).
  destruct (tgt_beats !! i) as [[seg_idx beat_idx]|] eqn:Ei.
  2:{ apply lookup_ge_None in Ei. lia. }
  eapply silent_bind.
  { eapply (silent_lift (fun row => row = (seg_idx, beat_idx))); [|reflexivity].
    apply getitem_Some, Ei. }
  intros row ->. simpl.
  destruct (HeartBeatMap beat) as [label|] eqn:El; [|destruct beat; discriminate].
  eapply silent_bind.
  { eapply (silent_lift (fun _ => True) _ label); [|trivial].
    unfold subscript. rewrite El. reflexivity. }
  intros. apply silent_ret. trivial.
Qed.

(** The selection raises [IndexError] when [samples_per_tgt] has no entry
    for one of the classes: every class before it is selected without an
    error, and [samples_per_tgt[tgt_beat_idx]] is read for every class, with
    or without candidates. *)
Lemma selection_raises {Y} samples_per_tgt tgt_beat_idx classes
    (pt_map : list (list (nat * Z))) :
  Forall (fun k => 0 <= k) samples_per_tgt ->
  (tgt_beat_idx <= length samples_per_tgt)%nat ->
  (length samples_per_tgt < tgt_beat_idx + length classes)%nat ->
  (tgt_beat_idx + length classes <= length pt_map)%nat ->
  raises_silently (Y:=Y) IndexError
    (pt_segs_beat_idxs_from samples_per_tgt tgt_beat_idx classes pt_map).
Proof.
  intros Hnn. revert tgt_beat_idx.
  induction classes as [|beat classes IH]; intros tgt_beat_idx Hidx Hshort Hmap;
    simpl in *; [lia|].
  destruct (pt_map !! tgt_beat_idx) as [tgt_beats|] eqn:Eb.
  2:{ apply lookup_ge_None in Eb. lia. }
  eapply raises_bind_r.
  { eapply (silent_lift (fun rows => rows = tgt_beats)); [|reflexivity].
    apply getitem_Some, Eb. }
  intros rows ->.
  destruct (samples_per_tgt !! tgt_beat_idx) as [k|] eqn:Ek.
  - eapply raises_bind_r.
    { eapply (silent_lift (fun k' => k' = k)); [|reflexivity]. apply getitem_Some, Ek. }
    intros k' ->.
    assert (Hk : 0 <= k).
    { rewrite Forall_forall in Hnn. apply Hnn. eapply list_elem_of_lookup_2, Ek. }
    eapply raises_bind_r.
    { apply silent_choice_without_replacement. lia. }
    intros tgt_idxs [_ Hlt].
    eapply raises_bind_r; [apply beat_rows_return, Hlt|].
    intros here _. apply raises_bind_l.
    apply lookup_lt_Some in Ek. apply IH; lia.
  - apply raises_bind_l. unfold getitem. rewrite Ek. apply raises_lift.
Qed.

(** X11.  With an integer [samples_per_patient] below 9 the beat generator
    yields nothing: the allocation [num_per_tgt * [3]] has fewer than three
    entries, and the selection of the first patient raises [IndexError]
    whatever its segments hold. *)
Theorem beat_generator_integer_below_9 frame_size n segments rest o :
  n < 9 ->
  beat_data_generator frame_size (Total n) (segments :: rest) o = ([], Raise IndexError).
Proof.
  intros Hn. revert o. apply raises_for_each. unfold beat_patient.
  apply raises_bind_l. apply selection_raises.
  - unfold samples_per_tgt. apply Forall_forall. intros k Hk.
    apply list_elem_of_In, repeat_spec in Hk. subst. simpl. lia.
  - lia.
  - unfold samples_per_tgt. rewrite repeat_length. simpl.
    assert (n / 3 < 3) by (apply Z.div_lt_upper_bound; lia). lia.
  - unfold pt_beat_map. rewrite pt_beat_map_from_length. simpl. lia.
Qed.

Lemma beat_generator_integer_below_9_witness :
  beat_data_generator 10 (Total 8) [[example_segment]] [] = ([], Raise IndexError).
Proof.
  apply (beat_generator_integer_below_9 10 8 [example_segment] [] []). lia.
Defined.

(** * Further properties of the rhythm generator *)

Lemma lookup_evens {A} (l : list A) k : evens l !! k = l !! (2 * k)%nat.
Proof.
  revert l. induction k as [|k IH]; intros [|x [|y l]]; try reflexivity.
  simpl evens. replace (2 * S k)%nat with (S (S (2 * k))) by lia.
  rewrite !lookup_cons. apply IH.
Qed.

Lemma lookup_odds {A} (l : list A) k : odds l !! k = l !! (2 * k + 1)%nat.
Proof.
  revert l. induction k as [|k IH]; intros [|x [|y l]]; try reflexivity.
  simpl odds. rewrite lookup_cons.
  replace (2 * S k + 1)%nat with (S (S (2 * k + 1))) by lia.
  rewrite !lookup_cons. apply IH.
Qed.

Lemma qualifying_lookup frame_size tgt_class xs xe xl s e :
  (s, e) ∈ qualifying frame_size tgt_class xs xe xl ->
  exists k, xs !! k = Some s /\ xe !! k = Some e
            /\ xl !! k = Some (IcentiaRhythm.value tgt_class)
            /\ frame_size <= e - s.
Proof.
  revert xe xl. induction xs as [|s' xs IH]; intros [|e' xe] [|l' xl] Hin; simpl in Hin;
    try (apply elem_of_nil in Hin; contradiction).
  apply elem_of_app in Hin as [Hin|Hin].
  - unfold qualifies in Hin.
    destruct (Z.leb_spec frame_size (e' - s')); simpl in Hin;
      [|apply elem_of_nil in Hin; contradiction].
    destruct (Z.eqb_spec l' (IcentiaRhythm.value tgt_class));
      [|apply elem_of_nil in Hin; contradiction].
    apply list_elem_of_singleton in Hin. injection Hin as -> ->.
    exists 0%nat. subst. auto.
  - destruct (IH _ _ Hin) as (k & H1 & H2 & H3 & H4). exists (S k). auto.
Qed.

Lemma lookup_columns (rl : list (Z * Z)) i a b :
  rl.*1 !! i = Some a -> rl.*2 !! i = Some b -> rl !! i = Some (a, b).
Proof.
  rewrite !list_lookup_fmap. destruct (rl !! i) as [[a' b']|]; [|discriminate].
  simpl. intros [= <-] [= <-]. reflexivity.
Qed.

Lemma lookup_column1 (rl : list (Z * Z)) i a :
  rl.*1 !! i = Some a -> exists c, rl !! i = Some (a, c).
Proof.
  rewrite list_lookup_fmap. destruct (rl !! i) as [[a' b']|]; [|discriminate].
  simpl. intros [= <-]. eauto.
Qed.

Lemma tgt_rows_intervals frame_size tgt_class rlabels rows s e :
  tgt_rows frame_size tgt_class rlabels = Ok rows -> (s, e) ∈ rows ->
  exists k c,
    rlabels !! (2 * k)%nat = Some (s, IcentiaRhythm.value tgt_class)
    /\ rlabels !! (2 * k + 1)%nat = Some (e, c)
    /\ frame_size <= e - s.
Proof.
  unfold tgt_rows. destruct (_ =? _)%nat.
  - intros [= <-] Hin. apply qualifying_lookup in Hin as (k & H1 & H2 & H3 & H4).
    rewrite lookup_evens in H1, H3. rewrite lookup_odds in H2.
    apply lookup_column1 in H2 as [c H2].
    exists k, c. split; [apply lookup_columns; assumption|]. auto.
  - destruct (evens rlabels.*1) as [|s0 [|s1 [|? ?]]] eqn:Exs; try discriminate;
      destruct (odds rlabels.*1) as [|e0 [|? ?]] eqn:Exe; try discriminate.
    + destruct (evens rlabels.*2); intros [= <-] Hin;
        apply elem_of_nil in Hin; contradiction.
    + destruct (evens rlabels.*2) as [|l0 [|l1 [|? ?]]] eqn:Exl; try discriminate.
      destruct (qualifies frame_size tgt_class s1 e0 l1); [discriminate|].
      unfold qualifies.
      destruct (Z.leb_spec frame_size (e0 - s0)); simpl;
        [|intros [= <-] Hin; apply elem_of_nil in Hin; contradiction].
      destruct (Z.eqb_spec l0 (IcentiaRhythm.value tgt_class));
        intros [= <-] Hin; [|apply elem_of_nil in Hin; contradiction].
      apply list_elem_of_singleton in Hin. injection Hin as -> ->. subst l0.
      assert (H1 : evens rlabels.*1 !! 0%nat = Some s0) by (rewrite Exs; reflexivity).
      assert (H2 : odds rlabels.*1 !! 0%nat = Some e0) by (rewrite Exe; reflexivity).
      assert (H3 : evens rlabels.*2 !! 0%nat = Some (IcentiaRhythm.value tgt_class))
        by (rewrite Exl; reflexivity).
      rewrite lookup_evens in H1, H3. rewrite lookup_odds in H2.
      apply lookup_column1 in H2 as [c H2].
      exists 0%nat, c. split; [apply lookup_columns; assumption|]. auto.
Qed.

Lemma mapM_result_Forall2 {X A} (R : X -> A -> Prop) (f : X -> result A) xs ys :
  (forall x y, x ∈ xs -> f x = Ok y -> R x y) -> mapM f xs = Ok ys -> Forall2 R xs ys.
Proof.
  revert ys. induction xs as [|x xs IH]; simpl; intros ys Hf.
  - intros [= <-]. constructor.
  - destruct (f x) as [y|e] eqn:Ex; [|discriminate]. rewrite bind_Ok.
    destruct (mapM f xs) as [ys'|e]; [|discriminate]. rewrite bind_Ok.
    intros [= <-]. constructor; [apply Hf; [left|exact Ex]|].
    apply IH; [|reflexivity]. intros x' y' Hx'. apply Hf. right. exact Hx'.
Qed.

Lemma seg_tgt_rows_classes frame_size seg_idx seg rowss :
  seg_tgt_rows frame_size seg_idx seg = Ok rowss ->
  Forall2 (fun tgt rows =>
             Forall (fun row => tgt ∈ tgt_labels /\ row.1.1 = seg_idx
                                /\ class_interval frame_size seg tgt row.1.2 row.2) rows)
          tgt_labels rowss.
Proof.
  unfold seg_tgt_rows. destruct (_ =? _)%nat.
  - intros [= <-]. repeat constructor.
  - apply mapM_result_Forall2. intros tgt_class rows' Htgt.
    destruct (tgt_rows _ _ _) as [rows|e] eqn:Erows; [|discriminate].
    rewrite bind_Ok. intros [= <-].
    unfold seg_vals. apply Forall_fmap, Forall_forall. intros [s e] Hin. simpl.
    split; [exact Htgt|]. split; [reflexivity|].
    exact (tgt_rows_intervals _ _ _ _ _ _ Erows Hin).
Qed.

Lemma pt_tgt_seg_map_from_classes frame_size pre segments m :
  pt_tgt_seg_map_from frame_size (length pre) segments = Ok m ->
  Forall2 (fun tgt rows => Forall (class_row_ok frame_size (pre ++ segments) tgt) rows)
          tgt_labels m.
Proof.
  revert pre m. induction segments as [|seg segments IH]; intros pre m; simpl.
  - intros [= <-]. repeat constructor.
  - destruct (seg_tgt_rows _ _ seg) as [rows|e] eqn:Erows; [|discriminate].
    rewrite bind_Ok.
    destruct (pt_tgt_seg_map_from _ _ segments) as [rest|e] eqn:Erest; [|discriminate].
    rewrite bind_Ok. intros [= <-].
    apply Forall2_zip_with_app.
    + apply seg_tgt_rows_classes in Erows.
      eapply Forall2_impl; [exact Erows|]. intros tgt rows' Hrows'.
      eapply Forall_impl; [exact Hrows'|]. intros row (Htgt & Hidx & Hrow).
      split; [exact Htgt|]. exists seg. split; [|exact Hrow].
      rewrite Hidx. apply list_lookup_middle. reflexivity.
    + specialize (IH (pre ++ [seg]) rest).
      rewrite length_app, Nat.add_1_r, <- app_assoc in IH. apply IH, Erest.
Qed.

Lemma spec_weaken {Y A} (P P' : Y -> Prop) (Q : A -> Prop) (g : Gen Y A) :
  gen_spec P Q g -> (forall y, P y -> P' y) -> gen_spec P' Q g.
Proof.
  intros Hg HP o. destruct (Hg o) as [Hy Hr]. split; [|exact Hr].
  eapply Forall_impl; [exact Hy|exact HP].
Qed.

Section RhythmClasses.
Context {Y : Type} (P : Y -> Prop).
Variables (frame_size : Z) (samples_per_tgt : list Z) (segments : list segment).

Lemma tgt_seg_samples_classes tgt_idx tgt_class tgt_segments :
  Forall (class_row_ok frame_size segments tgt_class) tgt_segments ->
  gen_spec P (Forall (class_frame_ok frame_size segments))
           (tgt_seg_samples frame_size samples_per_tgt tgt_idx tgt_class tgt_segments).
Proof.
  intros Hrows. unfold tgt_seg_samples. destruct (_ =? _)%nat.
  { apply spec_ret. constructor. }
  eapply spec_bind; [apply spec_lift with (Q := fun _ => True); trivial|]. intros k _.
  eapply spec_bind; [apply spec_choices|]. intros tgt_seg_indices _.
  apply spec_mapM. intros tgt_seg_idx _.
  eapply spec_bind.
  { apply spec_lift with (Q := fun row => row ∈ tgt_segments).
    intros row. apply getitem_elem_of. }
  intros [[seg_idx rhy_start] rhy_end] Hrow.
  rewrite Forall_forall in Hrows.
  destruct (Hrows _ Hrow) as (Htgt & seg & Hseg & Hint).
  eapply spec_bind; [apply spec_randint|]. intros frame_start Hfs.
  eapply spec_bind.
  { apply spec_lift with (Q := fun label => HeartRhythmMap tgt_class = Some label).
    intros label. unfold subscript. destruct (HeartRhythmMap tgt_class); [|discriminate].
    intros [= <-]. reflexivity. }
  intros label Hlabel. apply spec_ret. exists seg. simpl in *. split; [exact Hseg|].
  exists tgt_class, frame_start, rhy_start, rhy_end.
  repeat split; try assumption; lia.
Qed.

Lemma seg_samples_from_classes tgt_idx classes pt_map :
  (forall j tgt rows, classes !! j = Some tgt ->
                      pt_map !! (tgt_idx + j)%nat = Some rows ->
                      Forall (class_row_ok frame_size segments tgt) rows) ->
  gen_spec P (Forall (class_frame_ok frame_size segments))
           (seg_samples_from frame_size samples_per_tgt tgt_idx classes pt_map).
Proof.
  revert tgt_idx. induction classes as [|tgt_class classes IH]; intros tgt_idx Hmap; simpl.
  { apply spec_ret. constructor. }
  eapply spec_bind.
  { apply spec_lift with (Q := fun rows => pt_map !! tgt_idx = Some rows).
    intros rows. apply getitem_lookup. }
  intros tgt_segments Hrows.
  eapply spec_bind.
  { apply tgt_seg_samples_classes. apply (Hmap 0%nat); [reflexivity|].
    rewrite Nat.add_0_r. exact Hrows. }
  intros here Hhere.
  eapply spec_bind.
  { apply IH. intros j tgt rows Hj Hr. apply (Hmap (S j) tgt rows Hj).
    rewrite Nat.add_succ_r. exact Hr. }
  intros rest Hrest. apply spec_ret. apply Forall_app. split; assumption.
Qed.
End RhythmClasses.

(** Every value the rhythm generator yields for a patient is a window of one
    of the patient's segments, inside an interval of a target class. *)
Lemma rhythm_patient_samples frame_size samples_per_tgt segments :
  gen_spec (rhythm_sample_ok frame_size segments) (fun _ => True)
           (rhythm_patient frame_size samples_per_tgt segments).
Proof.
  unfold rhythm_patient.
  eapply spec_bind.
  { apply spec_lift with
      (Q := fun m => Forall2 (fun tgt rows =>
                                Forall (class_row_ok frame_size segments tgt) rows)
                             tgt_labels m).
    intros m. apply (pt_tgt_seg_map_from_classes frame_size [] segments). }
  intros pt_map Hmap.
  eapply spec_bind.
  { apply seg_samples_from_classes with (segments := segments).
    intros j tgt rows Hj Hrows.
    eapply (Forall2_lookup_lr _ _ _ j tgt rows Hmap); [exact Hj|exact Hrows]. }
  intros seg_samples Hsamples.
  eapply spec_bind; [apply spec_shuffle, Hsamples|]. intros shuffled Hshuffled.
  apply spec_for_each. intros [[[seg_idx frame_start] frame_end] label] Hin.
  rewrite Forall_forall in Hshuffled.
  destruct (Hshuffled _ Hin) as (seg & Hseg & Hwin). simpl in *.
  eapply spec_bind.
  { apply spec_lift with (Q := fun seg' => seg' = seg).
    intros seg' Hget. apply getitem_lookup in Hget. congruence. }
  intros seg' ->. apply spec_yield. split; simpl.
  - eapply list_elem_of_lookup_2, Hseg.
  - exact Hwin.
Qed.

Lemma rhythm_generator_samples frame_size spp patients :
  gen_spec (fun s => exists segments, segments ∈ patients
                                      /\ rhythm_sample_ok frame_size segments s)
           (fun _ => True)
           (rhythm_data_generator frame_size spp patients).
Proof.
  apply spec_for_each. intros segments Hin.
  eapply spec_weaken; [apply rhythm_patient_samples|]. intros s Hs. eauto.
Qed.

(** X12.  Every window the rhythm generator yields lies inside one rhythm
    interval of its segment: two consecutive rows of the rhythm table without
    noise, the first coded normal, afib or aflut, at least [frame_size]
    samples apart; the window is [frame_size] long and the label yielded is
    the label that code is mapped to. *)
Theorem rhythm_windows_in_class_intervals frame_size spp patients o :
  Forall (fun s => window_in_class_interval frame_size (src s) (slices s) (y_of s))
         (yields (rhythm_data_generator frame_size spp patients) o).
Proof.
  eapply Forall_impl;
    [apply (spec_yields_all _ _ _ o (rhythm_generator_samples frame_size spp patients))|].
  intros s (segments & _ & _ & Hs). exact Hs.
Qed.

(** X13.  The rhythm generator yields the labels normal and afib only: an
    aflut interval is yielded under the afib label, and no window is yielded
    under the labels aflut or noise. *)
Theorem rhythm_labels_normal_or_afib frame_size spp patients o :
  Forall (fun s => y_of s = HeartRhythm.normal \/ y_of s = HeartRhythm.afib)
         (yields (rhythm_data_generator frame_size spp patients) o).
Proof.
  eapply Forall_impl;
    [apply (spec_yields_all _ _ _ o (rhythm_generator_samples frame_size spp patients))|].
  intros s (segments & _ & _ & tgt & a & b & e & Htgt & Hlabel & _).
  destruct tgt; simpl in Hlabel; try discriminate; injection Hlabel as <-; auto.
  exfalso. unfold tgt_labels in Htgt.
  repeat (apply elem_of_cons in Htgt as [Htgt|Htgt]; [discriminate|]).
  apply elem_of_nil in Htgt. contradiction.
Qed.

Lemma arrhythmia_row_flags segments seg p c :
  seg ∈ segments -> (p, c) ∈ rlabels seg ->
  c = IcentiaRhythm.value IcentiaRhythm.afib \/ c = IcentiaRhythm.value IcentiaRhythm.aflut ->
  _pt_has_rhythm_arrhythmia segments = true.
Proof.
  intros Hseg Hrow Hc. induction segments as [|seg' segments IH];
    [apply elem_of_nil in Hseg; contradiction|].
  simpl. apply elem_of_cons in Hseg as [<-|Hseg].
  - destruct (rlabels seg) as [|r rl] eqn:Erl; [apply elem_of_nil in Hrow; contradiction|].
    cbn [length Nat.eqb].
    match goal with |- (if negb (length ?h =? 0)%nat then _ else _) = _ =>
      destruct h as [|x h'] eqn:Eh; [|reflexivity] end.
    exfalso.
    assert (Hin : In c (r :: rl).*2).
    { apply list_elem_of_In. apply list_elem_of_fmap. exists (p, c). split; [reflexivity|exact Hrow]. }
    assert (Hf : In c []).
    { rewrite <- Eh. apply filter_In. split; [exact Hin|].
      destruct Hc as [-> | ->]; reflexivity. }
    exact Hf.
  - rewrite (IH Hseg). destruct (_ =? _)%nat; [reflexivity|].
    destruct (negb _); reflexivity.
Qed.

(** X14.  From patients that [_pt_has_rhythm_arrhythmia] does not flag, the
    rhythm generator yields windows under the normal label only. *)
Theorem rhythm_unflagged_patients_normal frame_size spp patients o :
  Forall (fun segments => _pt_has_rhythm_arrhythmia segments = false) patients ->
  Forall (fun s => y_of s = HeartRhythm.normal)
         (yields (rhythm_data_generator frame_size spp patients) o).
Proof.
  intros Hflags.
  eapply Forall_impl;
    [apply (spec_yields_all _ _ _ o (rhythm_generator_samples frame_size spp patients))|].
  intros s (segments & Hpt & Hsrc & tgt & a & b & e & Htgt & Hlabel & _ & Hint & _).
  rewrite Forall_forall in Hflags. specialize (Hflags _ Hpt).
  destruct Hint as (k & c & Hs & _).
  assert (Hrow : (b, IcentiaRhythm.value tgt) ∈ rlabels (src s)).
  { apply list_elem_of_lookup_2 in Hs. apply list_elem_of_In in Hs.
    apply filter_In in Hs as [Hs _]. apply list_elem_of_In, Hs. }
  destruct tgt; simpl in Hlabel; try discriminate; injection Hlabel as <-;
    try reflexivity; exfalso.
  - unfold tgt_labels in Htgt.
    repeat (apply elem_of_cons in Htgt as [Htgt|Htgt]; [discriminate|]).
    apply elem_of_nil in Htgt. contradiction.
  - rewrite (arrhythmia_row_flags _ _ _ _ Hsrc Hrow) in Hflags by (left; reflexivity).
    discriminate.
  - rewrite (arrhythmia_row_flags _ _ _ _ Hsrc Hrow) in Hflags by (right; reflexivity).
    discriminate.
Qed.

Lemma rhythm_unflagged_patients_normal_witness :
  Forall (fun s : sample HeartRhythm.t => y_of s = HeartRhythm.normal)
         (yields (rhythm_data_generator 5 (PerClass [1; 1; 1]) [[short_segment]])
                 [0; 3]%nat).
Proof.
  apply (rhythm_unflagged_patients_normal 5 (PerClass [1; 1; 1]) [[short_segment]]
           [0; 3]%nat).
  repeat constructor.
Defined.

(** ** The number of windows the rhythm generator yields *)

Section RhythmRuns.
Context {Y : Type}.
Variables (frame_size : Z) (samples_per_tgt : list Z) (segments : list segment).



End RhythmRuns.






(** * Further properties of the beat generator *)

Lemma seg_beat_rows_kept seg_idx seg :
  Forall2 (fun beat rows =>
             Forall (fun row => row.1 = seg_idx /\ kept_target seg beat row.2) rows)
          tgt_beat_labels (seg_beat_rows seg_idx seg).
Proof.
  unfold seg_beat_rows. destruct (_ <=? _)%nat; [repeat constructor|].
  destruct (too_few_normal _) eqn:Enormal; [repeat constructor|].
  apply Forall2_fmap_r, Forall_Forall2_diag, Forall_forall. intros beat Hbeat.
  eapply Forall_impl; [apply tgt_beat_rows_ok|]. intros row [Hidx Htarget].
  split; [exact Hidx|]. repeat split; assumption.
Qed.

Lemma pt_beat_map_from_kept pre segments :
  Forall2 (fun beat rows =>
             Forall (fun row => exists seg, (pre ++ segments) !! row.1 = Some seg
                                            /\ kept_target seg beat row.2) rows)
          tgt_beat_labels (pt_beat_map_from (length pre) segments).
Proof.
  revert pre. induction segments as [|seg segments IH]; intros pre; simpl.
  - repeat constructor.
  - apply (Forall2_zip_with_app
             (fun beat row => exists seg', (pre ++ seg :: segments) !! row.1 = Some seg'
                                           /\ kept_target seg' beat row.2)).
    + eapply Forall2_impl; [apply seg_beat_rows_kept|]. intros beat rows Hrows.
      eapply Forall_impl; [exact Hrows|]. intros row [Hidx Hrow].
      exists seg. split; [|exact Hrow]. rewrite Hidx. apply list_lookup_middle. reflexivity.
    + specialize (IH (pre ++ [seg])).
      rewrite length_app, Nat.add_1_r, <- app_assoc in IH. exact IH.
Qed.

Section BeatTargets.
Context {Y : Type} (P : Y -> Prop).
Variables (samples_per_tgt : list Z) (segments : list segment).

Lemma pt_segs_beat_idxs_from_kept tgt_beat_idx classes pt_map :
  (forall j beat rows, classes !! j = Some beat ->
                       pt_map !! (tgt_beat_idx + j)%nat = Some rows ->
                       Forall (fun row => exists seg, segments !! row.1 = Some seg
                                                      /\ kept_target seg beat row.2) rows) ->
  gen_spec P (Forall (fun t => exists seg beat, segments !! t.1.1 = Some seg
                                                /\ HeartBeatMap beat = Some t.2
                                                /\ kept_target seg beat t.1.2))
           (pt_segs_beat_idxs_from samples_per_tgt tgt_beat_idx classes pt_map).
Proof.
  revert tgt_beat_idx. induction classes as [|beat classes IH]; intros tgt_beat_idx Hmap; simpl.
  { apply spec_ret. constructor. }
  eapply spec_bind.
  { apply spec_lift with (Q := fun rows => pt_map !! tgt_beat_idx = Some rows).
    intros rows. apply getitem_lookup. }
  intros tgt_beats Hrows.
  pose proof (Hmap 0%nat beat tgt_beats eq_refl) as Hok.
  rewrite Nat.add_0_r in Hok. specialize (Hok Hrows).
  eapply spec_bind; [apply spec_lift with (Q := fun _ => True); trivial|]. intros k _.
  eapply spec_bind; [apply spec_choice_without_replacement|]. intros tgt_idxs _.
  eapply spec_bind.
  { apply spec_mapM with
      (Q := fun t => exists seg beat, segments !! t.1.1 = Some seg
                                      /\ HeartBeatMap beat = Some t.2
                                      /\ kept_target seg beat t.1.2).
    intros i _.
    eapply spec_bind.
    { apply spec_lift with (Q := fun row => row ∈ tgt_beats).
      intros row. apply getitem_elem_of. }
    intros [seg_idx beat_idx] Hrow.
    eapply spec_bind.
    { apply spec_lift with (Q := fun label => HeartBeatMap beat = Some label).
      intros label. unfold subscript. destruct (HeartBeatMap beat); [|discriminate].
      intros [= <-]. reflexivity. }
    intros label Hlabel. apply spec_ret.
    rewrite Forall_forall in Hok. destruct (Hok _ Hrow) as (seg & Hseg & Htarget).
    exists seg, beat. auto. }
  intros here Hhere.
  eapply spec_bind.
  { apply IH. intros j beat' rows Hj Hr. apply (Hmap (S j) beat' rows Hj).
    rewrite Nat.add_succ_r. exact Hr. }
  intros rest Hrest. apply spec_ret. apply Forall_app. split; assumption.
Qed.

Lemma spec_uniform_offset frame_size :
  gen_spec P (offset_of frame_size) (uniform_offset frame_size).
Proof.
  unfold uniform_offset. eapply spec_bind; [apply spec_draw|]. intros r _.
  apply spec_ret. unfold offset_of.
  pose proof (Z.mod_pos_bound (Z.of_nat r)
                (Z.abs (Z.quot (6 * frame_size) 10 - Z.quot (4 * frame_size) 10) + 1)).
  lia.
Qed.
End BeatTargets.

Lemma beat_patient_samples frame_size samples_per_tgt segments :
  gen_spec (beat_sample_ok frame_size segments) (fun _ => True)
           (beat_patient frame_size samples_per_tgt segments).
Proof.
  unfold beat_patient.
  eapply spec_bind.
  { apply pt_segs_beat_idxs_from_kept with (segments := segments).
    intros j beat rows Hj Hrows.
    eapply (Forall2_lookup_lr _ _ _ j beat rows (pt_beat_map_from_kept [] segments));
      [exact Hj|exact Hrows]. }
  intros selected Hsel.
  eapply spec_bind; [apply spec_shuffle, Hsel|]. intros shuffled Hshuffled.
  apply spec_for_each. intros [[seg_idx beat_idx] label] Hin.
  rewrite Forall_forall in Hshuffled.
  destruct (Hshuffled _ Hin) as (seg & beat & Hseg & Hlabel & Htarget). simpl in *.
  eapply spec_bind; [apply spec_uniform_offset|]. intros off Hoff.
  eapply spec_bind.
  { apply spec_lift with (Q := fun seg' => seg' = seg).
    intros seg' Hget. apply getitem_lookup in Hget. congruence. }
  intros seg' ->.
  destruct (beat_frame frame_size seg beat_idx off) as [[[frame_start frame_end] avg_rr]|] eqn:Eframe.
  2:{ apply spec_ret. trivial. }
  eapply spec_bind; [apply spec_lift with (Q := fun _ => True); trivial|].
  intros x _. apply spec_yield. split; simpl.
  - eapply list_elem_of_lookup_2, Hseg.
  - exists beat, beat_idx. split; [exact Hlabel|]. split; [exact Htarget|].
    exists off. split; [exact Hoff|]. simpl.
    apply beat_frame_inv in Eframe as (-> & -> & _). reflexivity.
Qed.

Lemma beat_generator_samples frame_size spp patients :
  gen_spec (fun s => exists segments, segments ∈ patients
                                      /\ beat_sample_ok frame_size segments s)
           (fun _ => True)
           (beat_data_generator frame_size spp patients).
Proof.
  apply spec_for_each. intros segments Hin.
  eapply spec_weaken; [apply beat_patient_samples|]. intros s Hs. eauto.
Qed.

Lemma kept_target_position seg beat beat_idx :
  beat_target seg beat beat_idx ->
  exists i,
    blabels seg !! i = Some (beat_idx, IcentiaBeat.value beat)
    /\ (blabel_padding <= i)%nat
    /\ (i + blabel_padding < length (blabels seg))%nat
    /\ neighbors_ok (blabels seg) beat i = true.
Proof.
  intros (i & c & Hi & Hlook). unfold tgt_beat_positions in Hi.
  apply list_elem_of_In, filter_In in Hi as [Hi Hnb].
  unfold beat_idxs in Hi. apply filter_In in Hi as [Hseq Hcode].
  apply in_seq in Hseq. apply code_eqb_lookup in Hcode as [b Hb].
  rewrite Hlook in Hb. injection Hb as <- ->.
  exists i. split; [exact Hlook|]. unfold blabel_padding in *. repeat split; try lia.
  exact Hnb.
Qed.

Lemma target_position seg beat beat_idx :
  beat_target seg beat beat_idx ->
  exists i, i ∈ tgt_beat_positions (blabels seg) beat
            /\ blabels seg !! i = Some (beat_idx, IcentiaBeat.value beat).
Proof.
  intros (i & c & Hi & Hlook). exists i. split; [exact Hi|].
  unfold tgt_beat_positions in Hi. apply list_elem_of_In, filter_In in Hi as [Hi _].
  unfold beat_idxs in Hi. apply filter_In in Hi as [_ Hcode].
  apply code_eqb_lookup in Hcode as [b Hb]. congruence.
Qed.

Lemma normal_positions blabels i :
  i ∈ tgt_beat_positions blabels IcentiaBeat.normal -> normal_neighbors blabels i.
Proof.
  intros Hi. unfold tgt_beat_positions in Hi.
  apply list_elem_of_In, filter_In in Hi as [Hi Hnb].
  unfold beat_idxs in Hi. apply filter_In in Hi as [Hseq Hcode].
  apply in_seq in Hseq. unfold blabel_padding in Hseq.
  unfold neighbors_ok in Hnb. apply andb_true_iff in Hnb as [Hl Hr].
  apply code_eqb_lookup in Hcode as [b Hb], Hl as [l Hl], Hr as [r Hr].
  split; [lia|]. exists l, b, r. auto.
Qed.

(** C9.  The positions of a beat table the generator keeps as normal targets
    are rows coded normal between two rows coded normal, every one of them;
    and every value yielded under the normal label is framed on the marker
    of such a position of its segment: the middle window starts between
    [int(0.4 * frame_size)] and [int(0.6 * frame_size)] samples before that
    marker, or at the start of the signal. *)
Theorem normal_label_between_normal_beats frame_size spp patients o s :
  s ∈ yields (beat_data_generator frame_size spp patients) o ->
  y_of s = HeartBeat.normal ->
  (exists i beat_idx,
     i ∈ tgt_beat_positions (blabels (src s)) IcentiaBeat.normal
     /\ blabels (src s) !! i = Some (beat_idx, IcentiaBeat.value IcentiaBeat.normal)
     /\ centered_on frame_size s beat_idx)
  /\ forall j, j ∈ tgt_beat_positions (blabels (src s)) IcentiaBeat.normal ->
                normal_neighbors (blabels (src s)) j.
Proof.
  intros Hin Hnormal. split; [|intros j; apply normal_positions].
  destruct (spec_yields _ _ _ _ _ (beat_generator_samples frame_size spp patients) Hin)
    as (segments & _ & _ & beat & beat_idx & Hlabel & (_ & _ & Htarget) & Hframe).
  rewrite Hnormal in Hlabel.
  assert (beat = IcentiaBeat.normal) as -> by (destruct beat; simpl in Hlabel; congruence).
  apply target_position in Htarget as (i & Hi & Hlook).
  exists i, beat_idx. auto.
Qed.

Lemma normal_label_between_normal_beats_witness :
  (exists i beat_idx,
     i ∈ tgt_beat_positions (blabels (src example_beat_sample)) IcentiaBeat.normal
     /\ blabels (src example_beat_sample) !! i
        = Some (beat_idx, IcentiaBeat.value IcentiaBeat.normal)
     /\ centered_on 10 example_beat_sample beat_idx)
  /\ forall j, j ∈ tgt_beat_positions (blabels (src example_beat_sample)) IcentiaBeat.normal ->
                normal_neighbors (blabels (src example_beat_sample)) j.
Proof.
  apply (normal_label_between_normal_beats 10 (PerClass [1; 1; 1]) [[example_segment]] []
                                           example_beat_sample).
  - vm_compute. left.
  - reflexivity.
Defined.

(** X16.  Every window the beat generator yields is labelled normal, pac or
    pvc, never noise: the label is the one mapped to the code of the beat
    marker the middle window is framed on, and that code is one of the three
    target classes. *)
Theorem beat_labels_of_target_markers frame_size spp patients o :
  Forall (fun s =>
            y_of s <> HeartBeat.noise
            /\ exists beat i beat_idx,
                 beat ∈ tgt_beat_labels
                 /\ HeartBeatMap beat = Some (y_of s)
                 /\ blabels (src s) !! i = Some (beat_idx, IcentiaBeat.value beat)
                 /\ centered_on frame_size s beat_idx)
         (yields (beat_data_generator frame_size spp patients) o).
Proof.
  eapply Forall_impl;
    [apply (spec_yields_all _ _ _ o (beat_generator_samples frame_size spp patients))|].
  intros s (segments & _ & _ & beat & beat_idx & Hlabel & (Hbeat & _ & Htarget) & Hframe).
  split.
  - unfold tgt_beat_labels in Hbeat.
    repeat (apply elem_of_cons in Hbeat as [->|Hbeat];
            [simpl in Hlabel; injection Hlabel as <-; discriminate|]).
    apply elem_of_nil in Hbeat. contradiction.
  - apply kept_target_position in Htarget as (i & Hi & _).
    exists beat, i, beat_idx. auto.
Qed.

(** X17.  The marker a yielded window is framed on has at least 20 markers
    before it and 20 after it in the beat table of its segment
    ([blabel_padding]), and neither of its two neighbors is coded
    undefined. *)
Theorem beat_targets_padded frame_size spp patients o :
  Forall (fun s =>
            exists i beat_idx c,
              blabels (src s) !! i = Some (beat_idx, c)
              /\ centered_on frame_size s beat_idx
              /\ (20 <= i)%nat
              /\ (i + 20 < length (blabels (src s)))%nat
              /\ code_eqb (blabels (src s)) (i - 1)
                          (IcentiaBeat.value IcentiaBeat.undefined) = false
              /\ code_eqb (blabels (src s)) (i + 1)
                          (IcentiaBeat.value IcentiaBeat.undefined) = false)
         (yields (beat_data_generator frame_size spp patients) o).
Proof.
  eapply Forall_impl;
    [apply (spec_yields_all _ _ _ o (beat_generator_samples frame_size spp patients))|].
  intros s (segments & _ & _ & beat & beat_idx & _ & (_ & _ & Htarget) & Hframe).
  apply kept_target_position in Htarget as (i & Hi & Hlo & Hhi & Hnb).
  exists i, beat_idx, (IcentiaBeat.value beat). unfold blabel_padding in *.
  repeat split; try assumption.
  - destruct beat; simpl in Hnb; apply andb_true_iff in Hnb as [Hl _];
      try (apply negb_true_iff in Hl; exact Hl).
    unfold code_eqb in *. destruct (blabels (src s) !! (i - 1)%nat) as [[? c]|]; [|reflexivity].
    apply Z.eqb_eq in Hl. subst c. reflexivity.
  - destruct beat; simpl in Hnb; apply andb_true_iff in Hnb as [_ Hr];
      try (apply negb_true_iff in Hr; exact Hr).
    unfold code_eqb in *. destruct (blabels (src s) !! (i + 1)%nat) as [[? c]|]; [|reflexivity].
    apply Z.eqb_eq in Hr. subst c. reflexivity.
Qed.

(** X18.  The beat generator yields no window from a segment in which fewer
    than a quarter of the beat markers are coded normal, nor from a segment
    with fewer than 41 markers. *)
Theorem beat_segments_mostly_normal frame_size spp patients o :
  Forall (fun s =>
            Z.of_nat (length (blabels (src s)))
              <= 4 * count_of (IcentiaBeat.value IcentiaBeat.normal) (blabels (src s)).*2
            /\ (41 <= length (blabels (src s)))%nat)
         (yields (beat_data_generator frame_size spp patients) o).
Proof.
  eapply Forall_impl;
    [apply (spec_yields_all _ _ _ o (beat_generator_samples frame_size spp patients))|].
  intros s (segments & _ & _ & beat & beat_idx & _ & (_ & Hnormal & Htarget) & _).
  apply kept_target_position in Htarget as (i & _ & Hlo & Hhi & _).
  unfold blabel_padding in *. split; [|lia].
  unfold too_few_normal in Hnormal. apply Z.ltb_ge in Hnormal. exact Hnormal.
Qed.

(** X19.  For a positive [frame_size], the beat marker a yielded window is
    framed on (a position kept for the class of the label yielded, the
    middle window starting between 0.4 and 0.6 of [frame_size] before it, or
    at sample 0) lies inside the middle window when its sample index is not
    negative. *)
Theorem beat_marker_in_middle_window frame_size spp patients o :
  0 < frame_size ->
  Forall (fun s =>
            exists beat i beat_idx frame_start,
              HeartBeatMap beat = Some (y_of s)
              /\ i ∈ tgt_beat_positions (blabels (src s)) beat
              /\ blabels (src s) !! i = Some (beat_idx, IcentiaBeat.value beat)
              /\ centered_on frame_size s beat_idx
              /\ slices s !! 1%nat = Some (frame_start, frame_start + frame_size)
              /\ (0 <= beat_idx -> frame_start <= beat_idx < frame_start + frame_size))
         (yields (beat_data_generator frame_size spp patients) o).
Proof.
  intros Hfs.
  eapply Forall_impl;
    [apply (spec_yields_all _ _ _ o (beat_generator_samples frame_size spp patients))|].
  intros s (segments & _ & _ & beat & beat_idx & Hlabel & (_ & _ & Htarget) & Hcentered).
  apply target_position in Htarget as (i & Hi & Hlook).
  pose proof Hcentered as (off & Hoff & Hsl).
  exists beat, i, beat_idx, (Z.max 0 (beat_idx - off)).
  repeat split; try assumption.
  - destruct Hoff as [Hlo _].
    pose proof (Z.quot_pos (4 * frame_size) 10). pose proof (Z.quot_pos (6 * frame_size) 10).
    lia.
  - destruct Hoff as [_ Hhi].
    assert (Z.quot (4 * frame_size) 10 < frame_size)
      by (apply Z.quot_lt_upper_bound; lia).
    assert (Z.quot (6 * frame_size) 10 < frame_size)
      by (apply Z.quot_lt_upper_bound; lia).
    lia.
Qed.

Lemma beat_marker_in_middle_window_witness :
  Forall (fun s : sample HeartBeat.t =>
            exists beat i beat_idx frame_start,
              HeartBeatMap beat = Some (y_of s)
              /\ i ∈ tgt_beat_positions (blabels (src s)) beat
              /\ blabels (src s) !! i = Some (beat_idx, IcentiaBeat.value beat)
              /\ centered_on 10 s beat_idx
              /\ slices s !! 1%nat = Some (frame_start, frame_start + 10)
              /\ (0 <= beat_idx -> frame_start <= beat_idx < frame_start + 10))
         example_beat_run.
Proof.
  apply (beat_marker_in_middle_window 10 (PerClass [1; 1; 1]) [[example_segment]] []).
  lia.
Defined.

(** ** The number of windows the beat generator yields *)

Section AtMost.
Context {Y : Type}.

Lemma at_most_bind {A B} (Q : A -> Prop) n (m : Gen Y A) (k : A -> Gen Y B) :
  gen_spec (fun _ => False) Q m -> (forall a, Q a -> yields_at_most n (k a)) ->
  yields_at_most n (m ≫= k).
Proof.
  intros Hm Hk o. destruct (Hm o) as [Hy Hr]. unfold yields, mbind, gen_bind.
  destruct (m o) as [ys [[a o1]|e]]; simpl in *.
  - specialize (Hk a (Hr a o1 eq_refl) o1). unfold yields in Hk.
    destruct (k a o1) as [zs r]. simpl in *.
    destruct ys as [|y ys]; [exact Hk|]. inversion Hy as [|? ? []].
  - destruct ys as [|y ys]; [simpl; lia|]. inversion Hy as [|? ? []].
Qed.

Lemma at_most_ret {A} n (a : A) : yields_at_most (Y:=Y) n (mret a).
Proof. intros o. unfold yields. simpl. lia. Qed.

Lemma at_most_yield (y : Y) : yields_at_most 1 (yield y).
Proof. intros o. unfold yields. simpl. lia. Qed.

Lemma at_most_for_each {X} n (xs : list X) (body : X -> Gen Y unit) :
  (forall x, x ∈ xs -> yields_at_most n (body x)) ->
  yields_at_most (length xs * n) (for_each xs body).
Proof.
  induction xs as [|x xs IH]; intros Hbody o; [unfold yields; simpl; lia|].
  pose proof (Hbody x ltac:(left) o) as Hx. unfold yields in *.
  simpl. unfold mbind, gen_bind.
  destruct (body x o) as [ys [[[] o1]|e]]; simpl in *; [|lia].
  specialize (IH ltac:(intros x' Hx'; apply Hbody; right; exact Hx') o1).
  unfold yields in IH.
  destruct (for_each xs body o1) as [zs r]. simpl in *. rewrite length_app. lia.
Qed.

Context (P : Y -> Prop).

Lemma spec_mapM_length {X A} (f : X -> Gen Y A) (xs : list X) :
  (forall x, gen_spec P (fun _ => True) (f x)) ->
  gen_spec P (fun l => length l = length xs) (mapM f xs).
Proof.
  intros Hf. induction xs as [|x xs IH]; simpl.
  - apply spec_ret. reflexivity.
  - eapply spec_bind; [apply Hf|]. intros a _.
    eapply spec_bind; [apply IH|]. intros l Hl. apply spec_ret. simpl. congruence.
Qed.

Lemma spec_shuffle_length {A} (x : list A) :
  gen_spec P (fun l => length l = length x) (shuffle x).
Proof.
  unfold shuffle. generalize (length x - 1)%nat as i. intros i. revert x.
  induction i as [|i IH]; intros x; simpl.
  - apply spec_ret. reflexivity.
  - eapply spec_bind with (Q := fun _ => True).
    + eapply spec_bind; [apply spec_draw|]. intros. apply spec_ret. trivial.
    + intros j _. eapply spec_conseq; [apply IH|].
      intros l Hl. rewrite Hl. apply swap_length.
Qed.

Lemma spec_choice_without_replacement_length n size :
  gen_spec P (fun l => (length l <= Z.to_nat size)%nat) (choice_without_replacement n size).
Proof.
  unfold choice_without_replacement.
  destruct (_ <? _); [apply spec_lift; intros; discriminate|].
  destruct (_ <? _); [apply spec_lift; intros; discriminate|].
  eapply spec_bind; [apply spec_shuffle_length|].
  intros idx _. apply spec_ret. rewrite length_take. lia.
Qed.

Lemma pt_segs_beat_idxs_from_length samples_per_tgt tgt_beat_idx classes pt_map :
  gen_spec P (fun l => (length l <= sum_list (Z.to_nat <$> take (length classes)
                                                (drop tgt_beat_idx samples_per_tgt)))%nat)
           (pt_segs_beat_idxs_from samples_per_tgt tgt_beat_idx classes pt_map).
Proof.
  revert tgt_beat_idx. induction classes as [|beat classes IH]; intros tgt_beat_idx; simpl.
  { apply spec_ret. simpl. lia. }
  eapply spec_bind; [apply spec_lift with (Q := fun _ => True); trivial|].
  intros tgt_beats _.
  eapply spec_bind.
  { apply spec_lift with (Q := fun k => samples_per_tgt !! tgt_beat_idx = Some k).
    intros k. apply getitem_lookup. }
  intros k Hk.
  eapply spec_bind; [apply spec_choice_without_replacement_length|]. intros tgt_idxs Hidxs.
  eapply spec_bind.
  { apply spec_mapM_length. intros i.
    eapply spec_bind; [apply spec_lift with (Q := fun _ => True); trivial|].
    intros [seg_idx beat_idx] _.
    eapply spec_bind; [apply spec_lift with (Q := fun _ => True); trivial|].
    intros label _. apply spec_ret. trivial. }
  intros here Hhere.
  eapply spec_bind; [apply (IH (S tgt_beat_idx))|]. intros rest Hrest.
  apply spec_ret. cbv beta in Hk, Hidxs, Hhere, Hrest.
  rewrite length_app, (drop_S _ _ _ Hk).
  change (length here + length rest
          <= Z.to_nat k + sum_list (Z.to_nat <$> take (length classes)
                                      (drop (S tgt_beat_idx) samples_per_tgt)))%nat.
  lia.
Qed.
End AtMost.

Lemma beat_patient_at_most frame_size samples_per_tgt segments :
  yields_at_most (sum_list (Z.to_nat <$> take 3 samples_per_tgt))
                 (beat_patient frame_size samples_per_tgt segments).
Proof.
  unfold beat_patient.
  eapply at_most_bind; [apply pt_segs_beat_idxs_from_length|]. intros selected Hsel.
  rewrite drop_0 in Hsel. change (length tgt_beat_labels) with 3%nat in Hsel.
  eapply at_most_bind; [apply spec_shuffle_length|]. intros shuffled Hshuffled.
  intros o. etransitivity; [|exact Hsel]. rewrite <- Hshuffled, <- (Nat.mul_1_r (length shuffled)).
  apply at_most_for_each. intros [[seg_idx beat_idx] label] _.
  eapply at_most_bind; [apply spec_uniform_offset|]. intros off _.
  eapply at_most_bind; [apply spec_lift with (Q := fun _ => True); trivial|]. intros seg _.
  destruct (beat_frame frame_size seg beat_idx off) as [[[frame_start frame_end] avg_rr]|].
  - eapply at_most_bind; [apply spec_lift with (Q := fun _ => True); trivial|].
    intros x _. apply at_most_yield.
  - apply at_most_ret.
Qed.

(** X20.  For every patient the beat generator yields at most as many
    windows as the first three entries of [samples_per_tgt] add up to: a
    selected beat whose frame is skipped is not replaced.  With an integer
    [samples_per_patient = n] the entries are 3 each, so no patient gives
    more than 9 windows however large [n] is. *)
Theorem beat_generator_yields_at_most frame_size spp patients o :
  (length (yields (beat_data_generator frame_size spp patients) o)
   <= length patients
      * sum_list (Z.to_nat <$> take 3 (samples_per_tgt tgt_beat_labels spp)))%nat.
Proof.
  apply at_most_for_each. intros segments _. apply beat_patient_at_most.
Qed.

(** * [HeartRate.from_bpm] and the heart-rate label *)

(** ** The binary64 arithmetic *)

Lemma scaled_ge n d e :
  e <= Z.log2 (Z.pos n) - Z.log2 (Z.pos d) - 1 ->
  0 < snd (scaled n d e) <= fst (scaled n d e).
Proof.
  intros He.
  destruct (Z.log2_spec (Z.pos n) ltac:(lia)) as [Hn _].
  destruct (Z.log2_spec (Z.pos d) ltac:(lia)) as [_ Hd].
  pose proof (Z.log2_nonneg (Z.pos n)) as Hln.
  pose proof (Z.log2_nonneg (Z.pos d)) as Hld.
  unfold scaled. destruct (Z.leb_spec 0 e); cbn [fst snd].
  - assert (Hpow : 0 < 2 ^ e) by (apply Z.pow_pos_nonneg; lia).
    assert (Hle : 2 ^ (Z.succ (Z.log2 (Z.pos d)) + e) <= 2 ^ Z.log2 (Z.pos n))
      by (apply Z.pow_le_mono_r; lia).
    rewrite Z.pow_add_r in Hle by lia. nia.
  - assert (Hpow : 0 < 2 ^ (- e)) by (apply Z.pow_pos_nonneg; lia).
    assert (Hle : 2 ^ Z.succ (Z.log2 (Z.pos d)) <= 2 ^ (Z.log2 (Z.pos n) + - e))
      by (apply Z.pow_le_mono_r; lia).
    rewrite Z.pow_add_r in Hle by lia. nia.
Qed.

Lemma round_half_even_pos a b : 0 < b <= a -> 0 < round_half_even a b.
Proof.
  intros Hab. pose proof (Z.div_str_pos a b Hab) as Hq. unfold round_half_even.
  destruct (_ <? _); [exact Hq|]. destruct (_ <? _); [lia|].
  destruct (Z.even _); lia.
Qed.

Lemma round_pos_num n d : 0 < Qnum (round_pos n d).
Proof.
  unfold round_pos.
  set (k := Z.log2 (Z.pos n) - Z.log2 (Z.pos d)).
  set (e := if _ <=? _ then k - 53 + 1 else k - 53).
  assert (He : e <= k - 1) by (unfold e; destruct (_ <=? _); lia).
  pose proof (round_half_even_pos _ _ (scaled_ge n d e He)) as Hm.
  destruct (Z.leb_spec 0 e); cbn [Qnum inject_Z].
  - assert (0 < 2 ^ e) by (apply Z.pow_pos_nonneg; lia). nia.
  - exact Hm.
Qed.

(** Rounding keeps the sign: a number that is not zero is not rounded to
    zero (the exponent has no lower end). *)
Lemma round64_nonzero q : Qeq_bool q 0 = false -> Qeq_bool (round64 q) 0 = false.
Proof.
  unfold Qeq_bool, round64. cbn [Qnum Qden]. rewrite !Z.mul_1_r.
  destruct (Qnum q) as [|n|n]; [intros H; exact H| |]; intros _.
  - pose proof (round_pos_num n (Qden q)). apply Z.eqb_neq. lia.
  - pose proof (round_pos_num n (Qden q)). cbn [Qopp Qnum]. apply Z.eqb_neq. lia.
Qed.

Lemma of_int_finite z : finite (of_int z).
Proof. eexists. reflexivity. Qed.

Lemma of_int_nonzero z : z <> 0 -> exists q, of_int z = Fin q /\ Qeq_bool q 0 = false.
Proof.
  intros Hz. eexists. split; [reflexivity|]. apply round64_nonzero.
  unfold Qeq_bool. cbn [Qnum Qden inject_Z]. apply Z.eqb_neq. lia.
Qed.

Lemma fadd_finite x y : finite x -> finite y -> finite (fadd x y).
Proof. intros [a ->] [b ->]. eexists. reflexivity. Qed.

Lemma fdiv_finite x q b :
  finite x -> Qeq_bool b 0 = false -> q = Fin b -> finite (fdiv x q).
Proof. intros [a ->] Hb ->. simpl. rewrite Hb. eexists. reflexivity. Qed.

Lemma fold_left_fadd_finite a x :
  Forall finite a -> finite x -> finite (fold_left fadd a x).
Proof.
  intros Ha. revert x. induction Ha as [|y a Hy _ IH]; intros x Hx; [exact Hx|].
  simpl. apply IH, fadd_finite; assumption.
Qed.

Lemma zip_with_fadd_finite r a :
  Forall finite r -> Forall finite a -> Forall finite (zip_with fadd r a).
Proof.
  intros Hr. revert a. induction Hr as [|x r Hx _ IH]; intros a Ha; [constructor|].
  destruct Ha as [|y a Hy Ha]; [constructor|]. simpl.
  constructor; [apply fadd_finite; assumption|apply IH, Ha].
Qed.

Lemma add_blocks_finite blocks r a :
  Forall finite r -> Forall finite a ->
  Forall finite (add_blocks r a blocks).1 /\ Forall finite (add_blocks r a blocks).2.
Proof.
  revert r a. induction blocks as [|blocks IH]; intros r a Hr Ha; [split; assumption|].
  simpl. apply IH.
  - apply zip_with_fadd_finite; [exact Hr|apply Forall_take, Ha].
  - apply Forall_drop, Ha.
Qed.

Lemma sum_block_finite a : Forall finite a -> finite (sum_block a).
Proof.
  intros Ha. unfold sum_block.
  destruct (add_blocks_finite (length a / 8 - 1) (take 8 a) (drop 8 a)) as [Hr Hrest];
    [apply Forall_take, Ha|apply Forall_drop, Ha|].
  destruct (add_blocks _ _ _) as [r rest]. cbn [fst snd] in Hr, Hrest.
  assert (Hplain : finite (fold_left fadd a (Fin 0)))
    by (apply fold_left_fadd_finite; [exact Ha|eexists; reflexivity]).
  destruct r as [|r0 [|r1 [|r2 [|r3 [|r4 [|r5 [|r6 [|r7 [|? ?]]]]]]]]]; try exact Hplain.
  repeat match goal with H : Forall finite (_ :: _) |- _ => inversion_clear H end.
  apply fold_left_fadd_finite; [exact Hrest|]. repeat apply fadd_finite; assumption.
Qed.

Lemma pairwise_sum_finite a : Forall finite a -> finite (pairwise_sum a).
Proof.
  unfold pairwise_sum. generalize (length a) as fuel. intros fuel. revert a.
  induction fuel as [|fuel IH]; intros a Ha; cbn [pairwise_sum_from].
  - destruct (_ <? _)%nat; [apply fold_left_fadd_finite; [exact Ha|eexists; reflexivity]|].
    destruct (_ <=? _)%nat; [apply sum_block_finite, Ha|].
    apply fold_left_fadd_finite; [exact Ha|eexists; reflexivity].
  - destruct (_ <? _)%nat; [apply fold_left_fadd_finite; [exact Ha|eexists; reflexivity]|].
    destruct (_ <=? _)%nat; [apply sum_block_finite, Ha|].
    apply fadd_finite; apply IH; [apply Forall_take, Ha|apply Forall_drop, Ha].
Qed.

(** The length of the array is fuel enough for the splitting. *)
Lemma pairwise_sum_from_enough fuel a :
  (length a <= fuel)%nat -> pairwise_sum_from fuel a = pairwise_sum a.
Proof.
  unfold pairwise_sum.
  assert (H : forall f1 f2 a', (length a' <= f1)%nat -> (length a' <= f2)%nat ->
                               pairwise_sum_from f1 a' = pairwise_sum_from f2 a').
  { induction f1 as [|f1 IH]; intros f2 a' H1 H2.
    - destruct a'; [|simpl in H1; lia]. destruct f2; reflexivity.
    - destruct f2 as [|f2]; [destruct a'; [reflexivity|simpl in H2; lia]|].
      cbn [pairwise_sum_from].
      destruct (Nat.ltb_spec (length a') 8); [reflexivity|].
      destruct (Nat.leb_spec (length a') 128); [reflexivity|].
      set (n2 := (length a' / 2 - (length a' / 2) mod 8)%nat).
      assert (Hdiv : (length a' / 2 < length a')%nat) by (apply Nat.div_lt; lia).
      assert (Hhalf : (64 <= length a' / 2)%nat)
        by (apply Nat.div_le_lower_bound; lia).
      assert (Hmod : ((length a' / 2) mod 8 < 8)%nat) by (apply Nat.mod_upper_bound; lia).
      assert (Hn2 : (1 <= n2 <= length a')%nat) by (unfold n2; lia).
      f_equal; apply IH; rewrite ?length_take, ?length_drop; lia. }
  intros Hfuel. apply H; [exact Hfuel|lia].
Qed.

(** The mean of one interval or more is a number. *)
Lemma mean_interval_finite rr_intervals fs :
  rr_intervals <> [] -> finite (mean_interval rr_intervals fs).
Proof.
  intros Hne. unfold mean_interval, mean.
  set (a := match fs with Some f => _ | None => _ end).
  assert (Ha : Forall finite a).
  { unfold a. destruct fs as [f|]; apply Forall_fmap, Forall_forall; intros d _; cbv beta.
    - destruct (of_int_nonzero (Z.pos f) ltac:(lia)) as (q & Eq & Hq).
      apply (fdiv_finite _ _ q); [apply of_int_finite|exact Hq|exact Eq].
    - apply of_int_finite. }
  assert (Hlen : Z.of_nat (length a) <> 0).
  { unfold a. destruct fs; rewrite length_fmap; destruct rr_intervals; simpl; congruence || lia. }
  destruct (of_int_nonzero _ Hlen) as (q & Eq & Hq).
  apply (fdiv_finite _ _ q); [apply pairwise_sum_finite, Ha|exact Hq|exact Eq].
Qed.

Lemma sixty_over_number x : finite x -> sixty_over x <> NaN.
Proof.
  intros [m ->]. unfold sixty_over.
  destruct (of_int_nonzero 60 ltac:(lia)) as (q & -> & Hq). simpl. rewrite Hq.
  destruct (Qeq_bool m 0); [destruct (Qltb q 0)|]; discriminate.
Qed.


Lemma Qltb_le_false a b : Qltb a b = false -> Qle_bool b a = true.
Proof. unfold Qltb. intros H. apply negb_false_iff in H. exact H. Qed.

Lemma from_bpm_buckets bpm :
  bpm <> NaN ->
  (if float_ltb bpm 60 then HeartRate.bradycardia
   else if float_leb bpm 100 then HeartRate.normal
   else HeartRate.tachycardia) = from_bpm bpm.
Proof.
  intros Hnan. unfold from_bpm. destruct (float_ltb bpm 60); [reflexivity|].
  destruct bpm as [q| | |]; simpl; try reflexivity; [|congruence].
  unfold Qltb. destruct (Qle_bool q 100) eqn:E; simpl; [reflexivity|].
  destruct (Qle_bool 100 q) eqn:E'; simpl; [reflexivity|].
  exfalso. destruct (Qlt_le_dec 100 q) as [Hlt|Hle].
  - apply Qlt_le_weak, Qle_bool_iff in Hlt. congruence.
  - apply Qle_bool_iff in Hle. congruence.
Qed.

(** X21.  On a list of two or more beat indices the heart-rate label is the
    value of [HeartRate.from_bpm] at the BPM computed from the mean
    interval: the two bucketings agree on every BPM that is a number. *)
Theorem heart_rate_label_is_from_bpm l fs :
  (2 <= length l)%nat ->
  _get_heart_rate_label (PyList l) fs
  = Ok (HeartRate.value (from_bpm (sixty_over (mean_interval (diff l) fs)))).
Proof.
  intros Hlen. destruct l as [|x [|y l]]; simpl in Hlen; try lia.
  unfold _get_heart_rate_label. cbn [truth length Nat.eqb negb items].
  rewrite bind_Ok. cbn [negb].
  set (bpm := sixty_over (mean_interval (diff (x :: y :: l)) fs)).
  assert (Hnan : bpm <> NaN).
  { apply sixty_over_number, mean_interval_finite. simpl diff. discriminate. }
  rewrite <- (from_bpm_buckets bpm Hnan).
  destruct (float_ltb bpm 60); [reflexivity|].
  destruct (float_leb bpm 100); reflexivity.
Qed.

Lemma heart_rate_label_is_from_bpm_witness :
  _get_heart_rate_label (PyList [0; 100; 200]) (Some 250%positive)
  = Ok (HeartRate.value
          (from_bpm (sixty_over (mean_interval (diff [0; 100; 200]) (Some 250%positive))))).
Proof.
  apply (heart_rate_label_is_from_bpm [0; 100; 200] (Some 250%positive)).
  simpl. lia.
Defined.

(** * Dataset helpers *)

Lemma numpy_dataset_generator_from {A B} (x : list A) (y : list B) (pre : list A) o :
  (length pre <= length y)%nat ->
  for_each (seq (length pre) (length x)) (fun i =>
    xi ← lift (getitem (pre ++ x) i);
    yi ← lift (getitem y i);
    yield (xi, yi)) o
  = (zip x (drop (length pre) y),
     if (length pre + length x <=? length y)%nat then Ok (tt, o) else Raise IndexError).
Proof.
  revert pre. induction x as [|a x IH]; intros pre Hpre.
  - simpl. rewrite Nat.add_0_r. destruct (Nat.leb_spec (length pre) (length y)); [|lia].
    reflexivity.
  - cbn [length seq for_each]. unfold mbind at 1, gen_bind at 1.
    assert (Ea : getitem (pre ++ a :: x) (length pre) = Ok a).
    { apply getitem_Some. apply list_lookup_middle. reflexivity. }
    unfold mbind at 1, gen_bind at 1. rewrite Ea. cbn [lift].
    destruct (y !! length pre) as [b|] eqn:Eb.
    + unfold mbind at 1, gen_bind at 1. rewrite (getitem_Some _ _ _ Eb). cbn [lift yield].
      specialize (IH (pre ++ [a])).
      rewrite length_app, Nat.add_1_r, <- app_assoc in IH. cbn [app] in IH.
      apply lookup_lt_Some in Eb as Hlt.
      rewrite IH by lia. rewrite (drop_S _ _ _ Eb). cbn [zip zip_with app].
      replace (S (length pre) + length x)%nat with (length pre + S (length x))%nat by lia.
      reflexivity.
    + unfold mbind at 1, gen_bind at 1. unfold getitem at 1. rewrite Eb. cbn [lift].
      apply lookup_ge_None in Eb. rewrite (drop_ge y) by lia.
      destruct (Nat.leb_spec (length pre + S (length x)) (length y)); [lia|].
      destruct x; reflexivity.
Qed.

(** X22.  [numpy_dataset_generator] yields the pairs [(x[i], y[i])] in order.
    When [y] has at least as many entries as [x] it stops after the last
    entry of [x]; when [y] is shorter it yields a pair for every entry of
    [y] and then raises IndexError. *)
Theorem numpy_dataset_generator_pairs {A B} (x : list A) (y : list B) o :
  numpy_dataset_generator x y o
  = (zip x y, if (length x <=? length y)%nat then Ok (tt, o) else Raise IndexError).
Proof. apply (numpy_dataset_generator_from x y []). simpl. lia. Qed.

Lemma fill_buffer_window {A} (buffer generator : list A) n :
  (length buffer < n)%nat -> (n <= length buffer + length generator)%nat ->
  fill_buffer buffer generator (Z.of_nat n)
  = (buffer ++ take (n - length buffer) generator, drop (n - length buffer) generator).
Proof.
  revert buffer. induction generator as [|e generator IH]; intros buffer Hlt Hle; simpl in *.
  { lia. }
  rewrite length_app. simpl.
  destruct (Z.eqb_spec (Z.of_nat (length buffer + 1)) (Z.of_nat n)) as [E|E].
  - replace (n - length buffer)%nat with 1%nat by lia. reflexivity.
  - rewrite IH by (rewrite ?length_app; simpl; lia).
    rewrite length_app. simpl.
    replace (n - length buffer)%nat with (S (n - (length buffer + 1))) by lia.
    simpl. rewrite <- app_assoc. reflexivity.
Qed.

Lemma fill_buffer_short {A} (buffer generator : list A) buffer_size :
  (Z.of_nat (length buffer + length generator) < buffer_size
   \/ buffer_size <= Z.of_nat (length buffer)) ->
  fill_buffer buffer generator buffer_size = (buffer ++ generator, []).
Proof.
  revert buffer. induction generator as [|e generator IH]; intros buffer Hsize; simpl in *.
  { rewrite app_nil_r. reflexivity. }
  rewrite length_app. simpl.
  destruct (Z.eqb_spec (Z.of_nat (length buffer + 1)) buffer_size) as [E|E]; [lia|].
  rewrite IH by (rewrite length_app; simpl; lia).
  rewrite <- app_assoc. reflexivity.
Qed.

Lemma slide_buffer_windows {A} (buffer generator : list A) :
  (0 < length buffer)%nat ->
  slide_buffer buffer generator
  = (fun k => take (length buffer) (drop k (buffer ++ generator)))
      <$> seq 1 (length generator).
Proof.
  revert buffer. induction generator as [|e generator IH]; intros buffer Hpos; [reflexivity|].
  destruct buffer as [|b buffer]; [simpl in Hpos; lia|].
  cbn [slide_buffer length seq fmap list_fmap].
  change (drop 1 (b :: buffer)) with buffer.
  change ((b :: buffer) ++ e :: generator) with (b :: (buffer ++ e :: generator)).
  change (drop 1 (b :: (buffer ++ e :: generator))) with (buffer ++ e :: generator).
  replace (buffer ++ e :: generator) with ((buffer ++ [e]) ++ generator)
    by (rewrite <- app_assoc; reflexivity).
  f_equal.
  - rewrite take_app_length'; [reflexivity|]. rewrite length_app. simpl. lia.
  - rewrite IH by (rewrite length_app; simpl; lia).
    rewrite <- (fmap_S_seq 1 (length generator)), <- list_fmap_compose.
    apply list_fmap_ext. intros _ k _. simpl.
    rewrite length_app, Nat.add_1_r. reflexivity.
Qed.

(** X23.  With [1 <= buffer_size <= n] for a generator of [n] elements,
    [buffered_generator] yields [n - buffer_size + 1] buffers: the windows of
    [buffer_size] consecutive elements, each one element further on than the
    one before. *)
Theorem buffered_generator_windows {A} (generator : list A) (n : nat) :
  (1 <= n <= length generator)%nat ->
  buffered_generator generator (Z.of_nat n)
  = (fun k => take n (drop k generator)) <$> seq 0 (length generator - n + 1).
Proof.
  intros Hn. unfold buffered_generator.
  rewrite (fill_buffer_window [] generator n) by (simpl; lia).
  simpl length. rewrite Nat.sub_0_r. cbn [app].
  rewrite slide_buffer_windows by (rewrite length_take; lia).
  rewrite take_drop, length_take, length_drop.
  replace (n `min` length generator)%nat with n by lia.
  rewrite Nat.add_1_r. reflexivity.
Qed.

Lemma buffered_generator_windows_witness :
  buffered_generator [1; 2; 3; 4] 2 = [[1; 2]; [2; 3]; [3; 4]].
Proof.
  apply (buffered_generator_windows [1; 2; 3; 4] 2). simpl. lia.
Defined.

(** X24.  When the generator has fewer than [buffer_size] elements, or
    [buffer_size] is not positive, [buffered_generator] yields one buffer
    with every element of the generator (a buffer that does not have
    [buffer_size] elements; the empty buffer for an empty generator) and
    stops. *)
Theorem buffered_generator_short {A} (generator : list A) buffer_size :
  Z.of_nat (length generator) < buffer_size \/ buffer_size <= 0 ->
  buffered_generator generator buffer_size = [generator].
Proof.
  intros Hsize. unfold buffered_generator.
  rewrite (fill_buffer_short [] generator buffer_size) by (simpl; lia).
  reflexivity.
Qed.

Lemma buffered_generator_short_witness :
  buffered_generator [1; 2] 3 = [[1; 2]].
Proof.
  apply (buffered_generator_short [1; 2] 3). simpl. lia.
Defined.

(** * Rhythm statistics *)

Lemma target_code l :
  existsb (fun r => l =? IcentiaRhythm.value r)
          [IcentiaRhythm.normal; IcentiaRhythm.afib; IcentiaRhythm.aflut] = true
  <-> exists tgt, tgt ∈ tgt_labels /\ l = IcentiaRhythm.value tgt.
Proof.
  split.
  - intros H. apply existsb_exists in H as (tgt & Hin & Heq).
    exists tgt. split; [apply list_elem_of_In, Hin|apply Z.eqb_eq, Heq].
  - intros (tgt & Hin & ->). apply existsb_exists. exists tgt.
    split; [apply list_elem_of_In, Hin|apply Z.eqb_refl].
Qed.

Lemma seg_rhythm_stats_rows pt seg_key rlabels i ls rows row :
  seg_rhythm_stats pt seg_key rlabels i ls = Ok rows ->
  In row rows <->
  exists j tgt s c0 e c,
    tgt ∈ tgt_labels
    /\ ls !! j = Some (IcentiaRhythm.value tgt)
    /\ rlabels !! (2 * (i + j))%nat = Some (s, c0)
    /\ rlabels !! (2 * (i + j) + 1)%nat = Some (e, c)
    /\ row = stat_row pt seg_key tgt s e.
Proof.
  revert i rows. induction ls as [|l ls IH]; intros i rows; cbn [seg_rhythm_stats].
  { intros [= <-]. split; [intros []|]. intros (j & ? & ? & ? & ? & ? & _ & Hj & _).
    discriminate. }
  destruct (existsb _ [IcentiaRhythm.normal; IcentiaRhythm.afib; IcentiaRhythm.aflut]) eqn:Etgt.
  - destruct (getitem rlabels (i * 2 + 0)) as [[s c0]|?] eqn:Es; [|discriminate].
    rewrite bind_Ok.
    destruct (getitem rlabels (i * 2 + 1)) as [[e c]|?] eqn:Ee; [|discriminate].
    rewrite !bind_Ok.
    destruct (seg_rhythm_stats pt seg_key rlabels (S i) ls) as [rest|?] eqn:Erest;
      [|discriminate].
    rewrite bind_Ok. intros [= <-].
    apply getitem_lookup in Es, Ee. apply target_code in Etgt as (tgt & Htgt & ->).
    specialize (IH (S i) rest Erest). cbn [In]. rewrite IH. split.
    + intros [<-|(j & tgt' & s' & c0' & e' & c' & H1 & H2 & H3 & H4 & H5)].
      * exists 0%nat, tgt, s, c0, e, c. rewrite Nat.add_0_r.
        replace (2 * i)%nat with (i * 2 + 0)%nat by lia.
        replace (i * 2 + 0 + 1)%nat with (i * 2 + 1)%nat by lia. auto.
      * exists (S j), tgt', s', c0', e', c'.
        replace (i + S j)%nat with (S i + j)%nat by lia. auto.
    + intros (j & tgt' & s' & c0' & e' & c' & H1 & H2 & H3 & H4 & H5).
      destruct j as [|j].
      * left. rewrite Nat.add_0_r in H3, H4. simpl in H2.
        replace (2 * i)%nat with (i * 2 + 0)%nat in H3 by lia.
        replace (2 * i + 1)%nat with (i * 2 + 1)%nat in H4 by lia.
        rewrite Es in H3. rewrite Ee in H4. injection H3 as <- <-. injection H4 as <- <-.
        injection H2 as H2. subst row. unfold stat_row. rewrite H2. reflexivity.
      * right. exists j, tgt', s', c0', e', c'.
        replace (S i + j)%nat with (i + S j)%nat by lia. auto.
  - rewrite bind_Ok.
    destruct (seg_rhythm_stats pt seg_key rlabels (S i) ls) as [rest|?] eqn:Erest;
      [|discriminate].
    rewrite bind_Ok. intros [= <-].
    specialize (IH (S i) rest Erest). cbn [In]. rewrite IH. split.
    + intros (j & tgt' & s' & c0' & e' & c' & H1 & H2 & H3 & H4 & H5).
      exists (S j), tgt', s', c0', e', c'.
      replace (i + S j)%nat with (S i + j)%nat by lia. auto.
    + intros (j & tgt' & s' & c0' & e' & c' & H1 & H2 & H3 & H4 & H5).
      destruct j as [|j].
      * simpl in H2. injection H2 as ->.
        assert (Htrue : existsb (fun r => IcentiaRhythm.value tgt' =? IcentiaRhythm.value r)
                          [IcentiaRhythm.normal; IcentiaRhythm.afib; IcentiaRhythm.aflut]
                        = true) by (apply target_code; eauto).
        congruence.
      * exists j, tgt', s', c0', e', c'.
        replace (S i + j)%nat with (i + S j)%nat by lia. auto.
Qed.

Lemma non_noise_empty seg : rlabels seg = [] -> non_noise seg = [].
Proof. unfold non_noise. intros ->. reflexivity. Qed.

Lemma seg_rhythm_stats_class_intervals pt seg_key seg rows row :
  seg_rhythm_stats pt seg_key (non_noise seg) 0 (evens (non_noise seg).*2) = Ok rows ->
  In row rows <->
  exists tgt s e,
    tgt ∈ tgt_labels /\ class_interval (e - s) seg tgt s e
    /\ row = stat_row pt seg_key tgt s e.
Proof.
  intros Hrows. rewrite (seg_rhythm_stats_rows _ _ _ _ _ _ _ Hrows).
  unfold class_interval. split.
  - intros (j & tgt & s & c0 & e & c & Htgt & Hl & Hs & He & Hrow).
    rewrite lookup_evens in Hl. simpl in Hs, He.
    rewrite list_lookup_fmap in Hl.
    replace (j + (j + 0))%nat with (2 * j)%nat in Hs, He by lia.
    rewrite Hs in Hl. simpl in Hl. injection Hl as ->.
    exists tgt, s, e. split; [exact Htgt|]. split; [|exact Hrow].
    exists j, c. split; [exact Hs|]. split; [exact He|lia].
  - intros (tgt & s & e & Htgt & (k & c & Hs & He & _) & Hrow).
    exists k, tgt, s, (IcentiaRhythm.value tgt), e, c. simpl.
    replace (k + (k + 0))%nat with (2 * k)%nat by lia.
    split; [exact Htgt|]. rewrite lookup_evens, list_lookup_fmap, Hs. auto.
Qed.

Lemma pt_rhythm_stats_from_rows pt seg_key segments rows row :
  pt_rhythm_stats_from pt seg_key segments = Ok rows ->
  In row rows <->
  exists j seg tgt s e,
    segments !! j = Some seg /\ tgt ∈ tgt_labels
    /\ class_interval (e - s) seg tgt s e
    /\ row = stat_row pt (seg_key + j) tgt s e.
Proof.
  revert seg_key rows. induction segments as [|seg segments IH]; intros seg_key rows;
    cbn [pt_rhythm_stats_from].
  { intros [= <-]. split; [intros []|]. intros (j & ? & ? & ? & ? & Hj & _). discriminate. }
  destruct (if (length (rlabels seg) =? 0)%nat then _ else _) as [here|?] eqn:Ehere;
    [|discriminate].
  rewrite bind_Ok.
  destruct (pt_rhythm_stats_from pt (S seg_key) segments) as [rest|?] eqn:Erest;
    [|discriminate].
  rewrite bind_Ok. intros [= <-]. rewrite in_app_iff, (IH _ _ Erest).
  assert (Hhere : In row here <->
                  exists tgt s e, tgt ∈ tgt_labels /\ class_interval (e - s) seg tgt s e
                                  /\ row = stat_row pt seg_key tgt s e).
  { destruct (Nat.eqb_spec (length (rlabels seg)) 0) as [Hempty|_].
    - injection Ehere as <-. split; [intros []|].
      intros (tgt & s & e & _ & (k & c & Hs & _) & _).
      rewrite non_noise_empty in Hs by (destruct (rlabels seg); [reflexivity|discriminate]).
      discriminate.
    - apply seg_rhythm_stats_class_intervals, Ehere. }
  rewrite Hhere. split.
  - intros [(tgt & s & e & H1 & H2 & H3)|(j & seg' & tgt & s & e & H1 & H2 & H3 & H4)].
    + exists 0%nat, seg, tgt, s, e. rewrite Nat.add_0_r. auto.
    + exists (S j), seg', tgt, s, e.
      replace (seg_key + S j)%nat with (S seg_key + j)%nat by lia. auto.
  - intros (j & seg' & tgt & s & e & H1 & H2 & H3 & H4). destruct j as [|j].
    + left. injection H1 as <-. rewrite Nat.add_0_r in H4. exists tgt, s, e. auto.
    + right. exists j, seg', tgt, s, e.
      replace (S seg_key + j)%nat with (seg_key + S j)%nat by lia. auto.
Qed.

Lemma rhythm_statistics_class_rows pt_gen rows row :
  get_rhythm_statistics pt_gen = Ok rows ->
  In row rows <->
  exists pt segments rc seg tgt s e,
    In (pt, segments) pt_gen /\ segments !! rc = Some seg
    /\ tgt ∈ tgt_labels
    /\ class_interval (e - s) seg tgt s e
    /\ row = stat_row pt rc tgt s e.
Proof.
  revert rows. induction pt_gen as [|[pt segments] pt_gen IH]; intros rows;
    cbn [get_rhythm_statistics].
  { intros [= <-]. split; [intros []|]. intros (? & ? & ? & ? & ? & ? & ? & [] & _). }
  destruct (pt_rhythm_stats_from pt 0 segments) as [here|?] eqn:Ehere; [|discriminate].
  rewrite bind_Ok.
  destruct (get_rhythm_statistics pt_gen) as [rest|?] eqn:Erest; [|discriminate].
  rewrite bind_Ok. intros [= <-].
  rewrite in_app_iff, (IH _ eq_refl), (pt_rhythm_stats_from_rows _ _ _ _ _ Ehere). split.
  - intros [(j & seg & tgt & s & e & H1 & H2 & H3 & H4)
           |(pt' & segments' & rc & seg & tgt & s & e & H0 & H1 & H2 & H3 & H4)].
    + exists pt, segments, j, seg, tgt, s, e. simpl. auto.
    + exists pt', segments', rc, seg, tgt, s, e. simpl. auto.
  - intros (pt' & segments' & rc & seg & tgt & s & e & [H0|H0] & H1 & H2 & H3 & H4).
    + injection H0 as <- <-. left. exists rc, seg, tgt, s, e. simpl. auto.
    + right. exists pt', segments', rc, seg, tgt, s, e. auto.
Qed.

Lemma class_interval_iff frame_size seg tgt s e :
  class_interval frame_size seg tgt s e
  <-> rhythm_interval seg tgt s e /\ frame_size <= e - s.
Proof.
  unfold class_interval, rhythm_interval. split.
  - intros (k & c & H1 & H2 & H3). eauto.
  - intros [(k & c & H1 & H2) H3]. eauto.
Qed.

(** X25.  When [get_rhythm_statistics] returns, its rows are the rhythm
    intervals of the target classes, no more and no fewer: a row for
    patient [pt], segment [rc], rhythm code of normal, afib or aflut, from
    [start] to [stop] with [dur = stop - start] is in the data frame exactly
    when rows [2k] and [2k + 1] of that segment's rhythm table without noise
    are at [start] and [stop] and row [2k] has that code.  These are the
    intervals the rhythm generator draws its windows from. *)
Theorem rhythm_statistics_rows pt_gen rows row :
  get_rhythm_statistics pt_gen = Ok rows ->
  In row rows <->
  exists pt segments rc seg tgt s e,
    In (pt, segments) pt_gen /\ segments !! rc = Some seg
    /\ tgt ∈ tgt_labels
    /\ rhythm_interval seg tgt s e
    /\ row = stat_row pt rc tgt s e.
Proof.
  intros Hrows. rewrite (rhythm_statistics_class_rows _ _ _ Hrows). split.
  - intros (pt & segments & rc & seg & tgt & s & e & H0 & H1 & H2 & H3 & H4).
    apply class_interval_iff in H3 as [H3 _].
    exists pt, segments, rc, seg, tgt, s, e. auto.
  - intros (pt & segments & rc & seg & tgt & s & e & H0 & H1 & H2 & H3 & H4).
    exists pt, segments, rc, seg, tgt, s, e.
    repeat split; try assumption. apply class_interval_iff. split; [exact H3|lia].
Qed.

Lemma rhythm_statistics_rows_witness :
  In (stat_row 7 0 IcentiaRhythm.normal 0 20) [stat_row 7 0 IcentiaRhythm.normal 0 20]
  <-> exists pt segments rc seg tgt s e,
        In (pt, segments) [(7, [short_segment])] /\ segments !! rc = Some seg
        /\ tgt ∈ tgt_labels
        /\ rhythm_interval seg tgt s e
        /\ stat_row 7 0 IcentiaRhythm.normal 0 20 = stat_row pt rc tgt s e.
Proof.
  apply (rhythm_statistics_rows [(7, [short_segment])]
           [stat_row 7 0 IcentiaRhythm.normal 0 20]).
  reflexivity.
Defined.

(** ** An interval that is not closed *)

Lemma seg_rhythm_stats_closed pt seg_key rlabels i ls rows j l :
  seg_rhythm_stats pt seg_key rlabels i ls = Ok rows ->
  ls !! j = Some l ->
  existsb (fun r => l =? IcentiaRhythm.value r)
          [IcentiaRhythm.normal; IcentiaRhythm.afib; IcentiaRhythm.aflut] = true ->
  is_Some (rlabels !! (2 * (i + j) + 1)%nat).
Proof.
  revert i rows j. induction ls as [|l' ls IH]; intros i rows j; cbn [seg_rhythm_stats];
    [intros _; discriminate|].
  intros Hrows Hj Htgt. destruct j as [|j].
  - injection Hj as ->. rewrite Htgt in Hrows.
    destruct (getitem rlabels (i * 2 + 0)) as [first|?]; [|discriminate].
    rewrite bind_Ok in Hrows.
    destruct (getitem rlabels (i * 2 + 1)) as [second|?] eqn:Ee; [|discriminate].
    apply getitem_lookup in Ee. exists second.
    replace (2 * (i + 0) + 1)%nat with (i * 2 + 1)%nat by lia. exact Ee.
  - destruct (if existsb _ [IcentiaRhythm.normal; IcentiaRhythm.afib; IcentiaRhythm.aflut]
              then _ else _) as [here|?]; [|discriminate].
    rewrite bind_Ok in Hrows.
    destruct (seg_rhythm_stats pt seg_key rlabels (S i) ls) as [rest|?] eqn:Erest;
      [|discriminate].
    replace (i + S j)%nat with (S i + j)%nat by lia.
    apply (IH _ _ _ Erest Hj Htgt).
Qed.

Lemma seg_rhythm_stats_error pt seg_key rlabels i ls e :
  seg_rhythm_stats pt seg_key rlabels i ls = Raise e -> e = IndexError.
Proof.
  revert i. induction ls as [|l ls IH]; intros i; cbn [seg_rhythm_stats]; [discriminate|].
  destruct (existsb _ [IcentiaRhythm.normal; IcentiaRhythm.afib; IcentiaRhythm.aflut]).
  - unfold getitem.
    destruct (rlabels !! (i * 2 + 0)%nat); [|intros [= <-]; reflexivity].
    rewrite bind_Ok.
    destruct (rlabels !! (i * 2 + 1)%nat); [|intros [= <-]; reflexivity].
    rewrite !bind_Ok.
    destruct (seg_rhythm_stats pt seg_key rlabels (S i) ls) eqn:Erest; [discriminate|].
    intros [= <-]. apply (IH _ Erest).
  - rewrite bind_Ok.
    destruct (seg_rhythm_stats pt seg_key rlabels (S i) ls) eqn:Erest; [discriminate|].
    intros [= <-]. apply (IH _ Erest).
Qed.

Lemma pt_rhythm_stats_from_error pt seg_key segments e :
  pt_rhythm_stats_from pt seg_key segments = Raise e -> e = IndexError.
Proof.
  revert seg_key. induction segments as [|seg segments IH]; intros seg_key;
    cbn [pt_rhythm_stats_from]; [discriminate|].
  destruct (Nat.eqb_spec (length (rlabels seg)) 0).
  - rewrite bind_Ok.
    destruct (pt_rhythm_stats_from pt (S seg_key) segments) eqn:Erest; [discriminate|].
    intros [= <-]. apply (IH _ Erest).
  - destruct (seg_rhythm_stats _ _ _ _ _) eqn:Ehere.
    + rewrite bind_Ok.
      destruct (pt_rhythm_stats_from pt (S seg_key) segments) eqn:Erest; [discriminate|].
      intros [= <-]. apply (IH _ Erest).
    + intros [= <-]. apply (seg_rhythm_stats_error _ _ _ _ _ _ Ehere).
Qed.

Lemma pt_rhythm_stats_from_closed pt seg_key segments rows seg k s tgt :
  pt_rhythm_stats_from pt seg_key segments = Ok rows ->
  seg ∈ segments -> tgt ∈ tgt_labels ->
  non_noise seg !! (2 * k)%nat = Some (s, IcentiaRhythm.value tgt) ->
  is_Some (non_noise seg !! (2 * k + 1)%nat).
Proof.
  revert seg_key rows. induction segments as [|seg' segments IH]; intros seg_key rows;
    cbn [pt_rhythm_stats_from].
  { intros _ Hin. apply elem_of_nil in Hin. contradiction. }
  intros Hrows Hin Htgt Hs.
  destruct (if (length (rlabels seg') =? 0)%nat then _ else _) as [here|?] eqn:Ehere;
    [|discriminate].
  rewrite bind_Ok in Hrows.
  destruct (pt_rhythm_stats_from pt (S seg_key) segments) as [rest|?] eqn:Erest;
    [|discriminate].
  apply elem_of_cons in Hin as [<-|Hin]; [|apply (IH _ _ Erest Hin Htgt Hs)].
  destruct (Nat.eqb_spec (length (rlabels seg)) 0) as [Hempty|_].
  - rewrite non_noise_empty in Hs by (destruct (rlabels seg); [reflexivity|discriminate]).
    discriminate.
  - apply (seg_rhythm_stats_closed _ _ _ 0%nat _ _ k (IcentiaRhythm.value tgt) Ehere).
    + rewrite lookup_evens, list_lookup_fmap, Hs. reflexivity.
    + apply target_code. eauto.
Qed.

(** X26.  [get_rhythm_statistics] raises IndexError when the rhythm table of
    some segment, without its noise rows, has a row in an even position that
    is coded normal, afib or aflut and has no row after it: an interval that
    starts and is never closed. *)
Theorem rhythm_statistics_open_interval pt_gen pt segments seg k s tgt :
  In (pt, segments) pt_gen -> seg ∈ segments -> tgt ∈ tgt_labels ->
  non_noise seg !! (2 * k)%nat = Some (s, IcentiaRhythm.value tgt) ->
  non_noise seg !! (2 * k + 1)%nat = None ->
  get_rhythm_statistics pt_gen = Raise IndexError.
Proof.
  intros Hpt Hseg Htgt Hs He.
  induction pt_gen as [|[pt' segments'] pt_gen IH]; [destruct Hpt|].
  cbn [get_rhythm_statistics].
  destruct (pt_rhythm_stats_from pt' 0 segments') as [here|e] eqn:Ehere.
  - rewrite bind_Ok. destruct Hpt as [Hpt|Hpt].
    + injection Hpt as -> ->.
      destruct (pt_rhythm_stats_from_closed _ _ _ _ _ _ _ _ Ehere Hseg Htgt Hs) as [? Hsome].
      congruence.
    + rewrite (IH Hpt). reflexivity.
  - rewrite (pt_rhythm_stats_from_error _ _ _ _ Ehere). reflexivity.
Qed.

Lemma rhythm_statistics_open_interval_witness :
  get_rhythm_statistics
    [(7, [{| data := []; blabels := []; rlabels := [(0, 1); (20, 4); (30, 2)] |}])]
  = Raise IndexError.
Proof.
  apply (rhythm_statistics_open_interval _ 7
           [{| data := []; blabels := []; rlabels := [(0, 1); (20, 4); (30, 2)] |}]
           {| data := []; blabels := []; rlabels := [(0, 1); (20, 4); (30, 2)] |}
           1%nat 30 IcentiaRhythm.afib).
  - left. reflexivity.
  - left.
  - unfold tgt_labels. right. left.
  - reflexivity.
  - reflexivity.
Defined.

(** X27.  Every window the rhythm generator yields lies inside an interval
    that [get_rhythm_statistics] lists for the same patients: a row of the
    data frame whose rhythm code is mapped to the label yielded, whose
    [start] and [stop] enclose the window and whose [dur] is at least
    [frame_size]. *)
Theorem rhythm_windows_in_statistics frame_size spp pt_gen rows o :
  get_rhythm_statistics pt_gen = Ok rows ->
  Forall (fun s =>
            exists row tgt a,
              In row rows
              /\ RhythmStat.rhythm row = IcentiaRhythm.value tgt
              /\ HeartRhythmMap tgt = Some (y_of s)
              /\ slices s = [(a, a + frame_size)]
              /\ RhythmStat.start row <= a
              /\ a + frame_size <= RhythmStat.stop row
              /\ frame_size <= RhythmStat.dur row)
         (yields (rhythm_data_generator frame_size spp pt_gen.*2) o).
Proof.
  intros Hrows.
  eapply Forall_impl;
    [apply (spec_yields_all _ _ _ o (rhythm_generator_samples frame_size spp pt_gen.*2))|].
  intros s (segments & Hpt & Hsrc & tgt & a & b & e & Htgt & Hlabel & Hsl & Hint & Hlo & Hhi).
  apply list_elem_of_fmap in Hpt as ([pt segments'] & -> & Hpt). simpl in Hsrc.
  apply list_elem_of_lookup_1 in Hsrc as [rc Hrc].
  exists (stat_row pt rc tgt b e), tgt, a.
  split.
  - apply (rhythm_statistics_class_rows _ _ _ Hrows).
    exists pt, segments', rc, (src s), tgt, b, e.
    repeat split; try assumption.
    + apply list_elem_of_In, Hpt.
    + destruct Hint as (k & c & H1 & H2 & H3). exists k, c. repeat split; try assumption. lia.
  - destruct Hint as (k & c & H1 & H2 & H3). simpl. repeat split; assumption.
Qed.

Lemma rhythm_windows_in_statistics_witness :
  Forall (fun s : sample HeartRhythm.t =>
            exists row tgt a,
              In row [stat_row 7 0 IcentiaRhythm.normal 0 20]
              /\ RhythmStat.rhythm row = IcentiaRhythm.value tgt
              /\ HeartRhythmMap tgt = Some (y_of s)
              /\ slices s = [(a, a + 5)]
              /\ RhythmStat.start row <= a
              /\ a + 5 <= RhythmStat.stop row
              /\ 5 <= RhythmStat.dur row)
         (yields (rhythm_data_generator 5 (PerClass [1; 1; 1]) [(7, [short_segment])].*2)
                 [0; 3]%nat).
Proof.
  apply (rhythm_windows_in_statistics 5 (PerClass [1; 1; 1]) [(7, [short_segment])]
           [stat_row 7 0 IcentiaRhythm.normal 0 20] [0; 3]%nat).
  reflexivity.
Defined.

(** * Patient generators *)

Lemma insert_swap_Permutation {A} (t : list A) j (b h : A) :
  t !! j = Some b -> b :: <[j:=h]> t ≡ₚ h :: t.
Proof.
  revert j. induction t as [|c t IH]; intros [|j] Hj; try discriminate; simpl in *.
  - injection Hj as ->. apply perm_swap.
  - rewrite perm_swap. rewrite (IH _ Hj). apply perm_swap.
Qed.

Lemma swap_Permutation {A} (x : list A) i j : swap x i j ≡ₚ x.
Proof.
  unfold swap. revert i j. induction x as [|h t IH]; intros i j; [reflexivity|].
  destruct i as [|i], j as [|j]; simpl.
  - reflexivity.
  - destruct (t !! j) as [b|] eqn:Ej; [|reflexivity]. simpl.
    apply insert_swap_Permutation, Ej.
  - destruct (t !! i) as [a|] eqn:Ei; [|reflexivity]. simpl.
    apply insert_swap_Permutation, Ei.
  - specialize (IH i j). destruct (t !! i) as [a|]; [|reflexivity].
    destruct (t !! j) as [b|]; [|reflexivity]. simpl. rewrite IH. reflexivity.
Qed.

Lemma shuffle_Permutation {Y A} (x : list A) :
  returns_silently (Y:=Y) (fun l => l ≡ₚ x) (shuffle x).
Proof.
  unfold shuffle. generalize (length x - 1)%nat as i. intros i.
  assert (H : forall x', x' ≡ₚ x ->
                         returns_silently (Y:=Y) (fun l => l ≡ₚ x) (shuffle_from i x')).
  { induction i as [|i IH]; intros x' Hx'; simpl.
    - apply silent_ret. exact Hx'.
    - eapply silent_bind; [apply silent_randbelow; lia|]. intros j _.
      apply IH. rewrite swap_Permutation. exact Hx'. }
  apply H. reflexivity.
Qed.

Lemma for_each_yield {X Y} (f : X -> Y) (xs : list X) o :
  for_each xs (fun x => yield (f x)) o = (f <$> xs, Ok (tt, o)).
Proof.
  induction xs as [|x xs IH]; [reflexivity|].
  simpl. unfold mbind, gen_bind. simpl. rewrite IH. reflexivity.
Qed.

Lemma fmap_fst_pair {A B} (f : A -> B) (l : list A) :
  ((fun x => (x, f x)) <$> l).*1 = l.
Proof. induction l as [|x l IH]; [reflexivity|]. simpl. f_equal. exact IH. Qed.

Lemma patient_pass_run db shuffle_ids patient_ids o :
  exists ids o',
    patient_pass db shuffle_ids patient_ids o
    = ((fun patient_id => (patient_id, db patient_id)) <$> ids, Ok (ids, o'))
    /\ ids ≡ₚ patient_ids
    /\ (shuffle_ids = false -> ids = patient_ids).
Proof.
  unfold patient_pass. destruct shuffle_ids.
  - destruct (shuffle_Permutation (Y:=Z * list segment) patient_ids o)
      as (ids & o' & Erun & Hperm).
    exists ids, o'. split; [|split; [exact Hperm|discriminate]].
    unfold mbind at 1, gen_bind at 1. rewrite Erun.
    unfold mbind, gen_bind. rewrite for_each_yield. simpl. rewrite app_nil_r. reflexivity.
  - exists patient_ids, o. split; [|split; reflexivity].
    unfold mbind at 1, gen_bind at 1. simpl.
    unfold mbind, gen_bind. rewrite for_each_yield. simpl. rewrite app_nil_r. reflexivity.
Qed.

(** X28.  Without [repeat], [uniform_patient_generator] yields every entry
    of [patient_ids] exactly once, each with the data of that patient, and
    stops: the patients yielded are a permutation of [patient_ids], and they
    come in the order of [patient_ids] when [shuffle] is off. *)
Theorem uniform_patient_generator_one_pass db patient_ids shuffle_ids passes o :
  exists ids o',
    uniform_patient_generator db patient_ids false shuffle_ids passes o
    = ((fun patient_id => (patient_id, db patient_id)) <$> ids, Ok (tt, o'))
    /\ ids ≡ₚ patient_ids
    /\ (shuffle_ids = false -> ids = patient_ids).
Proof.
  unfold uniform_patient_generator. cbn [patient_passes].
  destruct (patient_pass_run db shuffle_ids patient_ids o) as (ids & o' & Erun & Hperm & Hid).
  exists ids, o'. split; [|split; assumption].
  unfold mbind, gen_bind. rewrite Erun. simpl. rewrite app_nil_r. reflexivity.
Qed.

(** X29.  With [repeat], [uniform_patient_generator] goes through
    [patient_ids] pass after pass: what the first [n] passes yield is [n]
    blocks one after the other, each block a permutation of [patient_ids]
    (the very order of [patient_ids] when [shuffle] is off), every patient
    with the data of that patient.  Every patient is yielded once in a pass
    before any patient is yielded again. *)
Theorem uniform_patient_generator_passes db patient_ids shuffle_ids passes o :
  exists blocks o',
    uniform_patient_generator db patient_ids true shuffle_ids passes o
    = ((fun patient_id => (patient_id, db patient_id)) <$> mjoin blocks, Ok (tt, o'))
    /\ length blocks = passes
    /\ Forall (fun block => block ≡ₚ patient_ids) blocks
    /\ (shuffle_ids = false -> blocks = replicate passes patient_ids).
Proof.
  unfold uniform_patient_generator. revert patient_ids o.
  induction passes as [|passes IH]; intros patient_ids o; cbn [patient_passes].
  - exists [], o. split; [reflexivity|]. split; [reflexivity|].
    split; [constructor|]. intros _. reflexivity.
  - destruct (patient_pass_run db shuffle_ids patient_ids o)
      as (ids & o1 & Erun & Hperm & Hid).
    destruct (IH ids o1) as (blocks & o2 & Erest & Hlen & Hblocks & Hrep).
    exists (ids :: blocks), o2. split; [|split; [|split]].
    + unfold mbind, gen_bind. rewrite Erun, Erest.
      change (mjoin (ids :: blocks)) with (ids ++ mjoin blocks).
      rewrite fmap_app. reflexivity.
    + simpl. rewrite Hlen. reflexivity.
    + constructor; [exact Hperm|].
      eapply Forall_impl; [exact Hblocks|]. intros block Hblock.
      etransitivity; [exact Hblock|exact Hperm].
    + intros Hoff. rewrite (Hrep Hoff), (Hid Hoff). reflexivity.
Qed.

(** * Segments stored by the converter *)

Lemma ascending_from_bound x a :
  Forall (fun y => x <= y) a -> ascending a = true -> ascending (x :: a) = true.
Proof.
  intros Hx Ha. destruct a as [|y a]; [reflexivity|].
  inversion_clear Hx as [|? ? Hxy _]. simpl. apply andb_true_iff. split; [|exact Ha].
  apply Z.leb_le, Hxy.
Qed.

Lemma wfdb_blabels_ascending atr :
  ascending (ann_sample <$> atr) = true -> ascending (wfdb_blabels atr).*1 = true.
Proof.
  induction atr as [|a atr IH]; intros Hasc; [reflexivity|].
  rewrite fmap_cons in Hasc.
  destruct (ascending_cons _ _ Hasc) as [Htail Hlow]. specialize (IH Htail).
  unfold wfdb_blabels. cbn [omap list_omap]. fold (wfdb_blabels atr).
  destruct (WfdbBeatMap (ann_symbol a)) as [code|]; simpl; [|exact IH].
  apply ascending_from_bound; [|exact IH].
  apply Forall_fmap, Forall_forall. intros [s c] Hin. simpl.
  apply list_elem_of_omap in Hin as (a' & Ha' & Hrow).
  destruct (WfdbBeatMap (ann_symbol a')); [|discriminate]. simpl in Hrow.
  injection Hrow as <- <-.
  rewrite Forall_fmap, Forall_forall in Hlow. apply (Hlow a' Ha').
Qed.

(** X30.  The segment the converter stores for a record is well formed for
    the sample generators when the annotations of the record are in
    ascending order of their sample index and lie in the signal: the beat
    table keeps the order of the annotations, and every row of the rhythm
    table is at the sample of an annotation. *)
Theorem converted_segment_well_formed p_signal atr :
  ascending (ann_sample <$> atr) = true ->
  Forall (fun a => 0 <= ann_sample a <= Z.of_nat (length p_signal)) atr ->
  wf_segment (converted_segment p_signal atr) = true.
Proof.
  intros Hasc Hin. unfold wf_segment. apply andb_true_iff. split.
  - apply wfdb_blabels_ascending, Hasc.
  - apply forallb_forall. intros [s c] Hrow. simpl in Hrow.
    unfold wfdb_rlabels in Hrow. apply list_elem_of_In, list_elem_of_fmap in Hrow
      as (a & Hrow & Ha). injection Hrow as -> _.
    apply list_elem_of_In, filter_In in Ha as [Ha _].
    rewrite Forall_forall in Hin. specialize (Hin a (proj2 (list_elem_of_In _ _) Ha)).
    unfold data_len. simpl. apply andb_true_iff. split; apply Z.leb_le; lia.
Qed.

Lemma converted_segment_well_formed_witness :
  wf_segment
    (converted_segment (replicate 20 [Fin 0])
       [ {| ann_sample := 0; ann_symbol := "+"; ann_aux_note := "(N" |};
         {| ann_sample := 5; ann_symbol := "N"; ann_aux_note := "" |};
         {| ann_sample := 12; ann_symbol := "V"; ann_aux_note := "" |};
         {| ann_sample := 20; ann_symbol := "+"; ann_aux_note := ")" |} ]) = true.
Proof.
  apply (converted_segment_well_formed (replicate 20 [Fin 0])).
  - reflexivity.
  - repeat constructor; simpl; lia.
Defined.
